(** * pi-acp: the bridge between the Agent Client Protocol and the pi RPC mode

    A shallow embedding of the parts of pi-acp that carry its behaviour:

    - [SlashCommands]: src/acp/slash-commands.ts
      ([parseFrontmatter], [loadCommandsFromDir], [loadSlashCommands],
      [toAvailableCommands], [parseCommandArgs], [substituteArgs],
      [expandSlashCommand]);
    - [Translate]: src/acp/translate/prompt.ts and pi-tools.ts
      ([guessFileNameFromMime], [promptToPiMessage], [toolResultToText]);
    - [Session]: src/acp/session.ts ([PiAcpSession]: [prompt], [cancel],
      [emit], [flushEmits], [handlePiEvent]);
    - [Process]: src/pi-rpc/process.ts ([PiRpcProcess]: the line handler,
      the exit handler, [onEvent], [request]).

    Conventions.  A JavaScript string is a [string]; one [ascii] stands for
    one UTF-16 code unit below 256.  Values that come out of [JSON.parse] are
    the inductive [JS.value].  Node built-ins whose result the code only
    passes on ([JSON.stringify], [JSON.parse], [crypto.randomUUID]) are
    section variables.  The directories the loader reads are the trees of
    [Dirent] it is given: what [readdirSync] lists, and what [readFileSync]
    returns or that it throws. *)

From Stdlib Require Import String Ascii List ZArith Lia ZifyNat Bool DecimalString DecimalPos.
From stdpp Require Import base option list gmap sets strings.

Import ListNotations.
Local Open Scope list_scope.
Local Open Scope string_scope.

(* ===================================================================== *)
(** * JavaScript values and the primitive operations the code relies on  *)
(* ===================================================================== *)

Module JS.

(** What [JSON.parse] can return.  Numbers are the integers, [VNum n] being
    the Number nearest to [n]: no test made by the code tells a number with
    a fraction from a non-zero integer; only the rendering by [String(...)]
    of a number with a fraction is not covered. *)
#[warnings="-register-all"]
Inductive value : Type :=
| VNull
| VBool (b : bool)
| VNum (n : Z)
| VStr (s : string)
| VArr (items : list value)
| VObj (fields : list (string * value)).

(** Own property lookup in a parsed object (keys of a parsed object are
    distinct; the first binding is the one found). *)
Fixpoint lookup_field (k : string) (fields : list (string * value)) : option value :=
  match fields with
  | [] => None
  | (k', v) :: rest => if String.eqb k k' then Some v else lookup_field k rest
  end.

(** Results of code that may throw. *)
Inductive res (A : Type) : Type :=
| Ok (a : A)
| Throw (e : string).
Arguments Ok {A} a.
Arguments Throw {A} e.

Definition bind {A B} (r : res A) (k : A -> res B) : res B :=
  match r with
  | Ok a => k a
  | Throw e => Throw e
  end.

Notation "'let*' x ':=' r 'in' k" := (bind r (fun x => k))
  (at level 10, x name, r at level 100, k at level 200).

(** [v.k]: [None] is [undefined].  None of the property names the bridge
    reads ([type], [id], [toolCallId], [content], ...) exists on the
    prototypes of strings, numbers, booleans or arrays, so on those the
    access yields [undefined]; on [null] it throws a TypeError. *)
Definition get (v : value) (k : string) : res (option value) :=
  match v with
  | VNull => Throw "TypeError"
  | VObj fields => Ok (lookup_field k fields)
  | _ => Ok None
  end.

(** [v?.k] on a possibly undefined receiver: never throws. *)
Definition get_opt (v : option value) (k : string) : option value :=
  match v with
  | Some (VObj fields) => lookup_field k fields
  | _ => None
  end.

(** [v ?? d]: [d] replaces [undefined] and [null] only. *)
Definition nullish {A} (v : option value) (d : A) (f : value -> A) : A :=
  match v with
  | None | Some VNull => d
  | Some x => f x
  end.

Definition string_of_Z (n : Z) : string := NilZero.string_of_int (Z.to_int n).

(** [Array.prototype.join]: [null] elements render as the empty string. *)
Fixpoint join_with (sep : string) (l : list string) : string :=
  match l with
  | [] => ""
  | [x] => x
  | x :: rest => x ++ sep ++ join_with sep rest
  end.

(** The Number nearest to the integer [m > 0] (IEEE 754 binary64, ties to
    even), as the integer it is; [None] is [Infinity]. *)
Definition nearest_double (m : Z) : option Z :=
  let e := (Z.log2 m - 52)%Z in
  if (e <=? 0)%Z then Some m
  else
    let q := Z.shiftr m e in
    let r := (m - Z.shiftl q e)%Z in
    let half := Z.shiftl 1 (e - 1) in
    let q := if (r <? half)%Z then q
             else if (half <? r)%Z then (q + 1)%Z
             else if Z.even q then q else (q + 1)%Z in
    if (1024 <=? Z.log2 (Z.shiftl q e))%Z then None else Some (Z.shiftl q e).

(** The number of decimal digits of [m > 0]. *)
Definition decimal_digits (m : Z) : Z := Z.of_nat (String.length (string_of_Z m)).

(** The integer whose digits [Number::toString] prints for the Number [x]:
    with as few significant digits [k] as possible (searched upwards from
    [k]), a multiple of [10^(n-k)] that reads back as [x], the nearer to
    [x] of the two around it if both do. *)
Fixpoint shortest_decimal (fuel : nat) (k : Z) (x : Z) : Z :=
  match fuel with
  | O => x
  | S fuel =>
      let p := (10 ^ (decimal_digits x - k))%Z in
      let lo := (x / p * p)%Z in
      let hi := (lo + p)%Z in
      let lo_ok := match nearest_double lo with Some y => Z.eqb y x | None => false end in
      let hi_ok := match nearest_double hi with Some y => Z.eqb y x | None => false end in
      if lo_ok && hi_ok then (if (x - lo <=? hi - x)%Z then lo else hi)
      else if lo_ok then lo
      else if hi_ok then hi
      else shortest_decimal fuel (k + 1)%Z x
  end.

(** [m] without its zeros at the end. *)
Fixpoint strip_zeros (fuel : nat) (m : Z) : Z :=
  match fuel with
  | O => m
  | S fuel => if (m mod 10 =? 0)%Z then strip_zeros fuel (m / 10)%Z else m
  end.

(** [Number::toString] of the Number nearest to the integer [n]: the
    digits in full up to twenty-one of them, and the exponent form beyond. *)
Definition Number_toString (n : Z) : string :=
  if Z.eqb n 0 then "0"
  else
    let sign := if (n <? 0)%Z then "-" else "" in
    match nearest_double (Z.abs n) with
    | None => sign ++ "Infinity"
    | Some x =>
        let v := shortest_decimal (Z.to_nat (decimal_digits x)) 1 x in
        if (decimal_digits v <=? 21)%Z then sign ++ string_of_Z v
        else
          let s := string_of_Z (strip_zeros (Z.to_nat (decimal_digits v)) v) in
          let e := string_of_Z (decimal_digits v - 1) in
          match s with
          | String d EmptyString => sign ++ String d ("e+" ++ e)
          | String d rest => sign ++ String d ("." ++ rest ++ "e+" ++ e)
          | EmptyString => sign
          end
    end.

(** [String(v)] for a parsed value.  An object is rendered through its
    [toString] member: an own member of a parsed object is no function, and
    then, [valueOf] giving no primitive either, the conversion throws a
    TypeError; without an own member it is [Object.prototype.toString].  An
    array is rendered by [Array.prototype.join], which renders its
    elements in turn. *)
Fixpoint to_String (v : value) : res string :=
  match v with
  | VNull => Ok "null"
  | VBool true => Ok "true"
  | VBool false => Ok "false"
  | VNum n => Ok (Number_toString n)
  | VStr s => Ok s
  | VArr items =>
      let* parts :=
        (fix each (l : list value) : res (list string) :=
           match l with
           | [] => Ok []
           | x :: rest =>
               let* part := match x with VNull => Ok "" | _ => to_String x end in
               let* parts := each rest in
               Ok (part :: parts)
           end) items in
      Ok (join_with "," parts)
  | VObj fields =>
      match lookup_field "toString" fields with
      | Some _ => Throw "TypeError"
      | None => Ok "[object Object]"
      end
  end.

(** Truthiness of a string: [if (s)], [!s], [Boolean(s)]. *)
Definition truthy_string (s : string) : bool :=
  match s with
  | EmptyString => false
  | _ => true
  end.

(** Truthiness of a possibly undefined value. *)
Definition truthy (v : option value) : bool :=
  match v with
  | None | Some VNull | Some (VBool false) => false
  | Some (VNum n) => negb (Z.eqb n 0)
  | Some (VStr s) => truthy_string s
  | Some _ => true
  end.

(** [typeof v === 'string'], giving the string. *)
Definition as_string (v : option value) : option string :=
  match v with
  | Some (VStr s) => Some s
  | _ => None
  end.

(** White space as [String.prototype.trim] sees it, among code units below
    256: TAB, LF, VT, FF, CR, SPACE and NBSP. *)
Definition is_space (c : ascii) : bool :=
  let n := nat_of_ascii c in
  (Nat.leb 9 n && Nat.leb n 13) || Nat.eqb n 32 || Nat.eqb n 160.

(** [s.trim()] is non-empty: some code unit of [s] is not white space. *)
Fixpoint trim_nonempty (s : string) : bool :=
  match s with
  | EmptyString => false
  | String c rest => negb (is_space c) || trim_nonempty rest
  end.

(** [s.startsWith(p)] *)
Definition startsWith (s p : string) : bool := String.prefix p s.

(** [s.indexOf(c)] for a one-unit needle; [None] is -1. *)
Fixpoint indexOf (s : string) (c : ascii) : option nat :=
  match s with
  | EmptyString => None
  | String d rest =>
      if Ascii.eqb d c then Some 0
      else match indexOf rest c with
           | Some i => Some (S i)
           | None => None
           end
  end.

(** [s.slice(a, b)] and [s.slice(a)] for non-negative indices. *)
Definition slice (s : string) (a b : nat) : string := String.substring a (b - a) s.
Definition slice_from (s : string) (a : nat) : string :=
  String.substring a (String.length s - a) s.

End JS.

(* ===================================================================== *)
(** * src/acp/slash-commands.ts                                           *)
(* ===================================================================== *)

Module SlashCommands.
Import JS.

(** [FileSlashCommand] *)
Record FileSlashCommand : Type := {
  name : string;
  description : string;
  content : string;
  source : string
}.

(** [AvailableCommand], as [toAvailableCommands] fills it. *)
Record AvailableCommand : Type := {
  ac_name : string;
  ac_description : string
}.

Definition is_char (c d : ascii) : bool := Ascii.eqb c d.

(** The double quote, code unit 34. *)
Definition dquote : ascii := "034"%char.

Definition snoc (s : string) (c : ascii) : string := s ++ String c EmptyString.

(** [toAvailableCommands]: the loop, with [seen] the set of names met. *)
Fixpoint toAvailableCommands_loop (seen : list string) (cs : list FileSlashCommand)
  : list AvailableCommand :=
  match cs with
  | [] => []
  | c :: rest =>
      if existsb (String.eqb (name c)) seen then toAvailableCommands_loop seen rest
      else {| ac_name := name c; ac_description := description c |}
             :: toAvailableCommands_loop (name c :: seen) rest
  end.

Definition toAvailableCommands (fileCommands : list FileSlashCommand) : list AvailableCommand :=
  toAvailableCommands_loop [] fileCommands.

(** [parseCommandArgs]: the [for] loop over the code units of [argsString],
    carrying [args], [current] and [inQuote]; the final [if (current)]
    is the base case. *)
Fixpoint parseCommandArgs_loop (s : string) (args : list string) (current : string)
    (inQuote : option ascii) : list string :=
  match s with
  | EmptyString => if truthy_string current then args ++ [current] else args
  | String ch rest =>
      match inQuote with
      | Some q =>
          if is_char ch q then parseCommandArgs_loop rest args current None
          else parseCommandArgs_loop rest args (snoc current ch) inQuote
      | None =>
          if is_char ch dquote || is_char ch "'" then
            parseCommandArgs_loop rest args current (Some ch)
          else if is_char ch " " || is_char ch "009" then
            if truthy_string current
            then parseCommandArgs_loop rest (args ++ [current]) "" None
            else parseCommandArgs_loop rest args current None
          else parseCommandArgs_loop rest args (snoc current ch) None
      end
  end.

Definition parseCommandArgs (argsString : string) : list string :=
  parseCommandArgs_loop argsString [] "" None.

(** ** [String.prototype.replace] as [substituteArgs] uses it *)

(** The replacement text of one match when the second argument of
    [replace] is a string (ECMAScript GetSubstitution, for a pattern without
    capture groups): in the template, [$$] stands for [$], [$&] for the
    matched text, [$`] for the text before the match and [$'] for the text
    after it; every other code unit, a lone [$] or [$1] included, is
    copied. *)
Fixpoint getSubstitution (matched before after template : string) : string :=
  match template with
  | EmptyString => EmptyString
  | String c rest =>
      if is_char c "$" then
        match rest with
        | String d rest' =>
            if is_char d "$" then "$" ++ getSubstitution matched before after rest'
            else if is_char d "&" then matched ++ getSubstitution matched before after rest'
            else if is_char d "`" then before ++ getSubstitution matched before after rest'
            else if is_char d "'" then after ++ getSubstitution matched before after rest'
            else String c (getSubstitution matched before after rest)
        | EmptyString => String c EmptyString
        end
      else String c (getSubstitution matched before after rest)
  end.

(** [s.replace(/\$@/g, template)], scanning left to right.  [before] is the
    text already passed; [dollar] tells that the unit just passed was a [$]
    (not yet in [before], not yet written out) which starts a match if [@]
    comes next. *)
Fixpoint replace_dollar_at (template before : string) (dollar : bool) (s : string) : string :=
  match s with
  | EmptyString => if dollar then "$" else ""
  | String c rest =>
      if dollar then
        if is_char c "@" then
          getSubstitution "$@" before rest template
            ++ replace_dollar_at template (before ++ "$@") false rest
        else if is_char c "$" then
          String "$" (replace_dollar_at template (snoc before "$") true rest)
        else
          String "$" (String c (replace_dollar_at template (snoc (snoc before "$") c) false rest))
      else
        if is_char c "$" then replace_dollar_at template before true rest
        else String c (replace_dollar_at template (snoc before c) false rest)
  end.

Definition is_digit (c : ascii) : bool :=
  let n := nat_of_ascii c in Nat.leb 48 n && Nat.leb n 57.

(** [Number.parseInt(num, 10)] on a string of decimal digits. *)
Definition parseInt (digits : string) : nat :=
  fold_left (fun acc c => 10 * acc + (nat_of_ascii c - 48)) (list_ascii_of_string digits) 0.

(** The callback of the second [replace]: [args[parseInt(num) - 1] ?? '']. *)
Definition positional (args : list string) (num : string) : string :=
  match parseInt num with
  | O => ""
  | S idx => nth idx args ""
  end.

(** What a scan of [/\$(\d+)/] writes when the text read after a [$] ends:
    nothing matched when no digit followed the [$]. *)
Definition close_positional (args : list string) (num : string) : string :=
  if truthy_string num then positional args num else "$".

(** [s.replace(/\$(\d+)/g, (_m, num) => ...)], scanning left to right.
    [open] is [Some num] when a [$] followed by the digits [num] (as many as
    were met so far: [\d+] is greedy) has just been passed. *)
Fixpoint replace_positional (args : list string) (open : option string) (s : string) : string :=
  match s with
  | EmptyString =>
      match open with
      | Some num => close_positional args num
      | None => ""
      end
  | String c rest =>
      match open with
      | Some num =>
          if is_digit c then replace_positional args (Some (snoc num c)) rest
          else if is_char c "$" then
            close_positional args num ++ replace_positional args (Some "") rest
          else close_positional args num ++ String c (replace_positional args None rest)
      | None =>
          if is_char c "$" then replace_positional args (Some "") rest
          else String c (replace_positional args None rest)
      end
  end.

(** [substituteArgs] *)
Definition substituteArgs (content : string) (args : list string) : string :=
  let result := content in
  let result := replace_dollar_at (join_with " " args) "" false result in
  let result := replace_positional args None result in
  result.

(** [expandSlashCommand] *)
Definition expandSlashCommand (text : string) (fileCommands : list FileSlashCommand) : string :=
  if negb (startsWith text "/") then text
  else
    let spaceIndex := indexOf text " " in
    let commandName :=
      match spaceIndex with
      | None => slice_from text 1
      | Some i => slice text 1 i
      end in
    let argsString :=
      match spaceIndex with
      | None => ""
      | Some i => slice_from text (i + 1)
      end in
    match find (fun c => String.eqb (name c) commandName) fileCommands with
    | None => text
    | Some cmd => substituteArgs (content cmd) (parseCommandArgs argsString)
    end.

(** The command name [expandSlashCommand] looks up: the text between the
    leading [/] and the first space. *)
Definition commandName_of (text : string) : string :=
  match indexOf text " " with
  | None => slice_from text 1
  | Some i => slice text 1 i
  end.

(** ** The specification's reading of argument substitution

    One pass over the command body: each [$@] of the body becomes the
    space-joined argument list, each [$N] of the body the N-th argument (the
    empty string when there is none), everything else is kept.  This follows
    the words of the specification, to be compared with [substituteArgs]. *)
Fixpoint substitute_spec_scan (args : list string) (open : option string) (s : string) : string :=
  match s with
  | EmptyString =>
      match open with
      | Some num => close_positional args num
      | None => ""
      end
  | String c rest =>
      match open with
      | Some num =>
          if is_digit c then substitute_spec_scan args (Some (snoc num c)) rest
          else if is_char c "@" && negb (truthy_string num) then
            join_with " " args ++ substitute_spec_scan args None rest
          else if is_char c "$" then
            close_positional args num ++ substitute_spec_scan args (Some "") rest
          else close_positional args num ++ String c (substitute_spec_scan args None rest)
      | None =>
          if is_char c "$" then substitute_spec_scan args (Some "") rest
          else String c (substitute_spec_scan args None rest)
      end
  end.

Definition substituteArgs_spec (body : string) (args : list string) : string :=
  substitute_spec_scan args None body.

(** No code unit of [s] is [$]. *)
Fixpoint dollar_free (s : string) : bool :=
  match s with
  | EmptyString => true
  | String c rest => negb (is_char c "$") && dollar_free rest
  end.

(** [s] is not empty and does not begin with a decimal digit. *)
Definition starts_without_digit (s : string) : bool :=
  match s with
  | EmptyString => false
  | String c _ => negb (is_digit c)
  end.

(** The catalog of test/unit/slash-commands.test.ts. *)
Definition hello_cmds : list FileSlashCommand :=
  [ {| name := "hello"; description := "(user)"; content := "Say hi to $1"; source := "(user)" |} ].

(** The catalog of test/component/session-slash-commands.test.ts. *)
Definition expanded_cmds : list FileSlashCommand :=
  [ {| name := "hello"; description := "(user)"; content := "Expanded $1"; source := "(user)" |} ].

(** ** The loader of the command files *)

(** [s.endsWith(p)] *)
Definition endsWith (s p : string) : bool :=
  let n := String.length s in
  let k := String.length p in
  Nat.leb k n && String.eqb (substring (n - k) k s) p.

(** [s.slice(0, -k)] *)
Definition slice_to_last (s : string) (k : nat) : string :=
  substring 0 (String.length s - k) s.

(** [s.trim()]: the white space of [is_space] is taken off both ends. *)
Fixpoint trimStart (s : string) : string :=
  match s with
  | EmptyString => EmptyString
  | String c rest => if is_space c then trimStart rest else s
  end.

Fixpoint trimEnd (s : string) : string :=
  match s with
  | EmptyString => EmptyString
  | String c rest =>
      match trimEnd rest with
      | EmptyString => if is_space c then EmptyString else String c EmptyString
      | kept => String c kept
      end
  end.

Definition trim (s : string) : string := trimEnd (trimStart s).

(** [s.split('\n')] *)
Fixpoint split_lines (s : string) : list string :=
  match s with
  | EmptyString => [EmptyString]
  | String c rest =>
      if is_char c "010" then EmptyString :: split_lines rest
      else match split_lines rest with
           | line :: lines => String c line :: lines
           | [] => [String c EmptyString]
           end
  end.

(** [s.indexOf(needle)] and [s.indexOf(needle, from)] for a needle that is
    not empty; [None] is -1. *)
Fixpoint first_occurrence (needle s : string) : option nat :=
  if startsWith s needle then Some 0
  else match s with
       | EmptyString => None
       | String _ rest => option_map S (first_occurrence needle rest)
       end.

Fixpoint indexOf_from (needle s : string) (from : nat) : option nat :=
  match from with
  | O => first_occurrence needle s
  | S k =>
      match s with
      | EmptyString => None
      | String _ rest => option_map S (indexOf_from needle rest k)
      end
  end.

(** The classes [\w] and [.] of a regular expression without flags. *)
Definition is_word (c : ascii) : bool :=
  let n := nat_of_ascii c in
  (Nat.leb 48 n && Nat.leb n 57) || (Nat.leb 65 n && Nat.leb n 90)
  || Nat.eqb n 95 || (Nat.leb 97 n && Nat.leb n 122).

Definition is_line_terminator (c : ascii) : bool :=
  let n := nat_of_ascii c in Nat.eqb n 10 || Nat.eqb n 13.

(** The longest run of word characters at the head, and what follows. *)
Fixpoint span_word (s : string) : string * string :=
  match s with
  | EmptyString => (EmptyString, EmptyString)
  | String c rest =>
      if is_word c then let '(w, r) := span_word rest in (String c w, r)
      else (EmptyString, s)
  end.

Fixpoint no_line_terminator (s : string) : bool :=
  match s with
  | EmptyString => true
  | String c rest => negb (is_line_terminator c) && no_line_terminator rest
  end.

(** [line.match(...)] with the regular expression of [parseFrontmatter]
    (the start of the line, a group of one or more word characters, a colon,
    any white space, a group of any characters, the end of the input),
    giving the two groups.  The first group takes the longest run of word
    characters, which a colon must follow; the white space behind the colon
    is skipped; the second group takes the rest when it holds no line
    terminator, and nothing matches when it holds one. *)
Definition match_header (line : string) : option (string * string) :=
  let '(key, rest) := span_word line in
  if truthy_string key then
    match rest with
    | String c after =>
        if is_char c ":" then
          let value := trimStart after in
          if no_line_terminator value then Some (key, value) else None
        else None
    | EmptyString => None
    end
  else None.

(** The object [frontmatter]: its own properties, in the order they were
    created.  An assignment to [__proto__] creates none. *)
Fixpoint fm_set (key value : string) (fm : list (string * string)) : list (string * string) :=
  match fm with
  | [] => [(key, value)]
  | (k, v) :: rest =>
      if String.eqb k key then (k, value) :: rest else (k, v) :: fm_set key value rest
  end.

Definition frontmatter_set (key value : string) (fm : list (string * string))
  : list (string * string) :=
  if String.eqb key "__proto__" then fm else fm_set key value fm.

Fixpoint frontmatter_get (key : string) (fm : list (string * string)) : option string :=
  match fm with
  | [] => None
  | (k, v) :: rest => if String.eqb k key then Some v else frontmatter_get key rest
  end.

(** [parseFrontmatter] *)
Definition parseFrontmatter (content : string) : list (string * string) * string :=
  if negb (startsWith content "---") then ([], content)
  else
    match indexOf_from (String "010" "---") content 3 with
    | None => ([], content)
    | Some endIndex =>
        let frontmatterBlock := slice content 4 endIndex in
        let remaining := trim (slice_from content (endIndex + 4)) in
        let frontmatter :=
          fold_left (fun fm line =>
                       match match_header line with
                       | Some (key, value) => frontmatter_set key (trim value) fm
                       | None => fm
                       end)
                    (split_lines frontmatterBlock) [] in
        (frontmatter, remaining)
    end.

(** The scope of a command directory. *)
Inductive Source : Type := user | project.

(** What [readdirSync(dir, {withFileTypes: true})] and [readFileSync] give
    for a directory: its entries in the order of the listing.  For a file,
    [None] stands for a content that cannot be read; for a directory, [None]
    stands for one that cannot be listed, or exists no more. *)
#[warnings="-register-all"]
Inductive Dirent : Type :=
| FileEntry (entryName : string) (raw : option string)
| DirEntry (entryName : string) (entries : option (list Dirent))
| OtherEntry (entryName : string).

(** [sourceStr] *)
Definition sourceStr (scope : Source) (subdir : string) : string :=
  match scope with
  | user => if truthy_string subdir then "(user:" ++ subdir ++ ")" else "(user)"
  | project => if truthy_string subdir then "(project:" ++ subdir ++ ")" else "(project)"
  end.

(** The description of a command: lines 65 to 74 of the loader. *)
Definition describe (frontmatter : list (string * string)) (body label : string) : string :=
  let description :=
    match frontmatter_get "description" frontmatter with
    | Some d => d
    | None => EmptyString
    end in
  let description :=
    if truthy_string description then description
    else
      match find (fun l => truthy_string (trim l)) (split_lines body) with
      | Some firstLine =>
          slice firstLine 0 60 ++ (if Nat.ltb 60 (String.length firstLine) then "..." else "")
      | None => description
      end in
  if truthy_string description then description ++ " " ++ label else label.

(** The command made of one file. *)
Definition command_of_file (scope : Source) (subdir entryName raw : string) : FileSlashCommand :=
  let '(frontmatter, body) := parseFrontmatter raw in
  let label := sourceStr scope subdir in
  {| name := slice_to_last entryName 3;
     description := describe frontmatter body label;
     content := body;
     source := label |}.

(** [newSubdir] *)
Definition newSubdir (subdir entryName : string) : string :=
  if truthy_string subdir then subdir ++ ":" ++ entryName else entryName.

(** One turn of the loop of [loadCommandsFromDir]. *)
Fixpoint load_entry (scope : Source) (subdir : string) (entry : Dirent) : list FileSlashCommand :=
  match entry with
  | DirEntry entryName entries =>
      match entries with
      | Some es => flat_map (load_entry scope (newSubdir subdir entryName)) es
      | None => []
      end
  | FileEntry entryName raw =>
      if endsWith entryName ".md" then
        match raw with
        | Some text => [command_of_file scope subdir entryName text]
        | None => []
        end
      else []
  | OtherEntry _ => []
  end.

(** [loadCommandsFromDir]; [None] is a directory that does not exist or
    cannot be listed. *)
Definition loadCommandsFromDir (dir : option (list Dirent)) (scope : Source) (subdir : string)
  : list FileSlashCommand :=
  match dir with
  | Some es => flat_map (load_entry scope subdir) es
  | None => []
  end.

(** [loadSlashCommands], given the two directories. *)
Definition loadSlashCommands (userDir projectDir : option (list Dirent)) : list FileSlashCommand :=
  (loadCommandsFromDir userDir user "" ++ loadCommandsFromDir projectDir project "")%list.

(** ** Vocabulary for the statements on the loader *)

(** Under the entries [es], behind the directories [dirs], there is a
    regular file [entryName] whose content [raw] can be read. *)
Inductive file_at : list Dirent -> list string -> string -> string -> Prop :=
| file_here es entryName raw :
    In (FileEntry entryName (Some raw)) es -> file_at es [] entryName raw
| file_below es d es' dirs entryName raw :
    In (DirEntry d (Some es')) es -> file_at es' dirs entryName raw ->
    file_at es (d :: dirs) entryName raw.

(** The [subdir] with which the loader reaches the directories [dirs]
    from [subdir]. *)
Definition subdir_of (subdir : string) (dirs : list string) : string :=
  fold_left newSubdir dirs subdir.

(** Every code unit of [s] is a word character. *)
Fixpoint all_word (s : string) : bool :=
  match s with
  | EmptyString => true
  | String c rest => is_word c && all_word rest
  end.

(** A header line [key: value] as one writes it: the key is a word, the
    value holds no line terminator and no white space at its ends. *)
Definition header_ok (kv : string * string) : Prop :=
  fst kv <> "" /\ all_word (fst kv) = true /\
  no_line_terminator (snd kv) = true /\ trim (snd kv) = snd kv.

Definition header_line (kv : string * string) : string := fst kv ++ ": " ++ snd kv.

(** A command file with the header lines [lines] between two markers. *)
Definition with_header (lines : list (string * string)) (rest : string) : string :=
  "---" ++ String "010" (join_with (String "010" "") (map header_line lines))
        ++ String "010" "---" ++ rest.

(** The same file with CRLF line ends: every header line, and the opening
    marker, ends with a carriage return before its line feed. *)
Definition with_header_crlf (lines : list (string * string)) (rest : string) : string :=
  "---" ++ String "013" (String "010"
     (join_with (String "010" "") (map (fun kv => header_line kv ++ String "013" "") lines)))
        ++ String "010" "---" ++ rest.

(** The label of the commands found behind the directories [dirs], as the
    documentation of the loader writes it. *)
Definition label_of (scope : Source) (dirs : list string) : string :=
  match scope, dirs with
  | user, [] => "(user)"
  | user, _ => "(user:" ++ join_with ":" dirs ++ ")"
  | project, [] => "(project)"
  | project, _ => "(project:" ++ join_with ":" dirs ++ ")"
  end.

(** ** Invariants used in the proofs *)

(** No code unit of [s] is a line feed. *)
Fixpoint no_newline (s : string) : bool :=
  match s with
  | EmptyString => true
  | String c rest => negb (is_char c "010") && no_newline rest
  end.

(** No line feed of [s] has a [-] behind it. *)
Fixpoint no_marker (s : string) : bool :=
  match s with
  | EmptyString => true
  | String c rest =>
      (if is_char c "010"
       then match rest with
            | String d _ => negb (is_char d "-")
            | EmptyString => true
            end
       else true)
      && no_marker rest
  end.

(** A line of a header block: it holds no line feed and begins with a code
    unit that is no [-]. *)
Definition block_line (l : string) : Prop :=
  no_newline l = true /\ exists c r, l = String c r /\ is_char c "-" = false.

(** A directory tree for the examples. *)
Definition example_dir : list Dirent :=
  [ FileEntry "fix.md" (Some (with_header [("description", "Fix a bug")]
                                (String "010" "Fix $1")));
    FileEntry "notes.txt" (Some "no command");
    DirEntry "frontend"
      (Some [ FileEntry "lint.md" (Some "Run the linter on $@");
              DirEntry "deep" (Some [ FileEntry "x.md" None ]) ]);
    OtherEntry "link.md" ].

(** ** Vocabulary for the statements on the argument parser *)

(** No code unit of [w] is a quote, a space or a tab: [parseCommandArgs]
    copies each of them. *)
Fixpoint plain (w : string) : bool :=
  match w with
  | EmptyString => true
  | String c rest =>
      negb (is_char c dquote || is_char c "'" || is_char c " " || is_char c "009")
      && plain rest
  end.

(** No code unit of [w] is the quote [q]. *)
Fixpoint free_of (q : ascii) (w : string) : bool :=
  match w with
  | EmptyString => true
  | String c rest => negb (is_char c q) && free_of q rest
  end.

(** [w] between two quotes [q]. *)
Definition quoted (q : ascii) (w : string) : string :=
  String q (w ++ String q EmptyString).

End SlashCommands.

(* ===================================================================== *)
(** * src/acp/translate/prompt.ts and src/acp/translate/pi-tools.ts      *)
(* ===================================================================== *)

Module Translate.
Import JS.

(** [PiAttachment]; the optional [extractedText] and [preview] are never
    set by the bridge. *)
Inductive AttachmentType : Type := image | document.

Record PiAttachment : Type := {
  id : string;
  type : AttachmentType;
  fileName : string;
  mimeType : string;
  size : nat;
  content : string
}.

(** [ContentBlock] of the protocol SDK, with the fields the translator
    reads.  [Resource] carries its [resource] member as a dynamic value, as
    the code reads it through [any]. *)
Inductive ContentBlock : Type :=
| Text (text : string)
| ResourceLink (uri : string)
| Image (data : string) (mime : string) (uri : option string)
| Resource (resource : option value)
| Audio (data : string) (mime : string)
| OtherBlock.

(** [guessFileNameFromMime] *)
Definition guessFileNameFromMime (mimeType : string) : string :=
  let ext :=
    if String.eqb mimeType "image/png" then "png"
    else if String.eqb mimeType "image/jpeg" then "jpg"
    else if String.eqb mimeType "image/webp" then "webp"
    else "bin" in
  "attachment." ++ ext.

(** [str.charCodeAt(i) === 0x3D] *)
Definition is_pad_at (str : string) (i : nat) : bool :=
  match String.get i str with
  | Some c => Ascii.eqb c "="
  | None => false
  end.

(** [Buffer.byteLength(str, 'base64')] as Node computes it (lib/buffer.js,
    [base64ByteLength]): from the length of [str] and its last two code
    units, without decoding. *)
Definition byteLength_base64 (str : string) : nat :=
  let bytes := String.length str in
  let bytes := if is_pad_at str (bytes - 1) then bytes - 1 else bytes in
  let bytes := if Nat.ltb 1 bytes && is_pad_at str (bytes - 1) then bytes - 1 else bytes in
  (bytes * 3) / 4.

Definition string_of_nat (n : nat) : string := NilZero.string_of_uint (Nat.to_uint n).

(** What [promptToPiMessage] returns. *)
Record PiMessage : Type := {
  message : string;
  attachments : list PiAttachment
}.

Section Host.

(** [crypto.randomUUID()]: the value of the n-th draw. *)
Variable randomUUID : nat -> string.

(** One turn of the [for] loop of [promptToPiMessage]; [draws] counts the
    identifiers drawn so far. *)
Definition promptToPiMessage_step (acc : PiMessage * nat) (b : ContentBlock) : PiMessage * nat :=
  let '(m, draws) := acc in
  match b with
  | Text text =>
      ({| message := message m ++ text; attachments := attachments m |}, draws)
  | ResourceLink uri =>
      ({| message := message m ++ String "010" "[Context] " ++ uri;
          attachments := attachments m |}, draws)
  | Image data mime uri =>
      let '(id, draws') :=
        match uri with
        | Some u => (u, draws)
        | None => (randomUUID draws, S draws)
        end in
      let size := byteLength_base64 data in
      ({| message := message m;
          attachments := attachments m ++
            [ {| id := id; type := image; fileName := guessFileNameFromMime mime;
                 mimeType := mime; size := size; content := data |} ] |}, draws')
  | Resource r =>
      let uri := match as_string (get_opt r "uri") with Some u => u | None => "(unknown)" end in
      let line :=
        match as_string (get_opt r "text") with
        | Some text =>
            let mime := match as_string (get_opt r "mimeType") with
                        | Some t => t | None => "text/plain" end in
            String "010" "[Embedded Context] " ++ uri ++ " (" ++ mime ++ ")" ++ String "010" text
        | None =>
            match as_string (get_opt r "blob") with
            | Some blob =>
                let mime := match as_string (get_opt r "mimeType") with
                            | Some t => t | None => "application/octet-stream" end in
                let bytes := byteLength_base64 blob in
                String "010" "[Embedded Context] " ++ uri ++ " (" ++ mime ++ ", "
                  ++ string_of_nat bytes ++ " bytes)"
            | None => String "010" "[Embedded Context] " ++ uri
            end
        end in
      ({| message := message m ++ line; attachments := attachments m |}, draws)
  | Audio data mime =>
      let bytes := byteLength_base64 data in
      ({| message := message m ++ String "010" "[Audio] (" ++ mime ++ ", "
                       ++ string_of_nat bytes ++ " bytes) not supported by pi-acp";
          attachments := attachments m |}, draws)
  | OtherBlock => (m, draws)
  end.

(** [promptToPiMessage], with the count of identifiers drawn before and
    after. *)
Definition promptToPiMessage (draws : nat) (blocks : list ContentBlock) : PiMessage * nat :=
  fold_left promptToPiMessage_step blocks ({| message := ""; attachments := [] |}, draws).

(** [JSON.stringify(result, null, 2)] *)
Variable JSON_stringify : value -> string.

(** The text of one content part: [c?.type === 'text' && typeof c.text ===
    'string' ? c.text : ''] *)
Definition part_text (c : value) : string :=
  match get_opt (Some c) "type", as_string (get_opt (Some c) "text") with
  | Some (VStr t), Some text => if String.eqb t "text" then text else ""
  | _, _ => ""
  end.

(** [toolResultToText]; [None] is [undefined]. *)
Definition toolResultToText (result : option value) : string :=
  match result with
  | None => ""
  | Some r =>
      if negb (truthy result) then ""
      else
        let texts :=
          match get_opt result "content" with
          | Some (VArr items) => List.filter truthy_string (map part_text items)
          | _ => []
          end in
        match texts with
        | _ :: _ => String.concat "" texts
        | [] =>
            match as_string (get_opt (get_opt result "details") "diff") with
            | Some diff => if trim_nonempty diff then diff else JSON_stringify r
            | None => JSON_stringify r
            end
        end
  end.

End Host.

(** ** RFC 4648 base64, to say what the decoded length of a payload is *)

Definition base64_alphabet : string :=
  "ABCDEFGHIJKLMNOPQRSTUVWXYZabcdefghijklmnopqrstuvwxyz0123456789+/".

(** The code unit for a six-bit group. *)
Definition base64_char (sextet : nat) : ascii :=
  match String.get (sextet mod 64) base64_alphabet with
  | Some c => c
  | None => "A"
  end.

(** The base64 text of a sequence of bytes, padded with [=]. *)
Fixpoint base64_encode (bytes : list ascii) : string :=
  match bytes with
  | [] => ""
  | [a] =>
      let n := nat_of_ascii a in
      String (base64_char (n / 4)) (String (base64_char ((n mod 4) * 16)) "==")
  | [a; b] =>
      let n := nat_of_ascii a in
      let m := nat_of_ascii b in
      String (base64_char (n / 4))
        (String (base64_char ((n mod 4) * 16 + m / 16))
           (String (base64_char ((m mod 16) * 4)) "="))
  | a :: b :: c :: rest =>
      let n := nat_of_ascii a in
      let m := nat_of_ascii b in
      let k := nat_of_ascii c in
      String (base64_char (n / 4))
        (String (base64_char ((n mod 4) * 16 + m / 16))
           (String (base64_char ((m mod 16) * 4 + k / 64))
              (String (base64_char (k mod 64)) (base64_encode rest))))
  end.

(** The six-bit group a code unit of the alphabet stands for; [-] and [_]
    of the URL-safe alphabet stand for the groups of [+] and [/]. *)
Definition base64_value (c : ascii) : option nat :=
  if Ascii.eqb c "-" then Some 62
  else if Ascii.eqb c "_" then Some 63
  else
    (fix find (alphabet : string) (i : nat) : option nat :=
       match alphabet with
       | EmptyString => None
       | String d rest => if Ascii.eqb c d then Some i else find rest (S i)
       end) base64_alphabet 0.

(** The six-bit groups of a base64 text, as a decoder that accepts wrapped
    text reads it ([Buffer.from(str, 'base64')] among them): the text ends
    at the first [=], and code units outside the alphabet, such as line
    breaks and other white space, are skipped. *)
Fixpoint base64_sextets (str : string) : list nat :=
  match str with
  | EmptyString => []
  | String c rest =>
      if Ascii.eqb c "=" then []
      else match base64_value c with
           | Some v => v :: base64_sextets rest
           | None => base64_sextets rest
           end
  end.

(** The bytes that groups of six bits make, four groups giving three
    bytes. *)
Fixpoint bytes_of_sextets (l : list nat) : list ascii :=
  match l with
  | a :: b :: c :: d :: rest =>
      ascii_of_nat (a * 4 + b / 16) :: ascii_of_nat ((b mod 16) * 16 + c / 4)
        :: ascii_of_nat ((c mod 4) * 64 + d) :: bytes_of_sextets rest
  | [a; b; c] => [ascii_of_nat (a * 4 + b / 16); ascii_of_nat ((b mod 16) * 16 + c / 4)]
  | [a; b] => [ascii_of_nat (a * 4 + b / 16)]
  | _ => []
  end.

(** The bytes a base64 payload decodes to: the decoded byte length of the
    payload is the length of this list. *)
Definition base64_decode (str : string) : list ascii :=
  bytes_of_sextets (base64_sextets str).

(** ** Vocabulary for the statements *)

(** The base64 text [AQID] of the bytes 1, 2, 3, wrapped in lines of two
    code units. *)
Definition wrapped_payload : string :=
  "AQ" ++ String "010" ("ID" ++ String "010" "").

(** The payload and media type of the image blocks among [blocks], in
    order. *)
Definition images (blocks : list ContentBlock) : list (string * string) :=
  flat_map (fun b => match b with Image data mime _ => [(data, mime)] | _ => [] end) blocks.

(** The blocks that are no image blocks. *)
Definition without_images (blocks : list ContentBlock) : list ContentBlock :=
  List.filter (fun b => match b with Image _ _ _ => false | _ => true end) blocks.

(** The image blocks that carry no [uri]: each draws an identifier. *)
Definition anonymous_images (blocks : list ContentBlock) : nat :=
  length (List.filter (fun b => match b with Image _ _ None => true | _ => false end) blocks).

(** A content part [{type: 'text', text}] and one of another type. *)
Definition text_part (text : string) : value :=
  VObj [("type", VStr "text"); ("text", VStr text)].

Definition image_part : value :=
  VObj [("type", VStr "image"); ("data", VStr "AQID")].

End Translate.

(* ===================================================================== *)
(** * src/acp/session.ts: [PiAcpSession]                                  *)
(* ===================================================================== *)

Module Session.
Import JS.
Import SlashCommands.
Import Translate.

Inductive StopReason : Type := end_turn | cancelled | error.

Inductive ToolKind : Type := kind_read | kind_edit | kind_execute | kind_other.

Inductive ToolCallStatus : Type := pending | in_progress | completed | failed.

(** The [SessionUpdate] objects the session builds.  [content], when
    present, is the one-element list
    [[{type: 'content', content: {type: 'text', text}}]], kept as its
    [text]; [None] is [undefined] or an absent member. *)
Inductive SessionUpdate : Type :=
| agent_message_chunk (text : string)
| tool_call (toolCallId : string) (title : string) (kind : ToolKind)
    (status : ToolCallStatus) (rawInput : option value)
| tool_call_update (toolCallId : string) (status : ToolCallStatus)
    (content : option string) (rawOutput : option value).

(** [toToolKind] *)
Definition toToolKind (toolName : string) : ToolKind :=
  if String.eqb toolName "read" then kind_read
  else if String.eqb toolName "write" then kind_edit
  else if String.eqb toolName "edit" then kind_edit
  else if String.eqb toolName "bash" then kind_execute
  else kind_other.

(** Which of the two [flushEmits().finally(...)] continuations is waiting:
    the one of the [turn_end] case or the one of the [catch] on
    [proc.prompt]. *)
Inductive terminal : Type := at_turn_end | at_prompt_failure.

(** The mutable fields of a [PiAcpSession].

    [pendingTurn] holds the [resolve] and [reject] of the promise that one
    call of [prompt] created; the promise is named by its rank among the
    promises created.

    The promise chain [lastEmit] is kept as what it stands for: [inFlight] is
    the update whose [conn.sessionUpdate] call has been made and has not
    settled, [queued] are the updates chained behind it, oldest first.

    [flushes] are the continuations registered by [flushEmits().finally],
    oldest first: each awaits the value [lastEmit] had when it was
    registered and is kept with the number of updates that were still to
    settle then. *)
Record PiAcpSession : Type := {
  sessionId : string;
  fileCommands : list FileSlashCommand;
  cancelRequested : bool;
  pendingTurn : option nat;
  currentToolCalls : gset string;
  inFlight : option SessionUpdate;
  queued : list SessionUpdate;
  flushes : list (nat * terminal);
  turns : nat;
  draws : nat
}.

Definition with_cancelRequested (b : bool) (s : PiAcpSession) : PiAcpSession :=
  {| sessionId := sessionId s; fileCommands := fileCommands s; cancelRequested := b;
     pendingTurn := pendingTurn s; currentToolCalls := currentToolCalls s;
     inFlight := inFlight s; queued := queued s; flushes := flushes s;
     turns := turns s; draws := draws s |}.

Definition with_pendingTurn (t : option nat) (s : PiAcpSession) : PiAcpSession :=
  {| sessionId := sessionId s; fileCommands := fileCommands s;
     cancelRequested := cancelRequested s;
     pendingTurn := t; currentToolCalls := currentToolCalls s;
     inFlight := inFlight s; queued := queued s; flushes := flushes s;
     turns := turns s; draws := draws s |}.

Definition with_currentToolCalls (c : gset string) (s : PiAcpSession) : PiAcpSession :=
  {| sessionId := sessionId s; fileCommands := fileCommands s;
     cancelRequested := cancelRequested s;
     pendingTurn := pendingTurn s; currentToolCalls := c;
     inFlight := inFlight s; queued := queued s; flushes := flushes s;
     turns := turns s; draws := draws s |}.

Definition with_chain (i : option SessionUpdate) (q : list SessionUpdate)
    (s : PiAcpSession) : PiAcpSession :=
  {| sessionId := sessionId s; fileCommands := fileCommands s;
     cancelRequested := cancelRequested s;
     pendingTurn := pendingTurn s; currentToolCalls := currentToolCalls s;
     inFlight := i; queued := q; flushes := flushes s;
     turns := turns s; draws := draws s |}.

Definition with_flushes (f : list (nat * terminal)) (s : PiAcpSession) : PiAcpSession :=
  {| sessionId := sessionId s; fileCommands := fileCommands s;
     cancelRequested := cancelRequested s;
     pendingTurn := pendingTurn s; currentToolCalls := currentToolCalls s;
     inFlight := inFlight s; queued := queued s; flushes := f;
     turns := turns s; draws := draws s |}.

Definition with_turns (n : nat) (s : PiAcpSession) : PiAcpSession :=
  {| sessionId := sessionId s; fileCommands := fileCommands s;
     cancelRequested := cancelRequested s;
     pendingTurn := pendingTurn s; currentToolCalls := currentToolCalls s;
     inFlight := inFlight s; queued := queued s; flushes := flushes s;
     turns := n; draws := draws s |}.

Definition with_draws (n : nat) (s : PiAcpSession) : PiAcpSession :=
  {| sessionId := sessionId s; fileCommands := fileCommands s;
     cancelRequested := cancelRequested s;
     pendingTurn := pendingTurn s; currentToolCalls := currentToolCalls s;
     inFlight := inFlight s; queued := queued s; flushes := flushes s;
     turns := turns s; draws := n |}.

(** The constructor: the initial values of the fields. *)
Definition new_session (id : string) (cmds : list FileSlashCommand) : PiAcpSession :=
  {| sessionId := id; fileCommands := cmds; cancelRequested := false;
     pendingTurn := None; currentToolCalls := ∅;
     inFlight := None; queued := []; flushes := [];
     turns := 0; draws := 0 |}.

(** What the session does to the outside, in the order it does it. *)
Inductive effect : Type :=
| SessionUpdateCall (sessionId : string) (update : SessionUpdate)
    (** [conn.sessionUpdate({sessionId, update})] is called *)
| PromptRequest (message : string) (attachments : list PiAttachment)
    (** [proc.prompt(expandedMessage, attachments)] is called *)
| AbortRequest
    (** [proc.abort()] is called *)
| TurnResolved (turn : nat) (reason : StopReason)
    (** [pendingTurn.resolve(reason)] is called *)
| TurnRejected (turn : nat)
    (** [pendingTurn.reject(err)] is called *)
| Uncaught (e : string).
    (** an exception leaves the event listener *)

(** What a call of [prompt] gives back: the promise of the turn, or a
    rejection with [RequestError.invalidRequest]. *)
Inductive prompt_result : Type :=
| turn_promise (turn : nat)
| invalid_request (msg : string).

(** Updates that have been handed to [emit] and have not settled. *)
Definition outstanding (s : PiAcpSession) : nat :=
  match inFlight s with
  | Some _ => S (length (queued s))
  | None => length (queued s)
  end.

(** [emit]: chain one more delivery behind [lastEmit]. *)
Definition emit (update : SessionUpdate) (s : PiAcpSession) : PiAcpSession :=
  with_chain (inFlight s) (queued s ++ [update])%list s.

(** [void this.flushEmits().finally(() => ...)]: await the present
    [lastEmit], then run the continuation. *)
Definition flushEmits_finally (k : terminal) (s : PiAcpSession) : PiAcpSession :=
  with_flushes (flushes s ++ [(outstanding s, k)])%list s.

(** The body of the two [finally] continuations. *)
Definition resolve_turn (k : terminal) (s : PiAcpSession) : PiAcpSession * list effect :=
  let reason :=
    if cancelRequested s then cancelled
    else match k with
         | at_turn_end => end_turn
         | at_prompt_failure => error
         end in
  (with_pendingTurn None s,
   match pendingTurn s with
   | Some t => [TurnResolved t reason]
   | None => []
   end).

Section Host.

Variable randomUUID : nat -> string.
Variable JSON_stringify : value -> string.

(** [prompt] *)
Definition prompt (message : string) (attachments : list PiAttachment) (s : PiAcpSession)
  : PiAcpSession * list effect * prompt_result :=
  match pendingTurn s with
  | Some _ => (s, [], invalid_request "A prompt is already in progress")
  | None =>
      let s := with_cancelRequested false s in
      let expandedMessage := expandSlashCommand message (fileCommands s) in
      let turn := turns s in
      let s := with_turns (S turn) (with_pendingTurn (Some turn) s) in
      (s, [PromptRequest expandedMessage attachments], turn_promise turn)
  end.

(** The [catch] attached to [proc.prompt(...)] in [prompt]. *)
Definition on_prompt_failure (s : PiAcpSession) : PiAcpSession :=
  flushEmits_finally at_prompt_failure s.

(** [cancel] *)
Definition cancel (s : PiAcpSession) : PiAcpSession * list effect :=
  (with_cancelRequested true s, [AbortRequest]).

(** [wasCancelRequested] *)
Definition wasCancelRequested (s : PiAcpSession) : bool := cancelRequested s.

(** [text ? [{type: 'content', content: {type: 'text', text}}] : undefined] *)
Definition content_of (text : string) : option string :=
  if truthy_string text then Some text else None.

(** [String(v ?? d)] *)
Definition String_or (v : option value) (d : string) : res string :=
  nullish v (Ok d) to_String.

(** [handlePiEvent]: the session as the listener leaves it, and the
    exception that leaves the listener when a conversion throws. *)
Definition handlePiEvent (ev : value) (s : PiAcpSession) : PiAcpSession * list effect :=
  match (let* ty := get ev "type" in String_or ty "") with
  | Throw e => (s, [Uncaught e])
  | Ok type =>
      if String.eqb type "message_update" then
        let ame := get_opt (Some ev) "assistantMessageEvent" in
        match get_opt ame "type", as_string (get_opt ame "delta") with
        | Some (VStr t), Some delta =>
            if String.eqb t "text_delta" then (emit (agent_message_chunk delta) s, [])
            else (s, [])
        | _, _ => (s, [])
        end
      else if String.eqb type "tool_execution_start" then
        let '(toolCallId, s) :=
          match get_opt (Some ev) "toolCallId" with
          | None | Some VNull => (Ok (randomUUID (draws s)), with_draws (S (draws s)) s)
          | Some v => (to_String v, s)
          end in
        match (let* toolCallId := toolCallId in
               let* toolName := String_or (get_opt (Some ev) "toolName") "tool" in
               Ok (toolCallId, toolName)) with
        | Throw e => (s, [Uncaught e])
        | Ok (toolCallId, toolName) =>
            let args := get_opt (Some ev) "args" in
            let s := with_currentToolCalls ({[ toolCallId ]} ∪ currentToolCalls s) s in
            let s := emit (tool_call toolCallId toolName (toToolKind toolName) pending args) s in
            let s := emit (tool_call_update toolCallId in_progress None None) s in
            (s, [])
        end
      else if String.eqb type "tool_execution_update" then
        match String_or (get_opt (Some ev) "toolCallId") "" with
        | Throw e => (s, [Uncaught e])
        | Ok toolCallId =>
            if negb (truthy_string toolCallId) then (s, [])
            else
              let partial := get_opt (Some ev) "partialResult" in
              let text := toolResultToText JSON_stringify partial in
              (emit (tool_call_update toolCallId in_progress (content_of text) partial) s, [])
        end
      else if String.eqb type "tool_execution_end" then
        match String_or (get_opt (Some ev) "toolCallId") "" with
        | Throw e => (s, [Uncaught e])
        | Ok toolCallId =>
            if negb (truthy_string toolCallId) then (s, [])
            else
              let result := get_opt (Some ev) "result" in
              let isError := truthy (get_opt (Some ev) "isError") in
              let text := toolResultToText JSON_stringify result in
              let s := emit (tool_call_update toolCallId (if isError then failed else completed)
                               (content_of text) result) s in
              (with_currentToolCalls (currentToolCalls s ∖ {[ toolCallId ]}) s, [])
        end
      else if String.eqb type "turn_end" then
        (flushEmits_finally at_turn_end s, [])
      else (s, [])
  end.

(** ** The event loop around the session

    What can happen to a session.  Each is one task of the Node event loop:
    its synchronous code runs first, then the promise jobs that are ready
    run until none is left ([run_jobs]).  The promise of a
    [conn.sessionUpdate] call settles in a task of its own
    ([UpdateSettled]); for a connection that settles it at once, that task
    is the next one. *)
Inductive stimulus : Type :=
| CallPrompt (message : string) (attachments : list PiAttachment)
    (** the agent calls [session.prompt] *)
| CallCancel
    (** the agent calls [session.cancel] *)
| PiEvent (ev : value)
    (** the transport hands an event to the listener the constructor
        registered, [ev => this.handlePiEvent(ev)] *)
| PromptFailed
    (** the promise of [proc.prompt] rejects *)
| UpdateSettled (ok : bool).
    (** the promise of the [conn.sessionUpdate] call in flight fulfils
        ([true]) or rejects ([false]); the [catch] of [emit] makes both
        settle the chain *)

(** The continuation of [lastEmit.then(...)]: when nothing is in flight,
    the oldest queued update is sent. *)
Definition start_delivery (s : PiAcpSession) : PiAcpSession * list effect :=
  match inFlight s, queued s with
  | None, u :: rest => (with_chain (Some u) rest s, [SessionUpdateCall (sessionId s) u])
  | _, _ => (s, [])
  end.

(** The continuations whose awaited [lastEmit] has settled run, oldest
    first; the others stay. *)
Fixpoint run_flushes (fs : list (nat * terminal)) (s : PiAcpSession)
  : PiAcpSession * list effect :=
  match fs with
  | [] => (with_flushes [] s, [])
  | (O, k) :: rest =>
      let '(s1, e1) := resolve_turn k s in
      let '(s2, e2) := run_flushes rest s1 in
      (s2, (e1 ++ e2)%list)
  | f :: rest =>
      let '(s1, e1) := run_flushes rest s in
      (with_flushes (f :: flushes s1) s1, e1)
  end.

(** The promise jobs that run once the task is over. *)
Definition run_jobs (s : PiAcpSession) : PiAcpSession * list effect :=
  let '(s1, e1) := start_delivery s in
  let '(s2, e2) := run_flushes (flushes s1) s1 in
  (s2, (e1 ++ e2)%list).

(** The settlement of the update in flight: every continuation waits for
    one update less. *)
Definition settle (s : PiAcpSession) : PiAcpSession :=
  match inFlight s with
  | Some _ =>
      with_flushes (map (fun f => (Nat.pred (fst f), snd f)) (flushes s))
        (with_chain None (queued s) s)
  | None => s
  end.

(** The synchronous part of a task. *)
Definition sync_part (s : PiAcpSession) (x : stimulus) : PiAcpSession * list effect :=
  match x with
  | CallPrompt message attachments =>
      let '(s1, e1, _) := prompt message attachments s in (s1, e1)
  | CallCancel => cancel s
  | PiEvent ev => handlePiEvent ev s
  | PromptFailed => (on_prompt_failure s, [])
  | UpdateSettled _ => (settle s, [])
  end.

(** One task: the synchronous part, then the promise jobs. *)
Definition react (s : PiAcpSession) (x : stimulus) : PiAcpSession * list effect :=
  let '(s1, e1) := sync_part s x in
  let '(s2, e2) := run_jobs s1 in
  (s2, (e1 ++ e2)%list).

(** A sequence of tasks. *)
Fixpoint run (s : PiAcpSession) (xs : list stimulus) : PiAcpSession * list effect :=
  match xs with
  | [] => (s, [])
  | x :: rest =>
      let '(s1, e1) := react s x in
      let '(s2, e2) := run s1 rest in
      (s2, (e1 ++ e2)%list)
  end.

End Host.

(** ** Vocabulary for the statements *)

(** [ev] is a [message_update] event whose [assistantMessageEvent] is a
    [text_delta] carrying the string [delta]. *)
Definition text_delta_event (ev : value) (delta : string) : Prop :=
  exists fields ame,
    ev = VObj fields /\
    lookup_field "type" fields = Some (VStr "message_update") /\
    lookup_field "assistantMessageEvent" fields = Some (VObj ame) /\
    lookup_field "type" ame = Some (VStr "text_delta") /\
    lookup_field "delta" ame = Some (VStr delta).

(** [xs] is a sequence of text-delta events, carrying [deltas] in this
    order, among which updates in flight settle. *)
Inductive delta_feed : list stimulus -> list string -> Prop :=
| feed_nil : delta_feed [] []
| feed_delta ev d xs ds :
    text_delta_event ev d -> delta_feed xs ds ->
    delta_feed (PiEvent ev :: xs) (d :: ds)
| feed_settled ok xs ds :
    delta_feed xs ds -> delta_feed (UpdateSettled ok :: xs) ds.

(** An event object with a [type] member equal to the string [ty]. *)
Definition event_of_type (ev : value) (ty : string) : Prop :=
  exists fields, ev = VObj fields /\ lookup_field "type" fields = Some (VStr ty).

(** [ev.toolCallId] is absent or [null]. *)
Definition toolCallId_missing (ev : value) : Prop :=
  get_opt (Some ev) "toolCallId" = None \/ get_opt (Some ev) "toolCallId" = Some VNull.

(** The turn resolutions among some effects. *)
Definition resolutions (es : list effect) : list (nat * StopReason) :=
  flat_map (fun e => match e with TurnResolved t r => [(t, r)] | _ => [] end) es.

(** The updates for which [conn.sessionUpdate] is called among some
    effects. *)
Definition updates_sent (es : list effect) : list SessionUpdate :=
  flat_map (fun e => match e with SessionUpdateCall _ u => [u] | _ => [] end) es.

(** [conn.sessionUpdate] called for each of [us], in this order. *)
Definition calls (sid : string) (us : list SessionUpdate) : list effect :=
  map (SessionUpdateCall sid) us.

(** The effect is no rejection of a turn. *)
Definition never_rejects (e : effect) : Prop :=
  match e with TurnRejected _ => False | _ => True end.

(** The effect is no resolution of a turn to [cancelled]. *)
Definition not_cancelled (e : effect) : Prop :=
  match e with TurnResolved _ cancelled => False | _ => True end.

(** The reason a continuation of kind [k] gives in the session [s]. *)
Definition reason_of (k : terminal) (s : PiAcpSession) : StopReason :=
  if cancelRequested s then cancelled
  else match k with at_turn_end => end_turn | at_prompt_failure => error end.

(** ** Invariants used in the proofs *)

(** The two sessions agree on their id, their open turn and their
    cancellation flag. *)
Definition same_turn (s s' : PiAcpSession) : Prop :=
  sessionId s' = sessionId s /\ pendingTurn s' = pendingTurn s /\
  cancelRequested s' = cancelRequested s.

(** As the promise jobs leave the chain: an update is queued only behind
    one in flight. *)
Definition normal_chain (s : PiAcpSession) : Prop :=
  inFlight s = None -> queued s = [].

(** Where a session stands once a continuation was registered for the open
    turn [t] in [s0]: the turn is resolved and the chain is empty, *)
Definition resolved_by (k : terminal) (t : nat) (s0 s1 : PiAcpSession) (e1 : list effect)
  : Prop :=
  pendingTurn s1 = None /\ flushes s1 = [] /\ inFlight s1 = None /\ queued s1 = [] /\
  queued s0 = [] /\ e1 = [TurnResolved t (reason_of k s0)].

(** or the continuation waits for exactly the updates outstanding. *)
Definition waiting_for (k : terminal) (t : nat) (s0 s1 : PiAcpSession) (e1 : list effect)
  : Prop :=
  pendingTurn s1 = Some t /\ flushes s1 = [(outstanding s1, k)] /\
  0 < outstanding s1 /\ normal_chain s1 /\
  exists sent, e1 = calls (sessionId s0) sent /\ (sent ++ queued s1)%list = queued s0.

(** ** Fixtures of the examples *)

Definition test_uuid (n : nat) : string := "uuid-" ++ string_of_nat n.
Definition test_stringify (v : value) : string := "{}".

Definition text_delta (delta : string) : value :=
  VObj [("type", VStr "message_update");
        ("assistantMessageEvent", VObj [("type", VStr "text_delta"); ("delta", VStr delta)])].

Definition turn_end : value := VObj [("type", VStr "turn_end")].

Definition tool_update (id : string) : value :=
  VObj [("type", VStr "tool_execution_update"); ("toolCallId", VStr id)].

Definition tool_update_without_id : value :=
  VObj [("type", VStr "tool_execution_update"); ("partialResult", VStr "half")].

(** A session that has a turn open and one update in flight. *)
Definition busy_session : PiAcpSession :=
  fst (run test_uuid test_stringify (new_session "s1" hello_cmds)
         [CallPrompt "/hello world" []; PiEvent (text_delta "a")]).

(** A session on which a second [turn_end] of the previous prompt was
    observed while an update was in flight and no turn was open, and on
    which [prompt] was then called: the continuation of that [turn_end] is
    still waiting. *)
Definition session_with_stale_turn_end : PiAcpSession :=
  fst (run test_uuid test_stringify (new_session "s1" hello_cmds)
         [CallPrompt "first" []; PiEvent (text_delta "a"); PiEvent turn_end;
          UpdateSettled true;
          PiEvent (text_delta "b"); PiEvent turn_end;
          CallPrompt "second" []]).

(** A session on which the request of the previous prompt failed after its
    turn had ended, while an update was in flight, and on which [prompt]
    was then called and a text delta observed: the continuation of that
    failure is still waiting. *)
Definition session_with_stale_failure : PiAcpSession :=
  fst (run test_uuid test_stringify (new_session "s1" hello_cmds)
         [CallPrompt "first" []; PiEvent (text_delta "a"); PiEvent turn_end;
          UpdateSettled true;
          PiEvent (text_delta "b"); PromptFailed;
          CallPrompt "second" []; PiEvent (text_delta "c")]).

(** ** Vocabulary for the statements on whole runs *)

(** The open turn, if there is one, is among the turns [prompt] opened. *)
Definition turn_known (s : PiAcpSession) : Prop :=
  match pendingTurn s with
  | Some t => t < turns s
  | None => True
  end.

(** The turn [t] can still be resolved: it is open, or not yet opened. *)
Definition resolvable (s : PiAcpSession) (t : nat) : Prop :=
  pendingTurn s = Some t \/ turns s <= t.

(** The turns resolved among some effects. *)
Definition resolved_turns (es : list effect) : list nat := map fst (resolutions es).

(** The settlements among some tasks. *)
Definition settlements (xs : list stimulus) : nat :=
  length (List.filter (fun x => match x with UpdateSettled _ => true | _ => false end) xs).

(** The number of [conn.sessionUpdate] calls in flight: none or one. *)
Definition in_flight (s : PiAcpSession) : nat :=
  match inFlight s with
  | Some _ => 1
  | None => 0
  end.

(** A call of [conn.sessionUpdate] among the effects names the session
    [sid]. *)
Definition calls_for (sid : string) (e : effect) : Prop :=
  match e with
  | SessionUpdateCall sid' _ => sid' = sid
  | _ => True
  end.

(** [String((ev as any).type ?? '')] *)
Definition event_type (ev : value) : res string :=
  let* ty := get ev "type" in String_or ty "".

(** [String(v)] returns: no object with an own [toString] member has to be
    rendered, in [v] or in the arrays of [v]. *)
Fixpoint renders (v : value) : bool :=
  match v with
  | VArr items =>
      (fix each (l : list value) : bool :=
         match l with
         | [] => true
         | x :: rest => renders x && each rest
         end) items
  | VObj fields =>
      match lookup_field "toString" fields with
      | Some _ => false
      | None => true
      end
  | _ => true
  end.

(** The member is there, is not [null], and [String] cannot render it. *)
Definition unrendered (v : option value) : bool :=
  nullish v false (fun x => negb (renders x)).

(** The event is one for which a conversion by [String] fails in the
    listener: of its type, or of the members its case converts. *)
Definition listener_throws (ev : value) : bool :=
  match event_type ev with
  | Throw _ => true
  | Ok type =>
      if String.eqb type "tool_execution_start" then
        unrendered (get_opt (Some ev) "toolCallId") || unrendered (get_opt (Some ev) "toolName")
      else if String.eqb type "tool_execution_update" || String.eqb type "tool_execution_end" then
        unrendered (get_opt (Some ev) "toolCallId")
      else false
  end.

(** The event types [handlePiEvent] has a case for. *)
Definition handled_types : list string :=
  ["message_update"; "tool_execution_start"; "tool_execution_update";
   "tool_execution_end"; "turn_end"].

(** An event object of type [ty] whose [toolCallId] is the string [id]. *)
Definition tool_event (ev : value) (ty id : string) : Prop :=
  event_of_type ev ty /\ get_opt (Some ev) "toolCallId" = Some (VStr id).

(** [xs] is a sequence of [tool_execution_update] events for the tool call
    [id], carrying the partial results [partials] in this order, among which
    updates in flight settle. *)
Inductive tool_feed (id : string) : list stimulus -> list (option value) -> Prop :=
| tool_feed_nil : tool_feed id [] []
| tool_feed_update ev xs ps :
    tool_event ev "tool_execution_update" id -> tool_feed id xs ps ->
    tool_feed id (PiEvent ev :: xs) (get_opt (Some ev) "partialResult" :: ps)
| tool_feed_settled ok xs ps :
    tool_feed id xs ps -> tool_feed id (UpdateSettled ok :: xs) ps.

(** The event that ends a turn: the [turn_end] event or the failure of the
    prompt request. *)
Definition terminal_stimulus (x : stimulus) (k : terminal) : Prop :=
  match k with
  | at_turn_end => exists ev, x = PiEvent ev /\ event_of_type ev "turn_end"
  | at_prompt_failure => x = PromptFailed
  end.

Section Notifications.

Variable randomUUID : nat -> string.
Variable JSON_stringify : value -> string.

(** The notifications the event [ev] calls for, when [drawn] identifiers
    were drawn before it: a chunk for a text delta, the two announcements of
    a tool call, one update for a partial or final tool result whose id is
    not empty, and nothing for any other event or when a conversion
    fails. *)
Definition notifications (ev : value) (drawn : nat) : list SessionUpdate :=
  match event_type ev with
  | Throw _ => []
  | Ok type =>
      if String.eqb type "message_update" then
        let ame := get_opt (Some ev) "assistantMessageEvent" in
        match get_opt ame "type", as_string (get_opt ame "delta") with
        | Some (VStr t), Some delta =>
            if String.eqb t "text_delta" then [agent_message_chunk delta] else []
        | _, _ => []
        end
      else if String.eqb type "tool_execution_start" then
        match String_or (get_opt (Some ev) "toolCallId") (randomUUID drawn),
              String_or (get_opt (Some ev) "toolName") "tool" with
        | Ok id, Ok name =>
            [ tool_call id name (toToolKind name) pending (get_opt (Some ev) "args");
              tool_call_update id in_progress None None ]
        | _, _ => []
        end
      else if String.eqb type "tool_execution_update" then
        match String_or (get_opt (Some ev) "toolCallId") "" with
        | Ok (String c id) =>
            let partial := get_opt (Some ev) "partialResult" in
            [ tool_call_update (String c id) in_progress
                (content_of (toolResultToText JSON_stringify partial)) partial ]
        | _ => []
        end
      else if String.eqb type "tool_execution_end" then
        match String_or (get_opt (Some ev) "toolCallId") "" with
        | Ok (String c id) =>
            let result := get_opt (Some ev) "result" in
            [ tool_call_update (String c id)
                (if truthy (get_opt (Some ev) "isError") then failed else completed)
                (content_of (toolResultToText JSON_stringify result)) result ]
        | _ => []
        end
      else []
  end.

(** The identifiers the event draws: one for a [tool_execution_start]
    without [toolCallId]. *)
Definition identifiers_drawn (ev : value) : nat :=
  match event_type ev with
  | Ok type =>
      if String.eqb type "tool_execution_start"
      then nullish (get_opt (Some ev) "toolCallId") 1 (fun _ => 0)
      else 0
  | Throw _ => 0
  end.

(** The notifications the pi events among the tasks [xs] call for, in the
    order of the events. *)
Fixpoint emitted (xs : list stimulus) (drawn : nat) : list SessionUpdate :=
  match xs with
  | [] => []
  | PiEvent ev :: rest =>
      notifications ev drawn ++ emitted rest (drawn + identifiers_drawn ev)
  | _ :: rest => emitted rest drawn
  end.

End Notifications.

(** Events whose tool-call id [String] cannot render, or renders as the
    empty text. *)
Definition tool_update_with_id (id : value) : value :=
  VObj [("type", VStr "tool_execution_update"); ("toolCallId", id)].

Definition tool_start (id name : string) : value :=
  VObj [("type", VStr "tool_execution_start"); ("toolCallId", VStr id);
        ("toolName", VStr name); ("args", VObj [("path", VStr "a.ts")])].

(** A tool result with one text part. *)
Definition text_result (text : string) : value :=
  VObj [("content", VArr [VObj [("type", VStr "text"); ("text", VStr text)]])].

Definition tool_update_with (id text : string) : value :=
  VObj [("type", VStr "tool_execution_update"); ("toolCallId", VStr id);
        ("partialResult", text_result text)].

Definition tool_end (id : string) (isError : bool) : value :=
  VObj [("type", VStr "tool_execution_end"); ("toolCallId", VStr id);
        ("result", text_result "done"); ("isError", VBool isError)].

End Session.

(* ===================================================================== *)
(** * src/pi-rpc/process.ts: [PiRpcProcess]                               *)
(* ===================================================================== *)

Module Process.
Import JS.

(** [PiRpcCommand], before [request] adds the [id]. *)
Inductive PiRpcCommand : Type :=
| cmd_prompt (message : string)
| cmd_abort
| cmd_get_state.

(** What a request promise can be rejected with. *)
Inductive failure : Type :=
| process_exited (code : option Z) (signal : option string)
    (** [new Error(`pi process exited (code=..., signal=...)`)] *)
| write_failed (err : string).
    (** the error handed to the callback of [child.stdin.write] *)

Section Host.

(** The registered listeners are told apart by a name of type [Listener];
    calling one is an effect of the transport.  A listener is taken to
    return: one that throws would end the loop over [eventHandlers]. *)
Variable Listener : Type.

(** [JSON.parse(line)]; [None] when it throws. *)
Variable JSON_parse : string -> option value.

(** [crypto.randomUUID()]: the value of the n-th draw. *)
Variable randomUUID : nat -> string.

(** The fields of a [PiRpcProcess].  [pending] is the [Map] from request id
    to the [resolve] and [reject] of the promise [request] returned, in
    insertion order; a promise is named by its rank among the promises
    [request] created. *)
Record PiRpcProcess : Type := {
  pending : list (string * nat);
  eventHandlers : list Listener;
  requests : nat
}.

Inductive effect : Type :=
| Resolve (promise : nat) (msg : value)
    (** [pending.resolve(msg)] *)
| Reject (promise : nat) (err : failure)
    (** [p.reject(err)] *)
| Dispatch (h : Listener) (ev : value)
    (** [h(msg)] *)
| WriteLine (id : string) (cmd : PiRpcCommand).
    (** [child.stdin.write(JSON.stringify({...cmd, id}) + "\n", ...)] *)

(** [Map.prototype.get], [delete] and [set]. *)
Fixpoint map_get (id : string) (m : list (string * nat)) : option nat :=
  match m with
  | [] => None
  | (k, p) :: rest => if String.eqb k id then Some p else map_get id rest
  end.

Fixpoint map_delete (id : string) (m : list (string * nat)) : list (string * nat) :=
  match m with
  | [] => []
  | (k, p) :: rest => if String.eqb k id then rest else (k, p) :: map_delete id rest
  end.

Fixpoint map_set (id : string) (p : nat) (m : list (string * nat)) : list (string * nat) :=
  match m with
  | [] => [(id, p)]
  | (k, q) :: rest => if String.eqb k id then (k, p) :: rest else (k, q) :: map_set id p rest
  end.

(** The constructor, before any listener or request. *)
Definition new_process : PiRpcProcess :=
  {| pending := []; eventHandlers := []; requests := 0 |}.

(** [msg?.type === "response" && typeof msg.id === "string"], giving the
    id. *)
Definition response_id (msg : value) : option string :=
  match get_opt (Some msg) "type" with
  | Some (VStr t) =>
      if String.eqb t "response" then as_string (get_opt (Some msg) "id") else None
  | _ => None
  end.

(** What the line handler does with a parsed value. *)
Definition on_message (msg : value) (t : PiRpcProcess) : PiRpcProcess * list effect :=
  match response_id msg with
  | Some id =>
      match map_get id (pending t) with
      | Some p =>
          ({| pending := map_delete id (pending t);
              eventHandlers := eventHandlers t;
              requests := requests t |},
           [Resolve p msg])
      | None => (t, [])
      end
  | None => (t, map (fun h => Dispatch h msg) (eventHandlers t))
  end.

(** The listener of [rl.on("line", ...)]. *)
Definition on_line (line : string) (t : PiRpcProcess) : PiRpcProcess * list effect :=
  if negb (trim_nonempty line) then (t, [])
  else
    match JSON_parse line with
    | None => (t, [])
    | Some msg => on_message msg t
    end.

(** The listener of [child.on("exit", ...)]. *)
Definition on_exit (code : option Z) (signal : option string) (t : PiRpcProcess)
  : PiRpcProcess * list effect :=
  let err := process_exited code signal in
  ({| pending := []; eventHandlers := eventHandlers t; requests := requests t |},
   map (fun kp => Reject (snd kp) err) (pending t)).

(** [onEvent] *)
Definition onEvent (handler : Listener) (t : PiRpcProcess) : PiRpcProcess :=
  {| pending := pending t;
     eventHandlers := (eventHandlers t ++ [handler])%list;
     requests := requests t |}.

(** [request]; [draws] counts the identifiers drawn so far.  Gives the
    promise returned. *)
Definition request (cmd : PiRpcCommand) (draws : nat) (t : PiRpcProcess)
  : PiRpcProcess * list effect * nat :=
  let id := randomUUID draws in
  let promise := requests t in
  ({| pending := map_set id promise (pending t);
      eventHandlers := eventHandlers t;
      requests := S promise |},
   [WriteLine id cmd], promise).

(** The callback of [child.stdin.write] in the call of [request] that drew
    [id] and returned [promise], when it is given an error: the callback
    holds the [id] and the [reject] of its own call, and looks at nothing
    else. *)
Definition on_write_error (id : string) (promise : nat) (err : string) (t : PiRpcProcess)
  : PiRpcProcess * list effect :=
  ({| pending := map_delete id (pending t);
      eventHandlers := eventHandlers t;
      requests := requests t |},
   [Reject promise (write_failed err)]).

(** What reaches the transport from the child process. *)
Inductive input : Type :=
| Line (line : string)
| Exit (code : option Z) (signal : option string).

Definition handle (t : PiRpcProcess) (i : input) : PiRpcProcess * list effect :=
  match i with
  | Line line => on_line line t
  | Exit code signal => on_exit code signal t
  end.

Fixpoint handle_all (t : PiRpcProcess) (inputs : list input) : PiRpcProcess * list effect :=
  match inputs with
  | [] => (t, [])
  | i :: rest =>
      let '(t1, e1) := handle t i in
      let '(t2, e2) := handle_all t1 rest in
      (t2, (e1 ++ e2)%list)
  end.

End Host.

Arguments Build_PiRpcProcess {Listener} _ _ _.
Arguments pending {Listener} _.
Arguments eventHandlers {Listener} _.
Arguments requests {Listener} _.
Arguments Resolve {Listener} _ _.
Arguments Reject {Listener} _ _.
Arguments Dispatch {Listener} _ _.
Arguments WriteLine {Listener} _ _.
Arguments new_process {Listener}.
Arguments on_message {Listener} _ _.
Arguments on_line {Listener} _ _ _.
Arguments on_exit {Listener} _ _ _.
Arguments onEvent {Listener} _ _.
Arguments request {Listener} _ _ _ _.
Arguments on_write_error {Listener} _ _ _ _.
Arguments handle {Listener} _ _ _.
Arguments handle_all {Listener} _ _ _.

(** ** Vocabulary for the statements *)

(** [msg] has the response shape: an object whose [type] is the string
    [response] and whose [id] is the string [id]. *)
Definition response_shape (msg : value) (id : string) : Prop :=
  exists fields,
    msg = VObj fields /\
    lookup_field "type" fields = Some (VStr "response") /\
    lookup_field "id" fields = Some (VStr id).

(** ** Fixtures of the examples *)

Definition response_r1 : value :=
  VObj [("type", VStr "response"); ("id", VStr "r1"); ("ok", VBool true)].

Definition turn_end_event : value := VObj [("type", VStr "turn_end")].

(** A stand-in for [JSON.parse] on the two lines of the examples. *)
Definition test_parse (line : string) : option value :=
  if String.eqb line "{response r1}" then Some response_r1
  else if String.eqb line "{turn_end}" then Some turn_end_event
  else None.

(** A transport with one listener and the request [r1] outstanding. *)
Definition test_process : PiRpcProcess string :=
  {| pending := [("r1", 0)]; eventHandlers := ["session"]; requests := 1 |}.

(** [test_process] once [r1] is retired. *)
Definition test_process_retired : PiRpcProcess string :=
  {| pending := []; eventHandlers := ["session"]; requests := 1 |}.

(** The listeners called among some effects, with what they were given. *)
Definition dispatched {Listener} (es : list (effect Listener)) : list (Listener * value) :=
  flat_map (fun e => match e with Dispatch h ev => [(h, ev)] | _ => [] end) es.

(** ** The tasks of a transport *)

Section Tasks.

Variable Listener : Type.
Variable JSON_parse : string -> option value.
Variable randomUUID : nat -> string.

(** The transport together with what Node holds for it: the callbacks of
    the calls of [child.stdin.write] that were not given an error, each with
    the id and the promise of its call of [request]. *)
Record world : Type := {
  transport : PiRpcProcess Listener;
  writes : list (string * nat)
}.

(** What can happen to a transport, each in a task of its own. *)
Inductive op : Type :=
| Request (cmd : PiRpcCommand) (draws : nat)
    (** [request(cmd)] is called when [draws] identifiers have been drawn *)
| WriteFailed (promise : nat) (err : string)
    (** the callback of the write of the request that returned [promise] is
        given the error [err]; a callback is called once *)
| Arrives (i : input)
    (** a line is read from the child process, or it exits *)
| Listen (h : Listener).
    (** [onEvent(h)] is called *)

(** The callback that belongs to [promise], if it was not called. *)
Definition callback_of (promise : nat) (ws : list (string * nat)) : option (string * nat) :=
  find (fun c => Nat.eqb (snd c) promise) ws.

Definition forget (promise : nat) (ws : list (string * nat)) : list (string * nat) :=
  List.filter (fun c => negb (Nat.eqb (snd c) promise)) ws.

Definition step (w : world) (o : op) : world * list (effect Listener) :=
  match o with
  | Request cmd draws =>
      let '(t1, e1, promise) := request randomUUID cmd draws (transport w) in
      ({| transport := t1; writes := (writes w ++ [(randomUUID draws, promise)])%list |}, e1)
  | WriteFailed promise err =>
      match callback_of promise (writes w) with
      | Some (id, _) =>
          let '(t1, e1) := on_write_error id promise err (transport w) in
          ({| transport := t1; writes := forget promise (writes w) |}, e1)
      | None => (w, [])
      end
  | Arrives i =>
      let '(t1, e1) := handle JSON_parse (transport w) i in
      ({| transport := t1; writes := writes w |}, e1)
  | Listen h => ({| transport := onEvent h (transport w); writes := writes w |}, [])
  end.

Fixpoint exec (w : world) (ops : list op) : world * list (effect Listener) :=
  match ops with
  | [] => (w, [])
  | o :: rest =>
      let '(w1, e1) := step w o in
      let '(w2, e2) := exec w1 rest in
      (w2, (e1 ++ e2)%list)
  end.

End Tasks.

Arguments Build_world {Listener} _ _.
Arguments transport {Listener} _.
Arguments writes {Listener} _.
Arguments Request {Listener} _ _.
Arguments WriteFailed {Listener} _ _.
Arguments Arrives {Listener} _.
Arguments Listen {Listener} _.
Arguments step {Listener} _ _ _ _.
Arguments exec {Listener} _ _ _ _.

(** The promises on which [resolve] or [reject] is called among some
    effects. *)
Definition settled {Listener} (es : list (effect Listener)) : list nat :=
  flat_map (fun e => match e with
                     | Resolve p _ => [p]
                     | Reject p _ => [p]
                     | _ => []
                     end) es.

(** The effect answers the request of the promise [p] out of the pending
    map: the line handler resolves it, or the exit handler rejects it. *)
Definition answers {Listener} (e : effect Listener) (p : nat) : Prop :=
  match e with
  | Resolve q _ => q = p
  | Reject q (process_exited _ _) => q = p
  | _ => False
  end.

(** The promises of the pending requests. *)
Definition promises {Listener} (t : PiRpcProcess Listener) : list nat :=
  map snd (pending t).

(** A transport as [request] and the handlers leave it: no id and no
    promise is pending twice, the pending promises are among those
    [request] returned, and so are those of the write callbacks, each of
    which, as long as its promise is pending, is pending under the id of
    the callback. *)
Definition well_formed {Listener} (w : world Listener) : Prop :=
  List.NoDup (map fst (pending (transport w))) /\
  List.NoDup (promises (transport w)) /\
  (forall p, In p (promises (transport w)) -> p < requests (transport w)) /\
  List.NoDup (map snd (writes w)) /\
  (forall c, In c (writes w) ->
             snd c < requests (transport w) /\
             (In (snd c) (promises (transport w)) -> In c (pending (transport w)))).

(** ** Invariants used in the proofs *)

(** Each answer among [es] is the first call on its promise, given the
    promises [seen] on which [resolve] or [reject] was called before. *)
Fixpoint first_calls {Listener} (seen : list nat) (es : list (effect Listener)) : Prop :=
  match es with
  | [] => True
  | e :: rest =>
      (forall p, answers e p -> ~ In p seen) /\ first_calls (settled [e] ++ seen)%list rest
  end.

(** None of [seen] is pending, and all were returned by [request]. *)
Definition retired {Listener} (seen : list nat) (t : PiRpcProcess Listener) : Prop :=
  forall p, In p seen -> ~ In p (promises t) /\ p < requests t.

End Process.

(* ===================================================================== *)
(** * Properties of the rendering of numbers                              *)
(* ===================================================================== *)

Module JSFacts.
Import JS.

(** The renderings of some integers by [String]. *)
Example Number_toString_examples :
  map Number_toString
    [0; -17; 9007199254740993; 18446744073709551616; 10 ^ 21; 2 ^ 70; 10 ^ 23;
     123456789012345678901234567890; 2 ^ 1024]%Z
  = ["0"; "-17"; "9007199254740992"; "18446744073709552000"; "1e+21";
     "1.1805916207174113e+21"; "1e+23"; "1.2345678901234568e+29"; "Infinity"].
Proof. vm_compute. reflexivity. Qed.

(** A positive integer has a digit. *)
Lemma decimal_digits_pos (x : Z) : (0 < x)%Z -> (1 <= decimal_digits x)%Z.
Proof.
  intros Hx. unfold decimal_digits, string_of_Z.
  destruct x as [|p|p]; try lia. cbn [Z.to_int NilZero.string_of_int].
  pose proof (Unsigned.to_uint_nonnil p) as Hnil.
  unfold NilZero.string_of_uint.
  destruct (Pos.to_uint p); cbn; try congruence; lia.
Qed.

(** The search for the digits of a Number [x] ends, at the latest with all
    the digits of [x], on an integer that reads back as [x]. *)
Lemma shortest_decimal_reads_back (fuel : nat) :
  forall k x : Z,
    (Z.of_nat fuel + k = decimal_digits x + 1)%Z -> 0 < fuel ->
    nearest_double x = Some x ->
    nearest_double (shortest_decimal fuel k x) = Some x.
Proof.
  induction fuel as [|fuel IH]; intros k x Hk Hfuel Hx; [lia|].
  cbn [shortest_decimal].
  set (p := (10 ^ (decimal_digits x - k))%Z).
  set (lo := (x / p * p)%Z). set (hi := (lo + p)%Z).
  destruct (nearest_double lo) as [y|] eqn:Elo;
    destruct (nearest_double hi) as [z|] eqn:Ehi;
    try destruct (Z.eqb_spec y x) as [->|Hy];
    try destruct (Z.eqb_spec z x) as [->|Hz];
    cbn [andb]; try assumption;
    try (destruct (x - lo <=? hi - x)%Z; assumption).
  all: destruct fuel as [|fuel];
    [exfalso;
     assert (Hp : p = 1%Z) by (subst p; replace (decimal_digits x - k)%Z with 0%Z by lia;
                               reflexivity);
     assert (Hlo : lo = x) by (subst lo; rewrite Hp, Z.div_1_r; lia);
     rewrite Hlo in Elo; congruence
    |apply IH; [lia|lia|assumption]].
Qed.

Section Rounding.

Local Open Scope Z_scope.

(** The Number nearest to [m] is [m] itself below [2^53], and 53 bits
    followed by zeros above. *)
Lemma nearest_double_shape (m x : Z) :
  0 < m -> nearest_double m = Some x ->
  (Z.log2 m - 52 <= 0 /\ x = m) \/
  (exists e q, 0 < e /\ 2 ^ 52 <= q <= 2 ^ 53 /\ x = q * 2 ^ e /\ Z.log2 x < 1024).
Proof.
  intros Hm. unfold nearest_double.
  destruct (Z.leb_spec (Z.log2 m - 52) 0) as [He|He].
  { intros [= <-]. now left. }
  set (e := Z.log2 m - 52) in *.
  set (q := Z.shiftr m e).
  set (q' := if m - Z.shiftl q e <? Z.shiftl 1 (e - 1) then q
             else if Z.shiftl 1 (e - 1) <? m - Z.shiftl q e then q + 1
             else if Z.even q then q else q + 1).
  assert (Hq : 2 ^ 52 <= q < 2 ^ 53).
  { subst q. rewrite Z.shiftr_div_pow2 by lia.
    destruct (Z.log2_spec m Hm) as [Hlo Hhi].
    replace (Z.log2 m) with (52 + e) in Hlo by (subst e; lia).
    replace (Z.succ (Z.log2 m)) with (53 + e) in Hhi by (subst e; lia).
    rewrite Z.pow_add_r in Hlo, Hhi by lia.
    assert (Hpe : 0 < 2 ^ e) by (apply Z.pow_pos_nonneg; lia).
    split.
    - apply Z.div_le_lower_bound; lia.
    - apply Z.div_lt_upper_bound; lia. }
  assert (Hq' : 2 ^ 52 <= q' <= 2 ^ 53).
  { subst q'. repeat match goal with |- context [if ?b then _ else _] => destruct b end; lia. }
  clearbody q'. clear Hq q.
  destruct (Z.leb_spec 1024 (Z.log2 (Z.shiftl q' e))) as [Hbig|Hsmall]; [discriminate|].
  intros [= <-]. right. exists e, q'.
  rewrite Z.shiftl_mul_pow2 in * by lia. repeat split; lia.
Qed.

(** A Number is the Number nearest to itself. *)
Lemma nearest_double_fixed (m x : Z) :
  0 < m -> nearest_double m = Some x -> 0 < x /\ nearest_double x = Some x.
Proof.
  intros Hm Hx.
  destruct (nearest_double_shape m x Hm Hx) as [[He ->]|(e & q' & He & Hq' & -> & Hsmall)].
  { split; [exact Hm|exact Hx]. }
  assert (Hpe : 0 < 2 ^ e) by (apply Z.pow_pos_nonneg; lia).
  split; [apply Z.mul_pos_pos; lia|].
  assert (Hlog : Z.log2 (q' * 2 ^ e) = Z.log2 q' + e)
    by (rewrite Z.log2_mul_pow2 by lia; lia).
  destruct (Z.eq_dec q' (2 ^ 53)) as [Htop|Hlt].
  - subst q'. change (Z.log2 (2 ^ 53)) with 53 in Hlog.
    unfold nearest_double. rewrite Hlog.
    destruct (Z.leb_spec (53 + e - 52) 0); [lia|].
    replace (53 + e - 52) with (e + 1) by lia.
    assert (Hsh : Z.shiftr (2 ^ 53 * 2 ^ e) (e + 1) = 2 ^ 52).
    { rewrite Z.shiftr_div_pow2 by lia. rewrite Z.pow_add_r by lia.
      change (2 ^ 53) with (2 ^ 52 * 2 ^ 1).
      replace (2 ^ 52 * 2 ^ 1 * 2 ^ e) with (2 ^ 52 * (2 ^ e * 2 ^ 1)) by lia.
      apply Z.div_mul. lia. }
    rewrite Hsh.
    assert (Hback : Z.shiftl (2 ^ 52) (e + 1) = 2 ^ 53 * 2 ^ e).
    { rewrite Z.shiftl_mul_pow2, Z.pow_add_r by lia.
      change (2 ^ 53) with (2 ^ 52 * 2 ^ 1). lia. }
    rewrite Hback, Z.sub_diag.
    assert (Hhalf : 0 < Z.shiftl 1 (e + 1 - 1)).
    { rewrite Z.shiftl_mul_pow2 by lia. apply Z.mul_pos_pos; [lia|].
      apply Z.pow_pos_nonneg; lia. }
    destruct (Z.ltb_spec 0 (Z.shiftl 1 (e + 1 - 1))); [|lia].
    rewrite Hback, Hlog.
    rewrite Hlog in Hsmall.
    destruct (Z.leb_spec 1024 (53 + e)); [lia|reflexivity].
  - assert (Hl52 : Z.log2 q' = 52).
    { apply Z.log2_unique; [lia|]. change (Z.succ 52) with 53. lia. }
    rewrite Hl52 in Hlog.
    unfold nearest_double. rewrite Hlog.
    destruct (Z.leb_spec (52 + e - 52) 0); [lia|].
    replace (52 + e - 52) with e by lia.
    assert (Hsh : Z.shiftr (q' * 2 ^ e) e = q').
    { rewrite Z.shiftr_div_pow2 by lia. apply Z.div_mul. lia. }
    rewrite !Hsh.
    replace (Z.shiftl q' e) with (q' * 2 ^ e) by (rewrite Z.shiftl_mul_pow2; lia).
    rewrite Z.sub_diag.
    assert (Hhalf : 0 < Z.shiftl 1 (e - 1)).
    { rewrite Z.shiftl_mul_pow2 by lia. apply Z.mul_pos_pos; [lia|].
      apply Z.pow_pos_nonneg; lia. }
    destruct (Z.ltb_spec 0 (Z.shiftl 1 (e - 1))); [|lia].
    replace (Z.shiftl q' e) with (q' * 2 ^ e) by (rewrite Z.shiftl_mul_pow2; lia).
    rewrite Hlog. rewrite Hlog in Hsmall.
    destruct (Z.leb_spec 1024 (52 + e)); [lia|reflexivity].
Qed.

(** The integer whose digits are printed for the Number nearest to [m]
    reads back as that Number: the search for the digits ends before its
    fuel does. *)
Lemma shortest_decimal_round_trip (m x : Z) :
  0 < m -> nearest_double m = Some x ->
  nearest_double (shortest_decimal (Z.to_nat (decimal_digits x)) 1 x) = Some x.
Proof.
  intros Hm Hx.
  destruct (nearest_double_fixed m x Hm Hx) as [Hpos Hfix].
  pose proof (decimal_digits_pos x Hpos) as Hd.
  apply shortest_decimal_reads_back; [lia|lia|exact Hfix].
Qed.

End Rounding.

End JSFacts.

(* ===================================================================== *)
(** * Properties of strings                                               *)
(* ===================================================================== *)

Module StringFacts.

Lemma append_cons (c : ascii) (a b : string) : String c a ++ b = String c (a ++ b).
Proof. reflexivity. Qed.

Lemma append_nil (b : string) : "" ++ b = b.
Proof. reflexivity. Qed.

Lemma append_empty_r (s : string) : s ++ "" = s.
Proof. induction s as [|c s IH]; [reflexivity|]. rewrite append_cons. now rewrite IH. Qed.

Lemma append_assoc (a b c : string) : (a ++ b) ++ c = a ++ b ++ c.
Proof. induction a as [|x a IH]; [reflexivity|]. rewrite !append_cons. now rewrite IH. Qed.

Lemma length_append (a b : string) :
  String.length (a ++ b) = String.length a + String.length b.
Proof.
  induction a as [|c a IH]; [reflexivity|].
  rewrite append_cons. cbn [String.length]. now rewrite IH.
Qed.

Lemma substring_whole (s : string) : substring 0 (String.length s) s = s.
Proof. induction s as [|c s IH]; cbn; [reflexivity|now rewrite IH]. Qed.

Lemma substring_head (a b : string) : substring 0 (String.length a) (a ++ b) = a.
Proof.
  induction a as [|c a IH]; [destruct b; reflexivity|].
  rewrite append_cons. cbn [String.length substring]. now rewrite IH.
Qed.

Lemma substring_tail (a b : string) :
  substring (String.length a) (String.length b) (a ++ b) = b.
Proof.
  induction a as [|c a IH]; [apply substring_whole|].
  rewrite append_cons. cbn [String.length substring]. exact IH.
Qed.

End StringFacts.

(* ===================================================================== *)
(** * Properties of src/acp/slash-commands.ts                             *)
(* ===================================================================== *)

Module SlashCommandsFacts.
Import JS.
Import SlashCommands.

(** ** The unit tests of test/unit/slash-commands.test.ts *)

Example parseCommandArgs_plain : parseCommandArgs "a b" = ["a"; "b"].
Proof. reflexivity. Qed.

Example parseCommandArgs_single_quotes : parseCommandArgs "'a b' c" = ["a b"; "c"].
Proof. reflexivity. Qed.

Example parseCommandArgs_double_quotes :
  parseCommandArgs (String dquote "a b" ++ String dquote " c") = ["a b"; "c"].
Proof. reflexivity. Qed.

Example substituteArgs_test :
  substituteArgs "x=$1 y=$2 all=$@" ["one"; "two"] = "x=one y=two all=one two".
Proof. reflexivity. Qed.

Example substituteArgs_missing : substituteArgs "$3" ["one"] = "".
Proof. reflexivity. Qed.

Example expand_known : expandSlashCommand "/hello world" hello_cmds = "Say hi to world".
Proof. reflexivity. Qed.

Example expand_plain : expandSlashCommand "not a command" hello_cmds = "not a command".
Proof. reflexivity. Qed.

Example toAvailableCommands_dedup :
  toAvailableCommands
    [ {| name := "x"; description := "first"; content := "1"; source := "(user)" |};
      {| name := "x"; description := "second"; content := "2"; source := "(project)" |} ]
  = [ {| ac_name := "x"; ac_description := "first" |} ].
Proof. reflexivity. Qed.

(** ** Lookup of an unknown command *)

Lemma find_none_of_no_name (cmds : list FileSlashCommand) (n : string) :
  Forall (fun c => name c <> n) cmds ->
  find (fun c => String.eqb (name c) n) cmds = None.
Proof.
  induction 1 as [|c cs Hc _ IH]; simpl; [reflexivity|].
  destruct (String.eqb_spec (name c) n) as [Heq|_]; [contradiction|exact IH].
Qed.

(** C7.  A text that does not start with [/] is returned unchanged, a text
    whose command name (between the [/] and the first space) is the name of
    no catalog entry is returned unchanged, and so [/unknown world] is
    returned unchanged by every catalog without an entry named [unknown]. *)
Theorem expandSlashCommand_unknown_unchanged :
  (forall text cmds, startsWith text "/" = false -> expandSlashCommand text cmds = text) /\
  (forall text cmds,
     Forall (fun c => name c <> commandName_of text) cmds ->
     expandSlashCommand text cmds = text) /\
  (forall cmds,
     Forall (fun c => name c <> "unknown") cmds ->
     expandSlashCommand "/unknown world" cmds = "/unknown world").
Proof.
  split; [|split].
  - intros text cmds Hstart. unfold expandSlashCommand. rewrite Hstart. reflexivity.
  - intros text cmds Hnone. unfold expandSlashCommand.
    destruct (startsWith text "/"); simpl; [|reflexivity].
    fold (commandName_of text).
    rewrite (find_none_of_no_name _ _ Hnone). reflexivity.
  - intros cmds Hnone. unfold expandSlashCommand. simpl.
    change (slice "/unknown world" 1 8) with "unknown".
    rewrite (find_none_of_no_name _ _ Hnone). reflexivity.
Qed.

Lemma expandSlashCommand_unknown_unchanged_witness :
  expandSlashCommand "not a command" hello_cmds = "not a command" /\
  expandSlashCommand "/nope" hello_cmds = "/nope" /\
  expandSlashCommand "/unknown world" hello_cmds = "/unknown world".
Proof.
  split; [|split].
  - apply (proj1 expandSlashCommand_unknown_unchanged). reflexivity.
  - apply (proj1 (proj2 expandSlashCommand_unknown_unchanged)).
    repeat constructor. simpl. discriminate.
  - apply (proj2 (proj2 expandSlashCommand_unknown_unchanged)).
    repeat constructor. simpl. discriminate.
Defined.

(** ** Argument substitution *)

Lemma is_char_true (c d : ascii) : is_char c d = true -> c = d.
Proof. apply Ascii.eqb_eq. Qed.

(** A template without [$] is inserted as it is. *)
Lemma getSubstitution_dollar_free (matched before after template : string) :
  dollar_free template = true ->
  getSubstitution matched before after template = template.
Proof.
  induction template as [|c rest IH]; simpl; [reflexivity|].
  intros H. apply andb_prop in H as [Hc Hrest].
  apply negb_true_iff in Hc. rewrite Hc. now rewrite IH.
Qed.

(** The second pass copies text without [$]. *)
Lemma replace_positional_dollar_free (args : list string) (j rest : string) :
  dollar_free j = true ->
  replace_positional args None (j ++ rest) = j ++ replace_positional args None rest.
Proof.
  induction j as [|c j IH]; simpl; [reflexivity|].
  intros H. apply andb_prop in H as [Hc Hj].
  apply negb_true_iff in Hc. rewrite Hc. now rewrite IH.
Qed.

(** A run of digits after a [$] ends where the text goes on with something
    that is no digit. *)
Lemma replace_positional_close (args : list string) (num x : string) :
  starts_without_digit x = true ->
  replace_positional args (Some num) x
  = close_positional args num ++ replace_positional args None x.
Proof.
  destruct x as [|c x]; simpl; [discriminate|].
  intros H. apply negb_true_iff in H. rewrite H.
  destruct (is_char c "$"); reflexivity.
Qed.

Lemma starts_without_digit_app (j x : string) :
  starts_without_digit j = true -> starts_without_digit (j ++ x) = true.
Proof. destruct j; simpl; [discriminate|trivial]. Qed.

Lemma truthy_snoc (num : string) (c : ascii) : truthy_string (snoc num c) = true.
Proof. destruct num; reflexivity. Qed.

Section TwoPasses.

Variable args : list string.
Let joined := join_with " " args.
Hypothesis joined_dollar_free : dollar_free joined = true.
Hypothesis joined_no_digit : starts_without_digit joined = true.

(** What the first pass hands over after a [$] it holds back begins with
    no digit. *)
Lemma replace_dollar_at_held_head (before s : string) :
  starts_without_digit (replace_dollar_at joined before true s) = true.
Proof.
  destruct s as [|c s]; simpl; [reflexivity|].
  destruct (is_char c "@").
  - rewrite getSubstitution_dollar_free by exact joined_dollar_free.
    now apply starts_without_digit_app.
  - destruct (is_char c "$"); reflexivity.
Qed.

(** The two passes of [substituteArgs] against the one pass of the
    specification, at every point of the scan. *)
Lemma two_passes_scan (s : string) :
  forall before,
    (forall open,
        match open with Some num => truthy_string num = true | None => True end ->
        replace_positional args open (replace_dollar_at joined before false s)
        = substitute_spec_scan args open s) /\
    replace_positional args None (replace_dollar_at joined before true s)
    = substitute_spec_scan args (Some "") s.
Proof.
  induction s as [|c s IH]; intros before.
  - split; [intros [num|] _; reflexivity | reflexivity].
  - split.
    + intros open Hopen. simpl.
      destruct (is_char c "$") eqn:Hd.
      * apply is_char_true in Hd. subst c.
        destruct open as [num|]; simpl.
        -- rewrite replace_positional_close by apply replace_dollar_at_held_head.
           now rewrite (proj2 (IH before)).
        -- apply (proj2 (IH before)).
      * destruct open as [num|]; simpl; rewrite ?Hd.
        -- destruct (is_digit c) eqn:Hg.
           ++ apply (proj1 (IH _)). apply truthy_snoc.
           ++ rewrite Hopen. rewrite andb_false_r.
              now rewrite (proj1 (IH _) None I).
        -- now rewrite (proj1 (IH _) None I).
    + simpl.
      destruct (is_char c "@") eqn:Ha.
      * apply is_char_true in Ha. subst c. simpl.
        rewrite getSubstitution_dollar_free by exact joined_dollar_free.
        rewrite replace_positional_dollar_free by exact joined_dollar_free.
        now rewrite (proj1 (IH _) None I).
      * destruct (is_char c "$") eqn:Hd.
        -- apply is_char_true in Hd. subst c. simpl.
           rewrite replace_positional_close by apply replace_dollar_at_held_head.
           simpl. now rewrite (proj2 (IH _)).
        -- simpl. rewrite Hd.
           destruct (is_digit c) eqn:Hg.
           ++ apply (proj1 (IH _) (Some (snoc "" c))). reflexivity.
           ++ simpl. now rewrite (proj1 (IH _) None I).
Qed.

End TwoPasses.

(** C8, as the code has it.  When the space-joined argument list holds no
    [$] and begins with something that is no digit (so it is not empty),
    [substituteArgs] replaces every [$@] of the command body by the
    space-joined argument list and every [$N] of the body by the N-th
    argument, or by the empty string when there is no N-th argument. *)
Theorem substituteArgs_single_pass (body : string) (args : list string) :
  dollar_free (join_with " " args) = true ->
  starts_without_digit (join_with " " args) = true ->
  substituteArgs body args = substituteArgs_spec body args.
Proof.
  intros Hfree Hdigit. unfold substituteArgs, substituteArgs_spec.
  apply (proj1 (two_passes_scan args Hfree Hdigit body "") None I).
Qed.

(** The example of the specification, through the theorem. *)
Lemma substituteArgs_single_pass_witness :
  substituteArgs "x=$1 y=$2 all=$@" ["one"; "two"]
  = substituteArgs_spec "x=$1 y=$2 all=$@" ["one"; "two"] /\
  substituteArgs_spec "x=$1 y=$2 all=$@" ["one"; "two"] = "x=one y=two all=one two" /\
  substituteArgs_spec "$3" ["one"] = "".
Proof.
  split; [|split; reflexivity].
  apply (substituteArgs_single_pass "x=$1 y=$2 all=$@" ["one"; "two"]); reflexivity.
Defined.

(** C8 as stated fails.  The second [replace] runs over the text the first
    one produced, so a [$2] that an argument brings in through [$@] is
    replaced as well: the body [$@] with the arguments [$2] and [b] gives
    [b b], not the space-joined list [$2 b]. *)
Lemma substituteArgs_rescans_arguments :
  substituteArgs "$@" ["$2"; "b"] = "b b" /\
  substituteArgs_spec "$@" ["$2"; "b"] = "$2 b" /\
  join_with " " ["$2"; "b"] = "$2 b".
Proof. repeat split. Qed.

(** Text brought in by [$@] also lengthens a [$N] that stands right before
    it, and an empty argument list lets the text after [$@] do so. *)
Example substituteArgs_digits_merge :
  substituteArgs "$1$@" ["7"; "x"] = " x" /\
  substituteArgs_spec "$1$@" ["7"; "x"] = "77 x" /\
  substituteArgs "a$1$@2" [] = "a" /\
  substituteArgs_spec "a$1$@2" [] = "a2".
Proof. repeat split. Qed.

Import StringFacts.

(** ** The argument parser *)

Lemma parseCommandArgs_loop_nonempty (s : string) :
  forall args current inQuote,
    Forall (fun a => a <> "") args ->
    Forall (fun a => a <> "") (parseCommandArgs_loop s args current inQuote).
Proof.
  induction s as [|ch rest IH]; intros args current inQuote Hargs; cbn.
  - destruct current; cbn; [exact Hargs|].
    apply Forall_app. split; [exact Hargs|].
    constructor; [discriminate|constructor].
  - destruct inQuote as [q|].
    + destruct (is_char ch q); apply IH; exact Hargs.
    + destruct (is_char ch dquote || is_char ch "'"); [apply IH; exact Hargs|].
      destruct (is_char ch " " || is_char ch "009"); [|apply IH; exact Hargs].
      destruct current; cbn; apply IH; [exact Hargs|].
      apply Forall_app. split; [exact Hargs|].
      constructor; [discriminate|constructor].
Qed.

(** X8.  [parseCommandArgs] never gives an empty argument, whatever the
    text: an argument is pushed only when [current] is not empty, so a pair
    of quotes with nothing between them gives no argument. *)
Theorem parseCommandArgs_no_empty_argument (argsString : string) :
  Forall (fun a => a <> "") (parseCommandArgs argsString) /\
  parseCommandArgs (quoted dquote "" ++ " " ++ quoted "'" "") = [].
Proof.
  split; [|reflexivity].
  apply parseCommandArgs_loop_nonempty. constructor.
Qed.

Lemma snoc_app (cur : string) (c : ascii) (w : string) :
  snoc cur c ++ w = cur ++ String c w.
Proof.
  unfold snoc. induction cur as [|d cur IH]; [reflexivity|].
  rewrite !append_cons. now rewrite IH.
Qed.

(** Outside quotes, a run of plain code units goes to [current]. *)
Lemma parseCommandArgs_loop_plain (w : string) :
  forall rest args current,
    plain w = true ->
    parseCommandArgs_loop (w ++ rest) args current None
    = parseCommandArgs_loop rest args (current ++ w) None.
Proof.
  induction w as [|c w IH]; intros rest args current Hw.
  - now rewrite append_nil, append_empty_r.
  - cbn in Hw. apply andb_true_iff in Hw as [Hc Hw].
    apply negb_true_iff in Hc.
    apply orb_false_iff in Hc as [Hc Htab].
    apply orb_false_iff in Hc as [Hc Hsp].
    rewrite append_cons. cbn [parseCommandArgs_loop].
    rewrite Hc, Hsp, Htab. cbn [orb].
    rewrite (IH rest args (snoc current c) Hw). now rewrite snoc_app.
Qed.

(** Inside the quote [q], everything up to the next [q] goes to [current]. *)
Lemma parseCommandArgs_loop_quoted (q : ascii) (w : string) :
  forall rest args current,
    free_of q w = true ->
    parseCommandArgs_loop (w ++ String q rest) args current (Some q)
    = parseCommandArgs_loop rest args (current ++ w) None.
Proof.
  induction w as [|c w IH]; intros rest args current Hw.
  - rewrite append_nil, append_empty_r. cbn [parseCommandArgs_loop].
    unfold is_char. now rewrite Ascii.eqb_refl.
  - cbn in Hw. apply andb_true_iff in Hw as [Hc Hw].
    apply negb_true_iff in Hc.
    rewrite append_cons. cbn [parseCommandArgs_loop]. rewrite Hc.
    rewrite (IH rest args (snoc current c) Hw). now rewrite snoc_app.
Qed.

Lemma truthy_string_nonempty (w : string) : w <> "" -> truthy_string w = true.
Proof. destruct w; [congruence|reflexivity]. Qed.

Lemma parseCommandArgs_loop_words (ws : list string) :
  forall args,
    Forall (fun w => plain w = true /\ w <> "") ws ->
    parseCommandArgs_loop (join_with " " ws) args "" None = (args ++ ws)%list.
Proof.
  induction ws as [|w ws IH]; intros args Hws.
  - cbn. now rewrite app_nil_r.
  - inversion Hws as [|? ? [Hw Hne] Hrest]; subst.
    destruct ws as [|w' ws].
    + cbn [join_with]. rewrite <- (append_empty_r w) at 1.
      rewrite parseCommandArgs_loop_plain by exact Hw.
      rewrite append_nil. cbn [parseCommandArgs_loop].
      now rewrite truthy_string_nonempty.
    + change (join_with " " (w :: w' :: ws)) with (w ++ String " " (join_with " " (w' :: ws))).
      rewrite parseCommandArgs_loop_plain by exact Hw.
      rewrite append_nil. cbn [parseCommandArgs_loop].
      change (is_char " " dquote || is_char " " "'") with false.
      change (is_char " " " " || is_char " " "009") with true. cbv iota.
      rewrite truthy_string_nonempty by exact Hne.
      rewrite IH by exact Hrest. now rewrite <- app_assoc.
Qed.

(** X9.  Words without quote, space or tab, none of them empty, joined by
    single spaces, are parsed back as they were. *)
Theorem parseCommandArgs_join_words (ws : list string) :
  Forall (fun w => plain w = true /\ w <> "") ws ->
  parseCommandArgs (join_with " " ws) = ws.
Proof.
  intros Hws. unfold parseCommandArgs.
  now rewrite parseCommandArgs_loop_words.
Qed.

Lemma parseCommandArgs_join_words_witness :
  parseCommandArgs (join_with " " ["fix"; "src/a.ts"; "--dry-run"])
  = ["fix"; "src/a.ts"; "--dry-run"].
Proof.
  apply parseCommandArgs_join_words.
  repeat constructor; discriminate.
Defined.

Lemma parseCommandArgs_loop_quoted_args (q : ascii) (ws : list string) :
  is_char q dquote || is_char q "'" = true ->
  forall args,
    Forall (fun w => free_of q w = true /\ w <> "") ws ->
    parseCommandArgs_loop (join_with " " (map (quoted q) ws)) args "" None = (args ++ ws)%list.
Proof.
  intros Hq. induction ws as [|w ws IH]; intros args Hws.
  - cbn. now rewrite app_nil_r.
  - inversion Hws as [|? ? [Hw Hne] Hrest]; subst.
    destruct ws as [|w' ws].
    + cbn [map join_with]. unfold quoted.
      cbn [parseCommandArgs_loop]. rewrite Hq.
      rewrite parseCommandArgs_loop_quoted by exact Hw.
      rewrite append_nil. cbn [parseCommandArgs_loop].
      now rewrite truthy_string_nonempty.
    + change (join_with " " (map (quoted q) (w :: w' :: ws)))
        with (quoted q w ++ String " " (join_with " " (map (quoted q) (w' :: ws)))).
      unfold quoted at 1. rewrite append_cons, append_assoc, append_cons, append_nil.
      cbn [parseCommandArgs_loop]. rewrite Hq.
      rewrite parseCommandArgs_loop_quoted by exact Hw.
      rewrite append_nil. cbn [parseCommandArgs_loop].
      change (is_char " " dquote || is_char " " "'") with false.
      change (is_char " " " " || is_char " " "009") with true. cbv iota.
      rewrite truthy_string_nonempty by exact Hne.
      rewrite IH by exact Hrest. now rewrite <- app_assoc.
Qed.

(** X10.  Quoting is undone: arguments that are not empty, each put between
    two double quotes (or each between two single quotes) that it does not
    contain itself, and joined by single spaces, are parsed back as they
    were, spaces, tabs and quotes of the other kind included. *)
Theorem parseCommandArgs_unquotes (q : ascii) (ws : list string) :
  q = dquote \/ q = "'"%char ->
  Forall (fun w => free_of q w = true /\ w <> "") ws ->
  parseCommandArgs (join_with " " (map (quoted q) ws)) = ws.
Proof.
  intros Hq Hws. unfold parseCommandArgs.
  rewrite (parseCommandArgs_loop_quoted_args q); [reflexivity| |exact Hws].
  destruct Hq as [->| ->]; reflexivity.
Qed.

Lemma parseCommandArgs_unquotes_witness :
  parseCommandArgs (join_with " " (map (quoted dquote) ["a b"; "it's"; "x"]))
  = ["a b"; "it's"; "x"].
Proof.
  apply parseCommandArgs_unquotes; [left; reflexivity|].
  repeat constructor; discriminate.
Defined.

(** ** The lookup of a known command *)

Lemma indexOf_app_space (name rest : string) :
  indexOf name " " = None ->
  indexOf (name ++ String " " rest) " " = Some (String.length name).
Proof.
  induction name as [|c name IH]; [reflexivity|].
  rewrite append_cons. cbn [indexOf String.length].
  destruct (Ascii.eqb c " "); [discriminate|].
  destruct (indexOf name " "); [discriminate|].
  intros _. now rewrite IH.
Qed.

Lemma indexOf_app_none (name : string) :
  indexOf name " " = None -> indexOf (String "/" name) " " = None.
Proof. cbn. now intros ->. Qed.

Lemma startsWith_slash (s : string) : startsWith (String "/" s) "/" = true.
Proof. unfold startsWith. simpl. destruct s; reflexivity. Qed.

Lemma slice_from_slash (s : string) : slice_from (String "/" s) 1 = s.
Proof.
  unfold slice_from. cbn [String.length].
  replace (S (String.length s) - 1) with (String.length s) by lia.
  cbn [substring]. apply substring_whole.
Qed.

Lemma slice_command_name (a b : string) :
  slice (String "/" (a ++ String " " b)) 1 (S (String.length a)) = a.
Proof.
  unfold slice.
  replace (S (String.length a) - 1) with (String.length a) by lia.
  cbn [substring]. apply substring_head.
Qed.

Lemma slice_from_args (a b : string) :
  slice_from (String "/" (a ++ String " " b)) (S (String.length a) + 1) = b.
Proof.
  unfold slice_from. cbn [String.length]. rewrite length_append. cbn [String.length].
  replace (S (String.length a + S (String.length b)) - (S (String.length a) + 1))
    with (String.length b) by lia.
  replace (S (String.length a) + 1) with (S (String.length (a ++ " "))).
  - cbn [substring].
    change (String " " b) with (" " ++ b). rewrite <- append_assoc.
    apply substring_tail.
  - rewrite length_append. cbn. lia.
Qed.

Lemma find_first (cmds before after : list FileSlashCommand) (cmd : FileSlashCommand)
    (n : string) :
  cmds = (before ++ cmd :: after)%list ->
  Forall (fun c => name c <> n) before -> name cmd = n ->
  find (fun c => String.eqb (name c) n) cmds = Some cmd.
Proof.
  intros -> Hbefore Hcmd.
  induction Hbefore as [|c before Hc _ IH]; cbn.
  - apply String.eqb_eq in Hcmd. now rewrite Hcmd.
  - apply String.eqb_neq in Hc. now rewrite Hc.
Qed.

(** X11.  A text that is [/], the name of a catalog entry (a name without
    space), and possibly a space and an argument text, expands to the body
    of the first entry of that name, with the parsed arguments substituted;
    entries of the same name further down the catalog are not looked at. *)
Theorem expandSlashCommand_known
    (cmds before after : list FileSlashCommand) (cmd : FileSlashCommand)
    (argsString : string) :
  cmds = (before ++ cmd :: after)%list ->
  Forall (fun c => name c <> name cmd) before ->
  indexOf (name cmd) " " = None ->
  expandSlashCommand (String "/" (name cmd)) cmds = substituteArgs (content cmd) [] /\
  expandSlashCommand (String "/" (name cmd ++ String " " argsString)) cmds
  = substituteArgs (content cmd) (parseCommandArgs argsString).
Proof.
  intros Hcmds Hbefore Hname.
  pose proof (find_first cmds before after cmd (name cmd) Hcmds Hbefore eq_refl) as Hfind.
  split.
  - unfold expandSlashCommand.
    rewrite startsWith_slash. cbn [negb].
    rewrite (indexOf_app_none _ Hname), slice_from_slash, Hfind. reflexivity.
  - unfold expandSlashCommand.
    rewrite startsWith_slash. cbn [negb].
    assert (Hidx : indexOf (String "/" (name cmd ++ String " " argsString)) " "
                   = Some (S (String.length (name cmd)))).
    { cbn [indexOf]. change (Ascii.eqb "/" " ") with false. cbv iota.
      now rewrite indexOf_app_space. }
    rewrite Hidx, slice_command_name, slice_from_args, Hfind. reflexivity.
Qed.

Lemma expandSlashCommand_known_witness :
  let shadowed := {| name := "hello"; description := "(project)";
                     content := "Other $@"; source := "(project)" |} in
  expandSlashCommand (String "/" "hello") (hello_cmds ++ [shadowed])%list = substituteArgs "Say hi to $1" [] /\
  expandSlashCommand (String "/" ("hello" ++ String " " "big world")) (hello_cmds ++ [shadowed])%list
  = substituteArgs "Say hi to $1" (parseCommandArgs "big world").
Proof.
  intros shadowed.
  apply (expandSlashCommand_known (hello_cmds ++ [shadowed])%list [] [shadowed]
           {| name := "hello"; description := "(user)"; content := "Say hi to $1";
              source := "(user)" |} "big world").
  - reflexivity.
  - constructor.
  - reflexivity.
Defined.

(** ** A body without placeholder *)

Lemma replace_dollar_at_dollar_free (template s : string) :
  forall before,
    dollar_free s = true -> replace_dollar_at template before false s = s.
Proof.
  induction s as [|c s IH]; intros before Hs; cbn; [reflexivity|].
  cbn in Hs. apply andb_true_iff in Hs as [Hc Hs].
  apply negb_true_iff in Hc. rewrite Hc. now rewrite IH.
Qed.

(** X12.  A command body without [$] is sent as it is, whatever the
    arguments. *)
Theorem substituteArgs_no_placeholder (body : string) (args : list string) :
  dollar_free body = true -> substituteArgs body args = body.
Proof.
  intros Hbody. unfold substituteArgs.
  rewrite replace_dollar_at_dollar_free by exact Hbody.
  rewrite <- (append_empty_r body) at 1.
  rewrite replace_positional_dollar_free by exact Hbody.
  cbn. apply append_empty_r.
Qed.

Lemma substituteArgs_no_placeholder_witness :
  substituteArgs "Run the tests" ["$1"; "$@"] = "Run the tests".
Proof. apply substituteArgs_no_placeholder. reflexivity. Defined.

(** ** The advertised commands *)

Lemma toAvailableCommands_loop_names (cs : list FileSlashCommand) :
  forall seen n,
    In n (map ac_name (toAvailableCommands_loop seen cs))
    <-> In n (map name cs) /\ ~ In n seen.
Proof.
  induction cs as [|c cs IH]; intros seen n; cbn.
  - tauto.
  - destruct (existsb (String.eqb (name c)) seen) eqn:Hseen.
    + apply existsb_exists in Hseen as (x & Hx & Heq).
      apply String.eqb_eq in Heq. subst x.
      rewrite IH. split.
      * intros [H1 H2]. split; [now right|exact H2].
      * intros [[H1|H1] H2]; [subst n; contradiction|now split].
    + assert (Hnot : ~ In (name c) seen).
      { intros Hin. apply not_true_iff_false in Hseen. apply Hseen.
        apply existsb_exists. exists (name c). split; [exact Hin|apply String.eqb_refl]. }
      cbn. rewrite IH. cbn. split.
      * intros [H1|[H1 H2]]; [subst n; split; [now left|exact Hnot]|].
        split; [now right|]. intros Hin. apply H2. now right.
      * intros [[H1|H1] H2]; [now left|].
        destruct (String.eqb_spec (name c) n) as [Heq|Hne]; [now left|].
        right. split; [exact H1|]. intros [H3|H3]; [contradiction|contradiction].
Qed.

Lemma toAvailableCommands_loop_NoDup (cs : list FileSlashCommand) :
  forall seen, List.NoDup (map ac_name (toAvailableCommands_loop seen cs)).
Proof.
  induction cs as [|c cs IH]; intros seen; cbn; [constructor|].
  destruct (existsb (String.eqb (name c)) seen); [apply IH|].
  cbn. constructor; [|apply IH].
  rewrite toAvailableCommands_loop_names. intros [_ H]. apply H. now left.
Qed.

Lemma toAvailableCommands_loop_first (cs : list FileSlashCommand) :
  forall seen a,
    In a (toAvailableCommands_loop seen cs) ->
    exists before c after,
      cs = (before ++ c :: after)%list /\
      Forall (fun c' => name c' <> name c) before /\
      ~ In (name c) seen /\
      a = {| ac_name := name c; ac_description := description c |}.
Proof.
  induction cs as [|c cs IH]; intros seen a; cbn; [tauto|].
  destruct (existsb (String.eqb (name c)) seen) eqn:Hseen.
  - intros Hin. destruct (IH _ _ Hin) as (before & c' & after & -> & Hbefore & Hnew & ->).
    apply existsb_exists in Hseen as (x & Hx & Heq).
    apply String.eqb_eq in Heq. subst x.
    exists (c :: before), c', after. repeat split; [|exact Hnew].
    constructor; [|exact Hbefore]. intros Heq. apply Hnew. now rewrite <- Heq.
  - assert (Hnot : ~ In (name c) seen).
    { intros Hin. apply not_true_iff_false in Hseen. apply Hseen.
      apply existsb_exists. exists (name c). split; [exact Hin|apply String.eqb_refl]. }
    cbn. intros [<-|Hin].
    + exists [], c, cs. repeat split; [constructor|exact Hnot].
    + destruct (IH _ _ Hin) as (before & c' & after & -> & Hbefore & Hnew & ->).
      exists (c :: before), c', after. repeat split.
      * constructor; [|exact Hbefore]. intros Heq. apply Hnew. now left.
      * intros Hs. apply Hnew. now right.
Qed.

(** X13.  The advertised command list has no two entries of the same name;
    the names in it are the names in the catalog; and each entry carries the
    description of the first catalog entry of its name. *)
Theorem toAvailableCommands_first_wins (fileCommands : list FileSlashCommand) :
  List.NoDup (map ac_name (toAvailableCommands fileCommands)) /\
  (forall n, In n (map ac_name (toAvailableCommands fileCommands))
             <-> In n (map name fileCommands)) /\
  (forall a, In a (toAvailableCommands fileCommands) ->
     exists before c after,
       fileCommands = (before ++ c :: after)%list /\
       Forall (fun c' => name c' <> name c) before /\
       a = {| ac_name := name c; ac_description := description c |}).
Proof.
  unfold toAvailableCommands. split; [apply toAvailableCommands_loop_NoDup|]. split.
  - intros n. rewrite toAvailableCommands_loop_names. cbn. tauto.
  - intros a Hin.
    destruct (toAvailableCommands_loop_first _ _ _ Hin) as (before & c & after & H1 & H2 & _ & H3).
    now exists before, c, after.
Qed.

Example loadCommandsFromDir_example :
  loadCommandsFromDir (Some example_dir) project ""
  = [ {| name := "fix"; description := "Fix a bug (project)"; content := "Fix $1";
         source := "(project)" |};
      {| name := "lint"; description := "Run the linter on $@ (project:frontend)";
         content := "Run the linter on $@"; source := "(project:frontend)" |} ].
Proof. reflexivity. Qed.

(** ** The header of a command file *)

Lemma prefix_nil (s : string) : String.prefix "" s = true.
Proof. destruct s; reflexivity. Qed.

Lemma prefix_cons (c d : ascii) (p s : string) :
  String.prefix (String c p) (String d s) = Ascii.eqb c d && String.prefix p s.
Proof.
  cbn. destruct (ascii_dec c d) as [->|Hne].
  - now rewrite Ascii.eqb_refl.
  - apply Ascii.eqb_neq in Hne. now rewrite Hne.
Qed.

Lemma prefix_append (p s : string) : String.prefix p (p ++ s) = true.
Proof.
  induction p as [|c p IH]; [apply prefix_nil|].
  rewrite append_cons, prefix_cons, Ascii.eqb_refl. exact IH.
Qed.

(** The closing marker is found behind a text that holds none. *)
Lemma first_occurrence_marker (a rest : string) :
  no_marker a = true ->
  first_occurrence (String "010" "---") (a ++ String "010" "---" ++ rest)
  = Some (String.length a).
Proof.
  induction a as [|c a IH]; intros Ha.
  - rewrite append_nil.
    change (String "010" ("---" ++ rest)) with (String "010" "---" ++ rest).
    destruct rest; reflexivity.
  - cbn [no_marker] in Ha. apply andb_true_iff in Ha as [Hc Ha].
    rewrite append_cons. cbn [first_occurrence String.length].
    assert (Hno : startsWith (String c (a ++ String "010" "---" ++ rest)) (String "010" "---")
                  = false).
    { unfold startsWith. rewrite prefix_cons.
      unfold is_char in Hc.
      destruct (Ascii.eqb c "010") eqn:Ec.
      - rewrite Ascii.eqb_sym, Ec. cbn [andb].
        destruct a as [|d a].
        + reflexivity.
        + rewrite append_cons, prefix_cons.
          apply negb_true_iff in Hc. now rewrite Ascii.eqb_sym, Hc.
      - now rewrite Ascii.eqb_sym, Ec. }
    rewrite Hno, (IH Ha). reflexivity.
Qed.

Lemma no_marker_app (x y : string) :
  no_newline x = true -> no_marker (x ++ y) = no_marker y.
Proof.
  induction x as [|c x IH]; intros Hx; [reflexivity|].
  cbn [no_newline] in Hx. apply andb_true_iff in Hx as [Hc Hx].
  apply negb_true_iff in Hc.
  rewrite append_cons. cbn [no_marker]. rewrite Hc. now apply IH.
Qed.

Lemma no_newline_app (x y : string) :
  no_newline (x ++ y) = no_newline x && no_newline y.
Proof.
  induction x as [|c x IH]; [reflexivity|].
  rewrite append_cons. cbn [no_newline]. now rewrite IH, andb_assoc.
Qed.

Lemma is_word_not (c d : ascii) : is_word c = true -> is_word d = false -> c <> d.
Proof. intros Hc Hd ->. congruence. Qed.

Lemma all_word_no_newline (k : string) : all_word k = true -> no_newline k = true.
Proof.
  induction k as [|c k IH]; [reflexivity|]. cbn.
  intros H. apply andb_true_iff in H as [Hc Hk]. rewrite (IH Hk), andb_true_r.
  apply negb_true_iff. unfold is_char. apply Ascii.eqb_neq.
  now apply (is_word_not c "010").
Qed.

Lemma no_line_terminator_no_newline (v : string) :
  no_line_terminator v = true -> no_newline v = true.
Proof.
  induction v as [|c v IH]; [reflexivity|]. cbn.
  intros H. apply andb_true_iff in H as [Hc Hv]. rewrite (IH Hv), andb_true_r.
  apply negb_true_iff in Hc. apply negb_true_iff.
  unfold is_line_terminator in Hc. apply orb_false_iff in Hc as [Hc _].
  unfold is_char. apply Ascii.eqb_neq. intros ->. discriminate.
Qed.

Lemma header_line_no_newline (kv : string * string) :
  header_ok kv -> no_newline (header_line kv) = true.
Proof.
  intros (_ & Hk & Hv & _). unfold header_line.
  rewrite !no_newline_app, (all_word_no_newline _ Hk), (no_line_terminator_no_newline _ Hv).
  reflexivity.
Qed.

Lemma join_cons (sep x : string) (l : list string) :
  l <> [] -> join_with sep (x :: l) = x ++ sep ++ join_with sep l.
Proof. destruct l; [congruence|reflexivity]. Qed.

Lemma header_line_block_line (kv : string * string) (tail : string) :
  header_ok kv -> no_newline tail = true -> block_line (header_line kv ++ tail).
Proof.
  intros Hkv Htail. split.
  - now rewrite no_newline_app, (header_line_no_newline _ Hkv).
  - destruct Hkv as (Hne & Hk & _). unfold header_line.
    destruct (fst kv) as [|c k]; [congruence|].
    exists c, (k ++ ": " ++ snd kv ++ tail). split.
    + now rewrite !append_cons, !append_assoc.
    + cbn in Hk. apply andb_true_iff in Hk as [Hc _].
      unfold is_char. apply Ascii.eqb_neq. now apply (is_word_not c "-").
Qed.

(** No closing marker in a header block made of such lines. *)
Lemma no_marker_block (ls : list string) :
  Forall block_line ls ->
  no_marker (String "010" (join_with (String "010" "") ls)) = true.
Proof.
  induction 1 as [|l ls Hl _ IH]; [reflexivity|].
  destruct Hl as (Hnl & c & r & Heq & Hc).
  destruct ls as [|l' ls].
  - cbn [join_with no_marker]. change (is_char "010" "010") with true. cbv iota.
    rewrite Heq, Hc. cbn [negb andb].
    rewrite <- Heq, <- (append_empty_r l). now rewrite no_marker_app.
  - rewrite join_cons by discriminate.
    cbn [no_marker]. change (is_char "010" "010") with true. cbv iota.
    rewrite Heq, append_cons, Hc. cbn [negb andb]. rewrite <- append_cons, <- Heq.
    rewrite no_marker_app by exact Hnl. exact IH.
Qed.

Lemma split_lines_one (x : string) : no_newline x = true -> split_lines x = [x].
Proof.
  induction x as [|c x IH]; [reflexivity|]. cbn.
  intros H. apply andb_true_iff in H as [Hc Hx]. apply negb_true_iff in Hc.
  now rewrite Hc, (IH Hx).
Qed.

Lemma split_lines_app (x y : string) :
  no_newline x = true -> split_lines (x ++ String "010" y) = x :: split_lines y.
Proof.
  induction x as [|c x IH]; [reflexivity|].
  rewrite append_cons. cbn.
  intros H. apply andb_true_iff in H as [Hc Hx]. apply negb_true_iff in Hc.
  now rewrite Hc, (IH Hx).
Qed.

Lemma split_lines_block (ls : list string) :
  Forall block_line ls -> ls <> [] ->
  split_lines (join_with (String "010" "") ls) = ls.
Proof.
  induction 1 as [|l ls Hl Hall IH]; [congruence|]. intros _.
  destruct Hl as (Hnl & _). destruct ls as [|l' ls].
  - cbn [join_with]. now apply split_lines_one.
  - rewrite join_cons by discriminate.
    change (String "010" "" ++ join_with (String "010" "") (l' :: ls))
      with (String "010" (join_with (String "010" "") (l' :: ls))).
    rewrite split_lines_app by exact Hnl.
    now rewrite IH.
Qed.

Lemma Forall_block_line (f : string * string -> string) (lines : list (string * string)) :
  (forall kv, header_ok kv -> block_line (f kv)) ->
  Forall header_ok lines -> Forall block_line (map f lines).
Proof.
  intros Hf. induction 1 as [|kv lines Hkv _ IH]; cbn [map]; constructor; auto.
Qed.

Lemma length_trimEnd (s : string) : String.length (trimEnd s) <= String.length s.
Proof.
  induction s as [|c s IH]; [reflexivity|]. cbn.
  destruct (trimEnd s); [destruct (is_space c)|]; cbn in *; lia.
Qed.

Lemma length_trimStart (s : string) : String.length (trimStart s) <= String.length s.
Proof.
  induction s as [|c s IH]; [reflexivity|]. cbn.
  destruct (is_space c); cbn; lia.
Qed.

(** A text that [trim] leaves alone has no white space at its head. *)
Lemma trimStart_fixed (v : string) : trim v = v -> trimStart v = v.
Proof.
  unfold trim. destruct v as [|c v]; [reflexivity|]. cbn [trimStart].
  destruct (is_space c); [|reflexivity].
  intros H. exfalso.
  pose proof (length_trimEnd (trimStart v)) as H1.
  pose proof (length_trimStart v) as H2.
  rewrite H in H1. cbn in H1. lia.
Qed.

Lemma span_word_key (k rest : string) :
  all_word k = true ->
  match rest with String c _ => is_word c = false | EmptyString => True end ->
  span_word (k ++ rest) = (k, rest).
Proof.
  intros Hk Hrest. induction k as [|c k IH].
  - rewrite append_nil. destruct rest as [|d rest]; [reflexivity|]. cbn. now rewrite Hrest.
  - cbn in Hk. apply andb_true_iff in Hk as [Hc Hk].
    rewrite append_cons. cbn [span_word]. now rewrite Hc, (IH Hk).
Qed.

Lemma match_header_line (kv : string * string) :
  header_ok kv -> match_header (header_line kv) = Some kv.
Proof.
  intros (Hne & Hk & Hv & Ht). unfold match_header, header_line.
  rewrite (span_word_key (fst kv) (": " ++ snd kv) Hk) by reflexivity.
  rewrite (proj2 (String.eqb_neq _ _) Hne) || idtac.
  destruct (fst kv) as [|c k] eqn:Ek; [congruence|]. cbn [truthy_string].
  change (": " ++ snd kv) with (String ":" (String " " (snd kv))).
  change (is_char ":" ":") with true. cbv iota.
  cbn [trimStart]. change (is_space " ") with true. cbv iota.
  rewrite (trimStart_fixed _ Ht), Hv. destruct kv as [k' v]. cbn in *. now subst k'.
Qed.

(** A header line with a value, when the line ends with a carriage return,
    has a line terminator in what the second group would take. *)
Lemma match_header_carriage_return (kv : string * string) :
  header_ok kv -> snd kv <> "" ->
  match_header (header_line kv ++ String "013" "") = None.
Proof.
  intros (Hne & Hk & Hv & Ht) Hval. unfold match_header, header_line.
  rewrite !append_assoc.
  rewrite (span_word_key (fst kv) (": " ++ snd kv ++ String "013" "") Hk) by reflexivity.
  destruct (fst kv) as [|c k] eqn:Ek; [congruence|]. cbn [truthy_string].
  change (": " ++ snd kv ++ String "013" "")
    with (String ":" (String " " (snd kv ++ String "013" ""))).
  change (is_char ":" ":") with true. cbv iota.
  cbn [trimStart]. change (is_space " ") with true. cbv iota.
  pose proof (trimStart_fixed _ Ht) as Hs.
  destruct (snd kv) as [|d v] eqn:Ev; [congruence|].
  rewrite append_cons. cbn [trimStart] in *.
  destruct (is_space d) eqn:Ed.
  - exfalso. pose proof (length_trimStart v) as H. rewrite Hs in H. cbn in H. lia.
  - assert (Hcr : no_line_terminator (String d (v ++ String "013" "")) = false).
    { clear -Hv. cbn in *. apply andb_true_iff in Hv as [Hd Hv]. rewrite Hd. cbn [andb].
      induction v as [|e v IH]; [reflexivity|].
      rewrite append_cons. cbn in *. apply andb_true_iff in Hv as [He Hv].
      rewrite He. cbn [andb]. now apply IH. }
    now rewrite Hcr.
Qed.

Lemma fold_header_lines (lines : list (string * string)) :
  Forall header_ok lines ->
  forall fm,
    fold_left (fun fm line =>
                 match match_header line with
                 | Some (key, value) => frontmatter_set key (trim value) fm
                 | None => fm
                 end) (map header_line lines) fm
    = fold_left (fun fm kv => frontmatter_set (fst kv) (snd kv) fm) lines fm.
Proof.
  induction 1 as [|kv lines Hkv _ IH]; intros fm; [reflexivity|].
  cbn [map fold_left]. rewrite (match_header_line kv Hkv).
  destruct Hkv as (_ & _ & _ & Ht). destruct kv as [k v]. cbn [fst snd] in *.
  rewrite Ht. apply IH.
Qed.

Lemma substring_skip (a b : string) (n : nat) :
  substring (String.length a) n (a ++ b) = substring 0 n b.
Proof.
  induction a as [|c a IH]; [reflexivity|].
  rewrite append_cons. cbn [String.length substring]. exact IH.
Qed.

Lemma slice_middle (a b c : string) :
  slice (a ++ b ++ c) (String.length a) (String.length a + String.length b) = b.
Proof.
  unfold slice.
  replace (String.length a + String.length b - String.length a) with (String.length b) by lia.
  rewrite substring_skip. apply substring_head.
Qed.

Lemma slice_from_tail (a b : string) : slice_from (a ++ b) (String.length a) = b.
Proof.
  unfold slice_from. rewrite length_append.
  replace (String.length a + String.length b - String.length a) with (String.length b) by lia.
  apply substring_tail.
Qed.

(** The search of the closing marker, and the two slices, for a file whose
    header block [block], behind the four code units [opening], holds no
    marker. *)
Lemma header_found (c4 : ascii) (block rest : string) :
  no_marker (String c4 block) = true ->
  let content := String "-" (String "-" (String "-" (String c4 ""))) ++ block
                 ++ String "010" "---" ++ rest in
  startsWith content "---" = true /\
  indexOf_from (String "010" "---") content 3 = Some (4 + String.length block) /\
  slice content 4 (4 + String.length block) = block /\
  slice_from content (4 + String.length block + 4) = rest.
Proof.
  intros Hsafe. cbn zeta.
  split; [|split; [|split]].
  - reflexivity.
  - change (String "-" (String "-" (String "-" (String c4 ""))) ++ block
            ++ String "010" "---" ++ rest)
      with (String "-" (String "-" (String "-"
              (String c4 block ++ String "010" "---" ++ rest)))).
    cbn [indexOf_from].
    change (indexOf_from ?n ?x 0) with (first_occurrence n x).
    now rewrite (first_occurrence_marker _ rest Hsafe).
  - apply (slice_middle (String "-" (String "-" (String "-" (String c4 ""))))).
  - replace (String "-" (String "-" (String "-" (String c4 ""))) ++ block
             ++ String "010" "---" ++ rest)
      with ((String "-" (String "-" (String "-" (String c4 ""))) ++ block
             ++ String "010" "---") ++ rest)
      by (now rewrite !append_assoc).
    replace (4 + String.length block + 4)
      with (String.length (String "-" (String "-" (String "-" (String c4 ""))) ++ block
                           ++ String "010" "---"))
      by (rewrite !length_append; cbn [String.length]; lia).
    apply slice_from_tail.
Qed.

(** X14.  A command file that begins with a header is read back.  The file
    is the marker [---], then header lines [key: value] (each key a word,
    each value without line terminator and without white space at its
    ends), then a line that begins with [---], then the rest.  Its
    frontmatter holds each key with its value, a later line of the same key
    replacing the value of an earlier one, and its content is the rest
    without the white space at its ends. *)
Theorem parseFrontmatter_header (lines : list (string * string)) (rest : string) :
  Forall header_ok lines ->
  parseFrontmatter (with_header lines rest)
  = (fold_left (fun fm kv => frontmatter_set (fst kv) (snd kv) fm) lines [], trim rest).
Proof.
  intros Hlines.
  assert (Hbl : Forall block_line (map header_line lines)).
  { apply Forall_block_line; [|exact Hlines]. intros kv Hkv.
    rewrite <- (append_empty_r (header_line kv)). now apply header_line_block_line. }
  set (block := join_with (String "010" "") (map header_line lines)).
  destruct (header_found "010" block rest (no_marker_block _ Hbl))
    as (Hstart & Hidx & Hblock & Hrest).
  unfold parseFrontmatter, with_header. fold block.
  change ("---" ++ String "010" block ++ String "010" "---" ++ rest)
    with (String "-" (String "-" (String "-" (String "010" ""))) ++ block
          ++ String "010" "---" ++ rest).
  rewrite Hstart, Hidx. cbv zeta. cbn [negb]. rewrite Hblock, Hrest. f_equal.
  destruct lines as [|kv lines]; [reflexivity|].
  unfold block. rewrite split_lines_block by (assumption || discriminate).
  now apply fold_header_lines.
Qed.

Lemma fold_unmatched (ls : list string) :
  Forall (fun l => match_header l = None) ls ->
  forall fm,
    fold_left (fun fm line =>
                 match match_header line with
                 | Some (key, value) => frontmatter_set key (trim value) fm
                 | None => fm
                 end) ls fm
    = fm.
Proof.
  induction 1 as [|l ls Hl _ IH]; intros fm; [reflexivity|].
  cbn [fold_left]. rewrite Hl. apply IH.
Qed.

(** X15.  The same file with CRLF line ends loses its header.  When every
    header line has a value and ends, like the opening marker, with a
    carriage return before its line feed, no header line is recognised: the
    second group of the regular expression cannot take the carriage return,
    and the end of the input is not reached.  The frontmatter is empty, the
    description in it included, and the content is the rest without the
    white space at its ends. *)
Theorem parseFrontmatter_crlf (lines : list (string * string)) (rest : string) :
  Forall header_ok lines -> Forall (fun kv => snd kv <> "") lines ->
  parseFrontmatter (with_header_crlf lines rest) = ([], trim rest).
Proof.
  intros Hlines Hvalues.
  set (cr := fun kv => header_line kv ++ String "013" "").
  assert (Hbl : Forall block_line (map cr lines)).
  { apply Forall_block_line; [|exact Hlines]. intros kv Hkv.
    now apply header_line_block_line. }
  set (block := String "010" (join_with (String "010" "") (map cr lines))).
  destruct (header_found "013" block rest)
    as (Hstart & Hidx & Hblock & Hrest).
  { unfold block.
    change (String "013" ?x) with (String "013" "" ++ x).
    rewrite (no_marker_app (String "013" "")) by reflexivity.
    now apply no_marker_block. }
  unfold parseFrontmatter, with_header_crlf. fold cr.
  change ("---" ++ String "013" (String "010" (join_with (String "010" "") (map cr lines)))
            ++ String "010" "---" ++ rest)
    with (String "-" (String "-" (String "-" (String "013" ""))) ++ block
          ++ String "010" "---" ++ rest).
  rewrite Hstart, Hidx. cbv zeta. cbn [negb]. rewrite Hblock, Hrest. f_equal.
  unfold block. cbn [split_lines]. change (is_char "010" "010") with true. cbv iota.
  cbn [fold_left]. change (match_header "") with (@None (string * string)). cbv iota.
  destruct lines as [|kv lines]; [reflexivity|].
  rewrite split_lines_block by (assumption || discriminate).
  apply fold_unmatched.
  clear -Hlines Hvalues. revert Hvalues.
  induction Hlines as [|kv' lines' Hkv _ IH]; intros Hvalues; cbn [map]; constructor.
  - apply Forall_cons_iff in Hvalues as [Hv _]. now apply match_header_carriage_return.
  - apply Forall_cons_iff in Hvalues as [_ Hvs]. now apply IH.
Qed.

(** ** The walk through the command directories *)

Lemma Dirent_nested_ind (P : Dirent -> Prop) :
  (forall entryName raw, P (FileEntry entryName raw)) ->
  (forall entryName, P (DirEntry entryName None)) ->
  (forall entryName es, Forall P es -> P (DirEntry entryName (Some es))) ->
  (forall entryName, P (OtherEntry entryName)) ->
  forall e, P e.
Proof.
  intros Hf Hn Hd Ho. fix IH 1. intros [entryName raw|entryName [es|]|entryName].
  - apply Hf.
  - apply Hd. induction es as [|e es IHes]; constructor; [apply IH|exact IHes].
  - apply Hn.
  - apply Ho.
Qed.

Lemma file_at_commands (es : list Dirent) (dirs : list string) (entryName raw : string) :
  file_at es dirs entryName raw ->
  forall scope subdir,
    endsWith entryName ".md" = true ->
    In (command_of_file scope (subdir_of subdir dirs) entryName raw)
       (flat_map (load_entry scope subdir) es).
Proof.
  induction 1 as [es entryName raw Hin|es d es' dirs entryName raw Hin _ IH];
    intros scope subdir Hmd; apply in_flat_map.
  - exists (FileEntry entryName (Some raw)). split; [exact Hin|].
    cbn. rewrite Hmd. now left.
  - exists (DirEntry d (Some es')). split; [exact Hin|].
    cbn [load_entry]. exact (IH scope (newSubdir subdir d) Hmd).
Qed.

Lemma commands_file_at (e : Dirent) :
  forall scope subdir c es,
    In e es -> In c (load_entry scope subdir e) ->
    exists dirs entryName raw,
      file_at es dirs entryName raw /\ endsWith entryName ".md" = true /\
      c = command_of_file scope (subdir_of subdir dirs) entryName raw.
Proof.
  induction e as [entryName raw|entryName|entryName es' IH|entryName]
    using Dirent_nested_ind; intros scope subdir c es He Hc; cbn [load_entry] in Hc.
  - destruct (endsWith entryName ".md") eqn:Hmd; [|destruct Hc].
    destruct raw as [text|]; [|destruct Hc]. destruct Hc as [<-|[]].
    exists [], entryName, text. split; [now apply file_here|]. now split.
  - destruct Hc.
  - apply in_flat_map in Hc as (e' & He' & Hc).
    rewrite List.Forall_forall in IH.
    destruct (IH e' He' scope (newSubdir subdir entryName) c es' He' Hc)
      as (dirs & n & raw & Hat & Hmd & ->).
    exists (entryName :: dirs), n, raw. split; [|now split].
    now apply (file_below es entryName es').
  - destruct Hc.
Qed.

Lemma subdir_of_nonempty (dirs : list string) :
  forall subdir,
    subdir <> "" ->
    subdir_of subdir dirs
    = match dirs with
      | [] => subdir
      | _ => subdir ++ ":" ++ join_with ":" dirs
      end.
Proof.
  induction dirs as [|d dirs IH]; intros subdir Hne; [reflexivity|].
  unfold subdir_of. cbn [fold_left]. fold (subdir_of (newSubdir subdir d) dirs).
  assert (Hnew : newSubdir subdir d = subdir ++ ":" ++ d).
  { unfold newSubdir. destruct subdir; [congruence|reflexivity]. }
  rewrite Hnew, IH.
  - destruct dirs as [|d' dirs]; [reflexivity|].
    rewrite (join_cons ":" d) by discriminate. now rewrite !append_assoc.
  - destruct subdir; [congruence|discriminate].
Qed.

Lemma subdir_of_top (dirs : list string) :
  Forall (fun d => d <> "") dirs -> subdir_of "" dirs = join_with ":" dirs.
Proof.
  destruct 1 as [|d dirs Hd _]; [reflexivity|].
  unfold subdir_of. cbn [fold_left]. change (newSubdir "" d) with d.
  fold (subdir_of d dirs). rewrite (subdir_of_nonempty dirs d Hd).
  destruct dirs; reflexivity.
Qed.

Lemma join_nonempty (d : string) (dirs : list string) :
  d <> "" -> join_with ":" (d :: dirs) <> "".
Proof.
  intros Hd. destruct d as [|c d]; [congruence|].
  destruct dirs; [discriminate|]. rewrite join_cons by discriminate. discriminate.
Qed.

Lemma substring_split (k n : nat) :
  forall s, String.length s = n + k -> s = substring 0 n s ++ substring n k s.
Proof.
  induction n as [|n IH]; intros s Hk.
  - cbn [Nat.add] in Hk. subst k. rewrite substring_whole.
    destruct s; reflexivity.
  - destruct s as [|c s]; [discriminate|]. cbn [substring].
    rewrite append_cons. f_equal. apply IH. cbn in Hk. lia.
Qed.

Lemma endsWith_md (entryName : string) :
  endsWith entryName ".md" = true -> entryName = slice_to_last entryName 3 ++ ".md".
Proof.
  unfold endsWith, slice_to_last. cbn [String.length].
  intros H. apply andb_true_iff in H as [Hlen Heq].
  apply Nat.leb_le in Hlen. apply String.eqb_eq in Heq.
  rewrite <- Heq. apply substring_split. lia.
Qed.

Lemma describe_label (fm : list (string * string)) (body label : string) :
  describe fm body label = label \/
  exists d, d <> "" /\ describe fm body label = d ++ " " ++ label.
Proof.
  unfold describe.
  match goal with
  | |- context [if truthy_string ?x then ?x ++ " " ++ label else label] =>
      destruct x as [|c d]; [now left|right]
  end.
  exists (String c d). split; [discriminate|reflexivity].
Qed.

(** X16.  The commands of a directory are its command files.  A command is
    loaded from the entries [es] exactly when, behind some directories
    [dirs] that can be listed, there is a regular file that can be read and
    whose name ends with [.md]: the command is the one made of this file,
    with the [subdir] the walk has built.  Files of another name,
    directories that cannot be listed, files that cannot be read and
    entries that are neither file nor directory give no command.  The name
    of the command is the file name without [.md]; its label is [(user)] or
    [(project)] at the top and names the directories, joined by colons,
    below; its content is the body [parseFrontmatter] gives; and its
    description is the label, or a text that is not empty, a space and the
    label. *)
Theorem loaded_commands_are_the_md_files (es : list Dirent) (scope : Source) :
  (forall c,
      In c (loadCommandsFromDir (Some es) scope "") <->
      exists dirs entryName raw,
        file_at es dirs entryName raw /\ endsWith entryName ".md" = true /\
        c = command_of_file scope (subdir_of "" dirs) entryName raw) /\
  (forall dirs entryName raw,
      Forall (fun d => d <> "") dirs -> endsWith entryName ".md" = true ->
      let c := command_of_file scope (subdir_of "" dirs) entryName raw in
      entryName = name c ++ ".md" /\
      source c = label_of scope dirs /\
      content c = snd (parseFrontmatter raw) /\
      (description c = source c \/
       exists d, d <> "" /\ description c = d ++ " " ++ source c)).
Proof.
  split.
  - intros c. unfold loadCommandsFromDir. split.
    + intros Hc. apply in_flat_map in Hc as (e & He & Hc).
      exact (commands_file_at e scope "" c es He Hc).
    + intros (dirs & n & raw & Hat & Hmd & ->).
      exact (file_at_commands es dirs n raw Hat scope "" Hmd).
  - intros dirs n raw Hdirs Hmd. cbn zeta. unfold command_of_file.
    destruct (parseFrontmatter raw) as [fm body]. cbn [name source content description snd].
    split; [now apply endsWith_md|]. split; [|split; [reflexivity|apply describe_label]].
    rewrite (subdir_of_top dirs Hdirs). unfold sourceStr, label_of.
    destruct dirs as [|d dirs]; [now destruct scope|].
    apply Forall_cons_iff in Hdirs as [Hd _].
    pose proof (join_nonempty d dirs Hd) as Hne.
    destruct (join_with ":" (d :: dirs)); [congruence|]. now destruct scope.
Qed.

(** X17.  A user command hides the project commands of its name.  The
    catalog holds the user commands before the project commands, and the
    advertised list keeps the first entry of a name: when some user command
    has the name of an advertised entry, the entry is made of a user
    command, with its description. *)
Theorem user_commands_hide_project_commands
    (userDir projectDir : option (list Dirent)) (a : AvailableCommand) :
  In a (toAvailableCommands (loadSlashCommands userDir projectDir)) ->
  In (ac_name a) (map name (loadCommandsFromDir userDir user "")) ->
  exists c, In c (loadCommandsFromDir userDir user "") /\
            a = {| ac_name := name c; ac_description := description c |}.
Proof.
  unfold toAvailableCommands, loadSlashCommands. intros Ha Hname.
  destruct (toAvailableCommands_loop_first _ _ _ Ha)
    as (before & c & after & Heq & Hbefore & _ & ->).
  cbn [ac_name] in Hname. apply in_map_iff in Hname as (u & Hu & Hin).
  exists c. split; [|reflexivity].
  rewrite List.Forall_forall in Hbefore.
  apply app_eq_app in Heq as (l & [[Hl Hr]|[Hl Hr]]).
  - destruct l as [|c' l].
    + rewrite app_nil_r in Hl. subst before. now destruct (Hbefore u Hin).
    + cbn in Hr. injection Hr as <- _. rewrite Hl.
      apply List.in_app_iff. right. now left.
  - destruct (Hbefore u); [|exact Hu]. rewrite Hl. apply List.in_app_iff. now left.
Qed.

Lemma user_commands_hide_project_commands_witness :
  let userDir := Some [FileEntry "fix.md" (Some "Mine")] in
  let a := {| ac_name := "fix"; ac_description := "Mine (user)" |} in
  In a (toAvailableCommands (loadSlashCommands userDir (Some example_dir))) /\
  exists c, In c (loadCommandsFromDir userDir user "") /\
            a = {| ac_name := name c; ac_description := description c |}.
Proof.
  intros userDir a.
  assert (Ha : In a (toAvailableCommands (loadSlashCommands userDir (Some example_dir))))
    by (now left).
  split; [exact Ha|].
  apply (user_commands_hide_project_commands userDir (Some example_dir) a Ha).
  now left.
Defined.

Lemma loaded_commands_are_the_md_files_witness :
  let c := command_of_file project (subdir_of "" ["frontend"]) "lint.md"
             "Run the linter on $@" in
  In c (loadCommandsFromDir (Some example_dir) project "") /\
  ("lint.md" = name c ++ ".md" /\
   source c = "(project:frontend)" /\
   content c = snd (parseFrontmatter "Run the linter on $@") /\
   (description c = source c \/
    exists d, d <> "" /\ description c = d ++ " " ++ source c)).
Proof.
  intros c. split.
  - apply (proj1 (loaded_commands_are_the_md_files example_dir project)).
    exists ["frontend"], "lint.md", "Run the linter on $@".
    split; [|split; reflexivity].
    apply (file_below example_dir "frontend"
             [ FileEntry "lint.md" (Some "Run the linter on $@");
               DirEntry "deep" (Some [ FileEntry "x.md" None ]) ]).
    + right. right. now left.
    + apply file_here. now left.
  - apply (proj2 (loaded_commands_are_the_md_files example_dir project)
             ["frontend"] "lint.md" "Run the linter on $@").
    + repeat constructor. discriminate.
    + reflexivity.
Defined.

Lemma parseFrontmatter_header_witness :
  parseFrontmatter (with_header [("description", "Fix a bug"); ("model", "fast");
                                 ("description", "Fix it")] (String "010" "Fix $1 "))
  = ([("description", "Fix it"); ("model", "fast")], "Fix $1").
Proof.
  apply (parseFrontmatter_header
           [("description", "Fix a bug"); ("model", "fast"); ("description", "Fix it")]
           (String "010" "Fix $1 ")).
  repeat constructor; discriminate.
Defined.

Lemma parseFrontmatter_crlf_witness :
  parseFrontmatter (with_header_crlf [("description", "Fix a bug")]
                      (String "013" (String "010" "Fix $1")))
  = ([], "Fix $1").
Proof.
  apply (parseFrontmatter_crlf [("description", "Fix a bug")]
           (String "013" (String "010" "Fix $1"))).
  - repeat constructor; discriminate.
  - repeat constructor. discriminate.
Defined.

End SlashCommandsFacts.

(* ===================================================================== *)
(** * Properties of src/acp/translate/prompt.ts                           *)
(* ===================================================================== *)

Module TranslateFacts.
Import JS.
Import Translate.

(** ** [Buffer.byteLength] on well-formed base64 *)

Lemma base64_char_not_pad (n : nat) : Ascii.eqb (base64_char n) "=" = false.
Proof.
  unfold base64_char.
  assert (Hlt : n mod 64 < 64) by (apply Nat.mod_upper_bound; discriminate).
  revert Hlt. generalize (n mod 64) as k. intros k Hlt.
  do 64 (destruct k as [|k]; [reflexivity|]).
  lia.
Qed.

Lemma is_pad_at_block (c1 c2 c3 c4 : ascii) (s : string) (i : nat) :
  is_pad_at (String c1 (String c2 (String c3 (String c4 s)))) (4 + i) = is_pad_at s i.
Proof. reflexivity. Qed.

Lemma three_quarters_block (y : nat) : ((4 + y) * 3) / 4 = 3 + (y * 3) / 4.
Proof.
  replace ((4 + y) * 3) with (3 * 4 + y * 3) by lia.
  now rewrite Nat.div_add_l by discriminate.
Qed.

(** Four more code units in front of a text of two code units or more add
    three to its byte length. *)
Lemma byteLength_base64_block (c1 c2 c3 c4 : ascii) (s : string) :
  2 <= String.length s ->
  byteLength_base64 (String c1 (String c2 (String c3 (String c4 s))))
  = 3 + byteLength_base64 s.
Proof.
  intros Hlen. unfold byteLength_base64.
  cbn [String.length].
  set (n := String.length s) in *.
  replace (S (S (S (S n))) - 1) with (4 + (n - 1)) by lia.
  rewrite is_pad_at_block.
  set (m := if is_pad_at s (n - 1) then n - 1 else n).
  assert (Hm : 1 <= m) by (subst m; destruct (is_pad_at s (n - 1)); lia).
  replace (if is_pad_at s (n - 1) then 4 + (n - 1) else S (S (S (S n)))) with (4 + m)
    by (subst m; destruct (is_pad_at s (n - 1)); lia).
  replace (4 + m - 1) with (4 + (m - 1)) by lia.
  rewrite is_pad_at_block.
  replace (Nat.ltb 1 (4 + m)) with true by (symmetry; apply Nat.ltb_lt; lia).
  cbn [andb].
  destruct (Nat.ltb_spec 1 m) as [Hgt|Hle]; cbn [andb].
  - destruct (is_pad_at s (m - 1)); apply three_quarters_block.
  - assert (Hone : m = 1) by lia. subst m. rewrite Hone.
    destruct (is_pad_at s (1 - 1)); reflexivity.
Qed.

Lemma base64_encode_length (bytes : list ascii) :
  bytes <> [] -> 2 <= String.length (base64_encode bytes).
Proof.
  destruct bytes as [|a [|b [|c rest]]]; [congruence| | |]; intros _;
    cbn [base64_encode String.length]; lia.
Qed.

Lemma base64_encode_block (a b c : ascii) (rest : list ascii) :
  base64_encode (a :: b :: c :: rest)
  = String (base64_char (nat_of_ascii a / 4))
      (String (base64_char ((nat_of_ascii a mod 4) * 16 + nat_of_ascii b / 16))
         (String (base64_char ((nat_of_ascii b mod 16) * 4 + nat_of_ascii c / 64))
            (String (base64_char (nat_of_ascii c mod 64)) (base64_encode rest)))).
Proof. reflexivity. Qed.

Lemma byteLength_base64_encode_upto (n : nat) :
  forall bytes : list ascii,
    length bytes <= n -> byteLength_base64 (base64_encode bytes) = length bytes.
Proof.
  induction n as [|n IH]; intros bytes Hlen.
  - destruct bytes; [reflexivity|simpl in Hlen; lia].
  - destruct bytes as [|a [|b [|c rest]]].
    + reflexivity.
    + reflexivity.
    + cbn [base64_encode]. unfold byteLength_base64. cbn [String.length].
      cbn [Nat.sub is_pad_at String.get]. cbn.
      rewrite base64_char_not_pad. reflexivity.
    + rewrite base64_encode_block.
      destruct rest as [|d rest'] eqn:Hrest.
      * unfold byteLength_base64. cbn [base64_encode String.length].
        cbn [Nat.sub is_pad_at String.get]. rewrite base64_char_not_pad.
        cbn. rewrite base64_char_not_pad. reflexivity.
      * rewrite byteLength_base64_block by (apply base64_encode_length; discriminate).
        rewrite IH; [reflexivity|]. simpl in *. lia.
Qed.

(** ** The loop of [promptToPiMessage] *)

Section Host.

Variable randomUUID : nat -> string.

Local Abbreviation step := (promptToPiMessage_step randomUUID).

(** The message text built by the loop depends on the text so far and on
    the blocks only. *)
Lemma message_of_fold (blocks : list ContentBlock) :
  forall m m' d d',
    message m = message m' ->
    message (fst (fold_left step blocks (m, d)))
    = message (fst (fold_left step blocks (m', d'))).
Proof.
  induction blocks as [|b blocks IH]; intros m m' d d' Hm; [exact Hm|].
  cbn [fold_left]. 
  destruct (step (m, d) b) as [m1 d1] eqn:E1.
  destruct (step (m', d') b) as [m1' d1'] eqn:E1'.
  apply IH.
  destruct b as [text|uri|data mime [u|]|r|data mime|]; cbn in E1, E1';
    inversion E1; inversion E1'; subst; cbn; now rewrite ?Hm.
Qed.

(** The loop only adds attachments, behind those already there. *)
Lemma attachments_of_fold (blocks : list ContentBlock) :
  forall m d,
    exists more,
      attachments (fst (fold_left step blocks (m, d))) = (attachments m ++ more)%list.
Proof.
  induction blocks as [|b blocks IH]; intros m d.
  - exists []. cbn. now rewrite app_nil_r.
  - cbn [fold_left].
    destruct (step (m, d) b) as [m1 d1] eqn:E1.
    destruct (IH m1 d1) as [more Hmore]. rewrite Hmore.
    destruct b as [text|uri|data mime [u|]|r|data mime|]; cbn in E1;
      inversion E1; subst; cbn; try (now exists more).
    + eexists. now rewrite <- app_assoc.
    + eexists. now rewrite <- app_assoc.
Qed.

(** ** Decoding the base64 text of bytes *)

Lemma base64_value_char (k : nat) : k < 64 -> base64_value (base64_char k) = Some k.
Proof.
  intros Hlt. do 64 (destruct k as [|k]; [reflexivity|]). lia.
Qed.

Lemma base64_sextets_char (k : nat) (rest : string) :
  k < 64 -> base64_sextets (String (base64_char k) rest) = k :: base64_sextets rest.
Proof.
  intros Hlt. cbn [base64_sextets].
  now rewrite base64_char_not_pad, (base64_value_char k Hlt).
Qed.

(** The six-bit groups of three bytes, and the bytes they give back. *)
Lemma sextets_of_bytes (n m k : nat) :
  n < 256 -> m < 256 -> k < 256 ->
  n / 4 < 64 /\ (n mod 4) * 16 + m / 16 < 64 /\
  (m mod 16) * 4 + k / 64 < 64 /\ k mod 64 < 64 /\
  n / 4 * 4 + ((n mod 4) * 16 + m / 16) / 16 = n /\
  (((n mod 4) * 16 + m / 16) mod 16) * 16 + ((m mod 16) * 4 + k / 64) / 4 = m /\
  (((m mod 16) * 4 + k / 64) mod 4) * 64 + k mod 64 = k.
Proof.
  intros Hn Hm Hk.
  zify. Z.to_euclidean_division_equations. lia.
Qed.

Lemma base64_decode_encode_upto (n : nat) :
  forall bytes : list ascii, length bytes <= n -> base64_decode (base64_encode bytes) = bytes.
Proof.
  induction n as [|n IH]; intros bytes Hlen.
  - destruct bytes; [reflexivity|simpl in Hlen; lia].
  - destruct bytes as [|a [|b [|c rest]]].
    + reflexivity.
    + pose proof (nat_ascii_bounded a) as Ha.
      destruct (sextets_of_bytes (nat_of_ascii a) 0 0 Ha ltac:(lia) ltac:(lia))
        as (H1 & H2 & _ & _ & H5 & _).
      unfold base64_decode. cbn [base64_encode].
      replace ((nat_of_ascii a mod 4) * 16) with ((nat_of_ascii a mod 4) * 16 + 0 / 16)
        by (cbn; lia).
      rewrite !base64_sextets_char by assumption.
      cbn [base64_sextets Ascii.eqb Bool.eqb bytes_of_sextets].
      rewrite H5. now rewrite ascii_nat_embedding.
    + pose proof (nat_ascii_bounded a) as Ha. pose proof (nat_ascii_bounded b) as Hb.
      destruct (sextets_of_bytes (nat_of_ascii a) (nat_of_ascii b) 0 Ha Hb ltac:(lia))
        as (H1 & H2 & H3 & _ & H5 & H6 & _).
      unfold base64_decode. cbn [base64_encode].
      replace ((nat_of_ascii b mod 16) * 4) with ((nat_of_ascii b mod 16) * 4 + 0 / 64)
        by (cbn; lia).
      rewrite !base64_sextets_char by assumption.
      cbn [base64_sextets Ascii.eqb Bool.eqb bytes_of_sextets].
      rewrite H5, H6. now rewrite !ascii_nat_embedding.
    + pose proof (nat_ascii_bounded a) as Ha. pose proof (nat_ascii_bounded b) as Hb.
      pose proof (nat_ascii_bounded c) as Hc.
      destruct (sextets_of_bytes (nat_of_ascii a) (nat_of_ascii b) (nat_of_ascii c) Ha Hb Hc)
        as (H1 & H2 & H3 & H4 & H5 & H6 & H7).
      rewrite base64_encode_block. unfold base64_decode.
      rewrite !base64_sextets_char by assumption.
      cbn [bytes_of_sextets]. rewrite H5, H6, H7, !ascii_nat_embedding.
      f_equal. f_equal. f_equal. apply IH. cbn in Hlen. lia.
Qed.

(** C9, as the code has it.  An image block among the blocks of a prompt
    leaves the message text as it is without the block, and adds, behind
    the attachments of the blocks before it, an attachment whose [content]
    is the payload itself, whose [fileName] is [attachment.png] for the
    media type [image/png], [attachment.jpg] for [image/jpeg],
    [attachment.webp] for [image/webp] and [attachment.bin] for every other
    media type, and whose [size] is the byte length Node computes from the
    length of the payload and the pads at its end, without decoding it.
    For a payload that is the padded base64 text of some bytes, this is the
    number of bytes the payload decodes to: the base64 text of any three
    bytes sent as [image/png] gives [size = 3] and [fileName =
    "attachment.png"], as does [AQID], the base64 text of the bytes 1, 2,
    3. *)
Theorem image_block_translation :
  (forall draws before after data mime uri,
      let without := promptToPiMessage randomUUID draws (before ++ after) in
      let result := promptToPiMessage randomUUID draws (before ++ Image data mime uri :: after) in
      let earlier := promptToPiMessage randomUUID draws before in
      message (fst result) = message (fst without) /\
      exists later,
        attachments (fst result)
        = (attachments (fst earlier)
           ++ {| id := match uri with Some u => u | None => randomUUID (snd earlier) end;
                 type := image;
                 fileName := guessFileNameFromMime mime;
                 mimeType := mime;
                 size := byteLength_base64 data;
                 content := data |} :: later)%list) /\
  (guessFileNameFromMime "image/png" = "attachment.png" /\
   guessFileNameFromMime "image/jpeg" = "attachment.jpg" /\
   guessFileNameFromMime "image/webp" = "attachment.webp" /\
   forall mime,
     mime <> "image/png" -> mime <> "image/jpeg" -> mime <> "image/webp" ->
     guessFileNameFromMime mime = "attachment.bin") /\
  (forall bytes : list ascii,
      base64_decode (base64_encode bytes) = bytes /\
      byteLength_base64 (base64_encode bytes) = length (base64_decode (base64_encode bytes))) /\
  (forall (bytes : list ascii) (uri : string),
      length bytes = 3 ->
      fst (promptToPiMessage randomUUID 0 [Image (base64_encode bytes) "image/png" (Some uri)])
      = {| message := "";
           attachments := [ {| id := uri; type := image;
                               fileName := "attachment.png"; mimeType := "image/png";
                               size := 3; content := base64_encode bytes |} ] |}) /\
  base64_encode ["001"; "002"; "003"]%char = "AQID" /\
  promptToPiMessage randomUUID 0 [Image "AQID" "image/png" None]
  = ({| message := "";
        attachments := [ {| id := randomUUID 0; type := image;
                            fileName := "attachment.png"; mimeType := "image/png";
                            size := 3; content := "AQID" |} ] |}, 1).
Proof.
  split; [|split; [|split; [|split; [|split; reflexivity]]]].
  - intros draws before after data mime uri. cbn zeta.
    unfold promptToPiMessage. rewrite !fold_left_app. cbn [fold_left].
    destruct (fold_left step before _) as [m1 d1]. split.
    + destruct uri; cbn [promptToPiMessage_step]; apply message_of_fold; reflexivity.
    + cbn [fst snd].
      destruct uri as [u|]; cbn [promptToPiMessage_step].
      * destruct (attachments_of_fold after
          {| message := message m1;
             attachments := (attachments m1 ++
               [ {| id := u; type := image; fileName := guessFileNameFromMime mime;
                    mimeType := mime; size := byteLength_base64 data;
                    content := data |} ])%list |} d1) as [more Hmore].
        exists more. rewrite Hmore. cbn. now rewrite <- app_assoc.
      * destruct (attachments_of_fold after
          {| message := message m1;
             attachments := (attachments m1 ++
               [ {| id := randomUUID d1; type := image;
                    fileName := guessFileNameFromMime mime;
                    mimeType := mime; size := byteLength_base64 data;
                    content := data |} ])%list |} (S d1)) as [more Hmore].
        exists more. rewrite Hmore. cbn. now rewrite <- app_assoc.
  - repeat split. intros mime Hpng Hjpeg Hwebp. unfold guessFileNameFromMime.
    apply String.eqb_neq in Hpng, Hjpeg, Hwebp. now rewrite Hpng, Hjpeg, Hwebp.
  - intros bytes.
    rewrite (base64_decode_encode_upto (length bytes)) by lia.
    split; [reflexivity|]. now apply (byteLength_base64_encode_upto (length bytes)).
  - intros bytes uri Hlen. unfold promptToPiMessage. cbn [fold_left fst].
    cbn [promptToPiMessage_step fst message attachments app].
    rewrite (byteLength_base64_encode_upto (length bytes)), Hlen by lia.
    reflexivity.
Qed.

End Host.

(** The image block of three bytes, through the theorem. *)
Lemma image_block_translation_witness :
  fst (promptToPiMessage Session.test_uuid 0
         [Image (base64_encode ["001"; "002"; "003"]%char) "image/png" (Some "file:///x.png")])
  = {| message := "";
       attachments := [ {| id := "file:///x.png"; type := image;
                           fileName := "attachment.png"; mimeType := "image/png";
                           size := 3;
                           content := base64_encode ["001"; "002"; "003"]%char |} ] |} /\
  guessFileNameFromMime "image/gif" = "attachment.bin".
Proof.
  pose proof (image_block_translation Session.test_uuid)
    as (_ & (_ & _ & _ & Hbin) & _ & Hthree & _).
  split.
  - apply Hthree. reflexivity.
  - apply Hbin; discriminate.
Defined.

(** C9 as stated fails.  The payload [wrapped_payload] is the base64 text
    [AQID] wrapped in lines of two code units; it decodes to the three
    bytes 1, 2, 3, and the attachment made of it has the size 4. *)
Lemma image_size_of_wrapped_payload :
  base64_decode wrapped_payload = ["001"; "002"; "003"]%char /\
  length (base64_decode wrapped_payload) = 3 /\
  byteLength_base64 wrapped_payload = 4 /\
  map size (attachments (fst (promptToPiMessage Session.test_uuid 0
                                [Image wrapped_payload "image/png" None])))
  = [4].
Proof. repeat split. Qed.

(** The test of the text and resource-link blocks. *)
Example promptToPiMessage_text_and_link :
  fst (promptToPiMessage (fun _ => "uuid") 0
         [Text "Hello"; ResourceLink "file:///tmp/foo.txt"; Text " world"])
  = {| message := "Hello" ++ String "010" "[Context] file:///tmp/foo.txt world";
       attachments := [] |}.
Proof. reflexivity. Qed.

Import StringFacts.

Section Blocks.

Variable randomUUID : nat -> string.

Local Abbreviation step := (promptToPiMessage_step randomUUID).
Local Abbreviation promptToPiMessage := (Translate.promptToPiMessage randomUUID).

(** [m] with the text and the attachments of [m'] behind its own. *)
Let extend (m m' : PiMessage) : PiMessage :=
  {| message := message m ++ message m';
     attachments := (attachments m ++ attachments m')%list |}.

Let empty : PiMessage := {| message := ""; attachments := [] |}.

(** One turn of the loop adds to text and attachments what it adds to
    empty ones. *)
Lemma step_extend (m : PiMessage) (d : nat) (b : ContentBlock) :
  step (m, d) b = (extend m (fst (step (empty, d) b)), snd (step (empty, d) b)).
Proof.
  destruct m as [msg atts]. unfold extend.
  destruct b as [text|uri|data mime [u|]|r|data mime|]; cbn;
    rewrite ?append_empty_r, ?app_nil_r; reflexivity.
Qed.

Lemma extend_assoc (a b c : PiMessage) : extend (extend a b) c = extend a (extend b c).
Proof. unfold extend. cbn. now rewrite append_assoc, <- app_assoc. Qed.

Lemma extend_empty_l (a : PiMessage) : extend empty a = a.
Proof. destruct a. reflexivity. Qed.

Lemma fold_extend (blocks : list ContentBlock) :
  forall m d,
    fold_left step blocks (m, d)
    = (extend m (fst (fold_left step blocks (empty, d))),
       snd (fold_left step blocks (empty, d))).
Proof.
  induction blocks as [|b blocks IH]; intros m d.
  - cbn. unfold extend. cbn. rewrite append_empty_r, app_nil_r. now destruct m.
  - cbn [fold_left]. rewrite (step_extend m d b).
    destruct (step (empty, d) b) as [m1 d1] eqn:E. cbn [fst snd].
    rewrite (IH (extend m m1) d1), (IH m1 d1). cbn [fst snd].
    now rewrite extend_assoc.
Qed.

(** X18.  The translation of a prompt goes block by block: the message of
    two lists of blocks put end to end is the message of the first followed
    by the message of the second, the attachments are those of the first
    followed by those of the second, and the identifiers are drawn in this
    order. *)
Theorem promptToPiMessage_app (draws : nat) (blocks1 blocks2 : list ContentBlock) :
  let r1 := promptToPiMessage draws blocks1 in
  let r2 := promptToPiMessage (snd r1) blocks2 in
  promptToPiMessage draws (blocks1 ++ blocks2)
  = ({| message := message (fst r1) ++ message (fst r2);
        attachments := (attachments (fst r1) ++ attachments (fst r2))%list |},
     snd r2).
Proof.
  cbn zeta. unfold Translate.promptToPiMessage. rewrite fold_left_app.
  fold empty.
  destruct (fold_left step blocks1 (empty, draws)) as [m1 d1]. cbn [fst snd].
  now rewrite (fold_extend blocks2 m1 d1).
Qed.

Lemma images_app (a b : list ContentBlock) : images (a ++ b) = (images a ++ images b)%list.
Proof. apply flat_map_app. Qed.

Lemma without_images_app (a b : list ContentBlock) :
  without_images (a ++ b) = (without_images a ++ without_images b)%list.
Proof. apply List.filter_app. Qed.

Lemma anonymous_images_app (a b : list ContentBlock) :
  anonymous_images (a ++ b) = anonymous_images a + anonymous_images b.
Proof. unfold anonymous_images. now rewrite List.filter_app, List.length_app. Qed.

(** X19.  Attachments come from the image blocks and from nothing else.
    There is one attachment for each image block, in the order of the
    blocks, with the payload and the media type of the block; each has the
    type [image], the byte length of its payload as [size] and the file name
    guessed from its media type.  The message is the one of the prompt
    without its image blocks, which has no attachment.  One identifier is
    drawn for each image block without [uri], and for nothing else. *)
Theorem attachments_are_the_images (draws : nat) (blocks : list ContentBlock) :
  let r := promptToPiMessage draws blocks in
  map (fun a => (content a, mimeType a)) (attachments (fst r)) = images blocks /\
  Forall (fun a => type a = image /\ size a = byteLength_base64 (content a) /\
                   fileName a = guessFileNameFromMime (mimeType a))
         (attachments (fst r)) /\
  fst (promptToPiMessage draws (without_images blocks))
  = {| message := message (fst r); attachments := [] |} /\
  snd r = draws + anonymous_images blocks.
Proof.
  cbn zeta. revert draws.
  induction blocks as [|b blocks IH] using rev_ind; intros draws.
  - cbn. repeat split; [constructor|lia].
  - rewrite promptToPiMessage_app. cbn zeta.
    rewrite images_app, without_images_app, anonymous_images_app.
    rewrite (promptToPiMessage_app draws (without_images blocks)). cbn zeta.
    destruct (IH draws) as (Himg & Hall & Hmsg & Hd).
    destruct (Translate.promptToPiMessage randomUUID draws blocks) as [m d] eqn:E.
    destruct (Translate.promptToPiMessage randomUUID draws (without_images blocks))
      as [m' d'] eqn:E'.
    cbn [fst snd] in *. subst m' d.
    destruct b as [text|uri|data mime [u|]|r|data mime|]; cbn;
      rewrite ?map_app, ?Himg, ?app_nil_r, ?append_empty_r;
      (split; [reflexivity|]); (split; [|split; [reflexivity|lia]]);
      try exact Hall;
      apply Forall_app; (split; [exact Hall|]); repeat constructor.
Qed.

(** [JSON.stringify(result, null, 2)] *)
Variable JSON_stringify : value -> string.

Local Abbreviation toolResultToText := (Translate.toolResultToText JSON_stringify).

Lemma concat_cons (x : string) (l : list string) :
  String.concat "" (x :: l) = x ++ String.concat "" l.
Proof. destruct l; cbn; [now rewrite append_empty_r|reflexivity]. Qed.

Lemma concat_filter_truthy (l : list string) :
  String.concat "" (List.filter truthy_string l) = String.concat "" l.
Proof.
  induction l as [|x l IH]; [reflexivity|].
  rewrite concat_cons. cbn [List.filter].
  destruct x as [|c x]; cbn [truthy_string]; [exact IH|].
  now rewrite concat_cons, IH.
Qed.

Lemma filter_truthy_nonempty (l : list string) :
  Exists (fun x => x <> "") l -> List.filter truthy_string l <> [].
Proof.
  induction 1 as [x l Hx|x l _ IH]; cbn.
  - destruct x; [congruence|discriminate].
  - destruct (truthy_string x); [discriminate|exact IH].
Qed.

Lemma concat_nonempty (l : list string) :
  Exists (fun x => x <> "") l -> String.concat "" l <> "".
Proof.
  induction 1 as [x l Hx|x l _ IH]; rewrite concat_cons.
  - destruct x; [congruence|discriminate].
  - destruct x; [exact IH|discriminate].
Qed.

(** X20.  The text of a tool result whose [content] is an array with a text
    part that is not empty: the texts of the text parts, in order, one
    after the other; parts of another type, and the [details] of the
    result, add nothing, and [JSON.stringify] is not used.  This text is not
    empty. *)
Theorem toolResultToText_text_parts (fields : list (string * value)) (items : list value) :
  lookup_field "content" fields = Some (VArr items) ->
  Exists (fun c => part_text c <> "") items ->
  toolResultToText (Some (VObj fields)) = String.concat "" (map part_text items) /\
  toolResultToText (Some (VObj fields)) <> "".
Proof.
  intros Hc Hex.
  assert (Hex' : Exists (fun x => x <> "") (map part_text items)).
  { clear Hc. induction Hex as [c l Hne|c l _ IH]; cbn [map];
      [apply Exists_cons_hd; exact Hne|apply Exists_cons_tl; exact IH]. }
  assert (Heq : toolResultToText (Some (VObj fields))
                = String.concat "" (map part_text items)).
  { unfold Translate.toolResultToText. cbn [truthy negb get_opt]. rewrite Hc.
    pose proof (filter_truthy_nonempty _ Hex') as Hne.
    destruct (List.filter truthy_string (map part_text items)) as [|x l] eqn:E;
      [congruence|].
    rewrite <- E. apply concat_filter_truthy. }
  split; [exact Heq|]. rewrite Heq. now apply concat_nonempty.
Qed.

End Blocks.

Lemma attachments_are_the_images_example :
  fst (Translate.promptToPiMessage Session.test_uuid 0
         [Text "look"; Image "AQID" "image/png" None; Text " here";
          Image "AQ==" "image/webp" (Some "file:///b.webp")])
  = {| message := "look here";
       attachments :=
         [ {| id := "uuid-0"; type := image; fileName := "attachment.png";
              mimeType := "image/png"; size := 3; content := "AQID" |};
           {| id := "file:///b.webp"; type := image; fileName := "attachment.webp";
              mimeType := "image/webp"; size := 1; content := "AQ==" |} ] |}.
Proof. reflexivity. Qed.

Lemma toolResultToText_text_parts_witness :
  let fields := [("content", VArr [text_part "a"; image_part; text_part ""; text_part "b"]);
                 ("details", VObj [("diff", VStr "-x")])] in
  Translate.toolResultToText Session.test_stringify (Some (VObj fields))
  = String.concat "" (map part_text [text_part "a"; image_part; text_part ""; text_part "b"]) /\
  Translate.toolResultToText Session.test_stringify (Some (VObj fields)) <> "".
Proof.
  intros fields.
  apply (toolResultToText_text_parts Session.test_stringify fields
           [text_part "a"; image_part; text_part ""; text_part "b"]).
  - reflexivity.
  - constructor. discriminate.
Defined.

End TranslateFacts.

(* ===================================================================== *)
(** * Properties of src/acp/session.ts                                    *)
(* ===================================================================== *)

Module SessionFacts.
Import JS SlashCommands Translate Session.
Local Open Scope list_scope.

Section Host.

Variable randomUUID : nat -> string.
Variable JSON_stringify : value -> string.

Local Abbreviation handlePiEvent := (Session.handlePiEvent randomUUID JSON_stringify).
Local Abbreviation react := (Session.react randomUUID JSON_stringify).
Local Abbreviation run := (Session.run randomUUID JSON_stringify).

(** ** What the listener does with the events of the statements *)

Lemma handlePiEvent_text_delta (ev : value) (d : string) (s : PiAcpSession) :
  text_delta_event ev d ->
  handlePiEvent ev s = (emit (agent_message_chunk d) s, []).
Proof.
  intros (fields & ame & -> & Hty & Hame & Hat & Hd).
  unfold Session.handlePiEvent, String_or. cbn [get bind]. rewrite Hty. cbn.
  rewrite Hame. cbn. rewrite Hat, Hd. reflexivity.
Qed.

Lemma handlePiEvent_turn_end (ev : value) (s : PiAcpSession) :
  event_of_type ev "turn_end" ->
  handlePiEvent ev s = (flushEmits_finally at_turn_end s, []).
Proof.
  intros (fields & -> & Hty).
  unfold Session.handlePiEvent, String_or. cbn [get bind]. rewrite Hty. reflexivity.
Qed.

Lemma run_cons (x : stimulus) (xs : list stimulus) (s : PiAcpSession) :
  run s (x :: xs)
  = let '(s1, e1) := react s x in
    let '(s2, e2) := run s1 xs in
    (s2, e1 ++ e2).
Proof. reflexivity. Qed.

Lemma run_app (xs ys : list stimulus) :
  forall s,
    run s (xs ++ ys)
    = let '(s1, e1) := run s xs in
      let '(s2, e2) := run s1 ys in
      (s2, e1 ++ e2).
Proof.
  induction xs as [|x xs IH]; intros s; cbn [app Session.run].
  - destruct (run s ys); reflexivity.
  - destruct (react s x) as [s1 e1]. rewrite IH.
    destruct (run s1 xs) as [s2 e2]. destruct (run s2 ys) as [s3 e3].
    now rewrite app_assoc.
Qed.

(** ** The promise jobs *)

Lemma calls_app sid us vs : calls sid (us ++ vs) = calls sid us ++ calls sid vs.
Proof. apply map_app. Qed.

Lemma updates_sent_calls sid us : updates_sent (calls sid us) = us.
Proof. induction us as [|u us IH]; cbn; [reflexivity|f_equal; exact IH]. Qed.

Lemma resolutions_calls sid us : resolutions (calls sid us) = [].
Proof. induction us as [|u us IH]; cbn; [reflexivity|exact IH]. Qed.

(** With no continuation waiting, the jobs start at most one delivery. *)
Lemma run_jobs_idle (s : PiAcpSession) :
  flushes s = [] ->
  exists s' sent,
    run_jobs s = (s', calls (sessionId s) sent) /\
    flushes s' = [] /\ same_turn s s' /\ normal_chain s' /\
    sent ++ queued s' = queued s /\ outstanding s' = outstanding s.
Proof.
  destruct s as [sid cmds cr pt ctc [u|] q fl tn dr]; cbn; intros ->.
  - eexists _, []. cbn. repeat split; try reflexivity. intros; discriminate.
  - destruct q as [|u q].
    + eexists _, []. cbn. repeat split; reflexivity.
    + eexists _, [u]. cbn. repeat split; try reflexivity. intros; discriminate.
Qed.

Lemma same_turn_trans (a b c : PiAcpSession) :
  same_turn a b -> same_turn b c -> same_turn a c.
Proof. unfold same_turn. intros (?&?&?) (?&?&?). repeat split; congruence. Qed.

Lemma same_turn_emit (u : SessionUpdate) (s : PiAcpSession) : same_turn s (emit u s).
Proof. repeat split. Qed.

Lemma same_turn_settle (s : PiAcpSession) : same_turn s (settle s).
Proof. unfold settle. destruct (inFlight s); repeat split. Qed.

Lemma queued_settle (s : PiAcpSession) : queued (settle s) = queued s.
Proof. unfold settle. destruct (inFlight s); reflexivity. Qed.

Lemma flushes_settle_idle (s : PiAcpSession) : flushes s = [] -> flushes (settle s) = [].
Proof. unfold settle. intros H. destruct (inFlight s); [cbn; now rewrite H|exact H]. Qed.

(** One task of a feed of text deltas and settlements, with no
    continuation waiting. *)
Lemma react_feed (s : PiAcpSession) (x : stimulus) (new : list SessionUpdate) :
  flushes s = [] ->
  ((exists ev d, x = PiEvent ev /\ text_delta_event ev d /\ new = [agent_message_chunk d])
   \/ (exists ok, x = UpdateSettled ok /\ new = [])) ->
  exists s' sent,
    react s x = (s', calls (sessionId s) sent) /\
    flushes s' = [] /\ same_turn s s' /\ normal_chain s' /\
    sent ++ queued s' = queued s ++ new.
Proof.
  intros Hfl [(ev & d & -> & Hev & ->)|(ok & -> & ->)];
    unfold Session.react; cbn [Session.sync_part].
  - rewrite (handlePiEvent_text_delta _ _ _ Hev).
    destruct (run_jobs_idle (emit (agent_message_chunk d) s))
      as (s' & sent & Hrun & Hfl' & Hsame & Hnorm & Hq & _); [exact Hfl|].
    rewrite Hrun. exists s', sent. cbn [app].
    split; [reflexivity|]. split; [exact Hfl'|]. split; [|split; assumption].
    eapply same_turn_trans; [apply same_turn_emit|exact Hsame].
  - destruct (run_jobs_idle (settle s))
      as (s' & sent & Hrun & Hfl' & Hsame & Hnorm & Hq & _);
      [now apply flushes_settle_idle|].
    rewrite Hrun. exists s', sent. cbn [app]. rewrite app_nil_r.
    pose proof (same_turn_settle s) as Hs.
    split; [now destruct Hs as (-> & _)|]. split; [exact Hfl'|].
    split; [eapply same_turn_trans; eassumption|]. split; [exact Hnorm|].
    now rewrite Hq, queued_settle.
Qed.

(** A feed of text deltas and settlements, with no continuation waiting:
    only deliveries start, in the order the updates were queued. *)
Lemma run_feed (xs : list stimulus) (deltas : list string) :
  delta_feed xs deltas ->
  forall s,
    flushes s = [] ->
    exists s' sent,
      run s xs = (s', calls (sessionId s) sent) /\
      flushes s' = [] /\ same_turn s s' /\
      sent ++ queued s' = queued s ++ map agent_message_chunk deltas.
Proof.
  induction 1 as [|ev d xs ds Hev _ IH|ok xs ds _ IH]; intros s Hfl.
  - exists s, []. cbn. rewrite app_nil_r. repeat split; assumption.
  - destruct (react_feed s (PiEvent ev) [agent_message_chunk d] Hfl)
      as (s1 & sent1 & Hr & Hfl1 & Hsame1 & _ & Hq1); [left; eauto|].
    destruct (IH s1 Hfl1) as (s2 & sent2 & Hr2 & Hfl2 & Hsame2 & Hq2).
    exists s2, (sent1 ++ sent2). cbn [Session.run]. rewrite Hr, Hr2.
    destruct Hsame1 as (Hsid & Hsame1).
    rewrite Hsid, calls_app. split; [reflexivity|]. split; [exact Hfl2|].
    split; [eapply same_turn_trans; [split; eassumption|exact Hsame2]|].
    rewrite <- app_assoc, Hq2, app_assoc, Hq1, <- app_assoc. reflexivity.
  - destruct (react_feed s (UpdateSettled ok) [] Hfl)
      as (s1 & sent1 & Hr & Hfl1 & Hsame1 & _ & Hq1); [right; eauto|].
    destruct (IH s1 Hfl1) as (s2 & sent2 & Hr2 & Hfl2 & Hsame2 & Hq2).
    exists s2, (sent1 ++ sent2). cbn [Session.run]. rewrite Hr, Hr2.
    destruct Hsame1 as (Hsid & Hsame1).
    rewrite Hsid, calls_app. split; [reflexivity|]. split; [exact Hfl2|].
    split; [eapply same_turn_trans; [split; eassumption|exact Hsame2]|].
    rewrite <- app_assoc, Hq2, app_assoc, Hq1, app_nil_r. reflexivity.
Qed.

(** ** A continuation waiting for the chain *)

Lemma register_terminal (k : terminal) (s : PiAcpSession) (t : nat) :
  flushes s = [] -> pendingTurn s = Some t ->
  exists s1 e1,
    run_jobs (flushEmits_finally k s) = (s1, e1) /\
    sessionId s1 = sessionId s /\ cancelRequested s1 = cancelRequested s /\
    outstanding s1 = outstanding s /\
    ((outstanding s = 0 /\ resolved_by k t s s1 e1) \/
     (0 < outstanding s /\ waiting_for k t s s1 e1)).
Proof.
  destruct s as [sid cmds cr pt ctc [u|] q fl tn dr]; cbn; intros -> ->.
  - eexists _, _. split; [reflexivity|]. cbn. repeat split.
    right. split; [lia|]. unfold waiting_for. cbn.
    repeat split; try lia. { intros; discriminate. }
    exists []. split; reflexivity.
  - destruct q as [|u q]; cbn.
    + eexists _, _. split; [reflexivity|]. cbn. repeat split.
      left. repeat split.
    + eexists _, _. split; [reflexivity|]. cbn. repeat split.
      right. split; [lia|]. unfold waiting_for. cbn.
      repeat split; try lia. { intros; discriminate. }
      exists [u]. split; reflexivity.
Qed.

Lemma settle_waiting (k : terminal) (s : PiAcpSession) (t : nat) (ok : bool) :
  normal_chain s -> pendingTurn s = Some t ->
  flushes s = [(outstanding s, k)] -> 0 < outstanding s ->
  exists s1 e1,
    react s (UpdateSettled ok) = (s1, e1) /\
    sessionId s1 = sessionId s /\ cancelRequested s1 = cancelRequested s /\
    S (outstanding s1) = outstanding s /\
    ((outstanding s = 1 /\ resolved_by k t s s1 e1) \/
     (1 < outstanding s /\ waiting_for k t s s1 e1)).
Proof.
  destruct s as [sid cmds cr pt ctc [u|] q fl tn dr]; unfold normal_chain; cbn;
    intros Hn -> -> Hpos.
  - destruct q as [|v q]; cbn.
    + eexists _, _. split; [reflexivity|]. cbn. repeat split.
      left. repeat split.
    + eexists _, _. split; [reflexivity|]. cbn. repeat split.
      right. split; [lia|]. unfold waiting_for. cbn.
      repeat split; try lia. { intros; discriminate. }
      exists [v]. split; reflexivity.
  - rewrite Hn in Hpos by reflexivity. cbn in Hpos. lia.
Qed.

(** Settlements reported when nothing is in flight change nothing. *)
Lemma run_settle_idle (oks : list bool) (s : PiAcpSession) :
  inFlight s = None -> queued s = [] -> flushes s = [] ->
  run s (map UpdateSettled oks) = (s, []).
Proof.
  intros Hi Hq Hf. induction oks as [|ok oks IH]; [reflexivity|].
  cbn [map Session.run].
  assert (Hr : react s (UpdateSettled ok) = (s, [])).
  { destruct s as [sid cmds cr pt ctc i q fl tn dr]; cbn in *. subst. reflexivity. }
  rewrite Hr, IH. reflexivity.
Qed.

(** The settlements after a continuation was registered: the turn stays
    open as long as an update it waits for is outstanding, and resolves with
    the settlement of the last one. *)
Lemma drain (k : terminal) (t : nat) (oks : list bool) :
  forall s,
    normal_chain s -> pendingTurn s = Some t ->
    flushes s = [(outstanding s, k)] -> 0 < outstanding s ->
    exists s' e,
      run s (map UpdateSettled oks) = (s', e) /\
      (length oks < outstanding s ->
       pendingTurn s' = Some t /\
       exists sent, e = calls (sessionId s) sent /\ sent ++ queued s' = queued s) /\
      (outstanding s <= length oks ->
       pendingTurn s' = None /\ inFlight s' = None /\ queued s' = [] /\
       e = calls (sessionId s) (queued s) ++ [TurnResolved t (reason_of k s)]).
Proof.
  induction oks as [|ok oks IH]; intros s Hn Hp Hf Hpos.
  - exists s, []. split; [reflexivity|]. split.
    + intros _. split; [exact Hp|]. exists []. split; reflexivity.
    + cbn. lia.
  - destruct (settle_waiting k s t ok Hn Hp Hf Hpos)
      as (s1 & e1 & Hr & Hsid & Hcr & Hout & [(H1 & Hres)|(H1 & Hwait)]).
    + destruct Hres as (Hp1 & Hf1 & Hi1 & Hq1 & Hq0 & ->).
      exists s1, [TurnResolved t (reason_of k s)].
      cbn [map Session.run]. rewrite Hr, (run_settle_idle oks s1 Hi1 Hq1 Hf1).
      split; [reflexivity|]. split.
      * cbn. lia.
      * intros _. rewrite Hq0. cbn. repeat split; assumption.
    + destruct Hwait as (Hp1 & Hf1 & Hpos1 & Hn1 & sent1 & -> & Hq1).
      destruct (IH s1 Hn1 Hp1 Hf1 Hpos1) as (s2 & e2 & Hr2 & Hlt & Hge).
      exists s2, (calls (sessionId s) sent1 ++ e2).
      cbn [map Session.run]. rewrite Hr, Hr2.
      split; [reflexivity|]. split.
      * intros Hlen. cbn in Hlen.
        destruct Hlt as (Hp2 & sent2 & -> & Hq2); [lia|].
        split; [exact Hp2|]. exists (sent1 ++ sent2).
        rewrite Hsid, calls_app. split; [reflexivity|].
        now rewrite <- app_assoc, Hq2.
      * intros Hlen. cbn in Hlen.
        destruct Hge as (Hp2 & Hi2 & Hq2 & ->); [lia|].
        repeat split; try assumption.
        rewrite Hsid, <- Hq1, calls_app, <- app_assoc.
        unfold reason_of. now rewrite Hcr.
Qed.

Lemma updates_sent_app (a b : list effect) :
  updates_sent (a ++ b) = updates_sent a ++ updates_sent b.
Proof. apply flat_map_app. Qed.

Lemma resolutions_app (a b : list effect) :
  resolutions (a ++ b) = resolutions a ++ resolutions b.
Proof. apply flat_map_app. Qed.

(** ** The turn and its terminal event *)

(** After a continuation is registered for the open turn, and whatever
    number of settlements follows. *)
Lemma terminal_then_settlements (k : terminal) (s : PiAcpSession) (t : nat) (oks : list bool) :
  pendingTurn s = Some t -> flushes s = [] ->
  exists s1 e1 s2 e2,
    run_jobs (flushEmits_finally k s) = (s1, e1) /\
    run s1 (map UpdateSettled oks) = (s2, e2) /\
    outstanding s1 = outstanding s /\
    (length oks < outstanding s ->
     pendingTurn s2 = Some t /\
     exists sent, e1 ++ e2 = calls (sessionId s) sent /\ sent ++ queued s2 = queued s) /\
    (outstanding s <= length oks ->
     pendingTurn s2 = None /\ inFlight s2 = None /\ queued s2 = [] /\
     e1 ++ e2 = calls (sessionId s) (queued s) ++ [TurnResolved t (reason_of k s)]).
Proof.
  intros Hp Hf.
  destruct (register_terminal k s t Hf Hp)
    as (s1 & e1 & Hr1 & Hsid & Hcr & Hout & [(H0 & Hres)|(Hpos & Hwait)]).
  - destruct Hres as (Hp1 & Hf1 & Hi1 & Hq1 & Hq0 & ->).
    exists s1, [TurnResolved t (reason_of k s)], s1, [].
    rewrite (run_settle_idle oks s1 Hi1 Hq1 Hf1).
    repeat split; try assumption; try lia.
    rewrite Hq0. reflexivity.
  - destruct Hwait as (Hp1 & Hf1 & Hpos1 & Hn1 & sent1 & -> & Hq1).
    destruct (drain k t oks s1 Hn1 Hp1 Hf1 Hpos1) as (s2 & e2 & Hr2 & Hlt & Hge).
    exists s1, (calls (sessionId s) sent1), s2, e2.
    split; [exact Hr1|]. split; [exact Hr2|]. split; [exact Hout|]. split.
    + intros Hlen. destruct Hlt as (Hp2 & sent2 & -> & Hq2); [lia|].
      split; [exact Hp2|]. exists (sent1 ++ sent2).
      rewrite Hsid, calls_app. split; [reflexivity|].
      now rewrite <- app_assoc, Hq2.
    + intros Hlen. destruct Hge as (Hp2 & Hi2 & Hq2 & ->); [lia|].
      repeat split; try assumption.
      rewrite Hsid, <- Hq1, calls_app, <- app_assoc.
      unfold reason_of. now rewrite Hcr.
Qed.

(** X1.  The turn and its [turn_end], in every session on which no continuation
    of an earlier terminal event is still waiting.  The session has the open
    turn [t].  It observes text-delta events
    carrying [deltas] (among which updates in flight may settle), then a
    [turn_end], then the settlements [oks].  Then: the updates for which
    [conn.sessionUpdate] is called, followed by those still queued, are the
    updates that were queued before followed by one message chunk for each
    delta, verbatim and in the order observed; as long as fewer settlements
    have come than there were updates outstanding at the [turn_end], the
    turn stays open and nothing resolves; and once that many have come the
    open turn is cleared, and all that the session did is to deliver these
    updates in order and then to resolve [t], once, to [cancelled] if the
    cancellation flag is set and to [end_turn] otherwise. *)
Theorem turn_end_after_text_deltas
    (s : PiAcpSession) (t : nat) (xs : list stimulus) (deltas : list string)
    (ev_end : value) (oks : list bool) :
  pendingTurn s = Some t -> flushes s = [] ->
  delta_feed xs deltas -> event_of_type ev_end "turn_end" ->
  let r1 := run s (xs ++ [PiEvent ev_end]) in
  let r2 := run (fst r1) (map UpdateSettled oks) in
  let effects := snd r1 ++ snd r2 in
  updates_sent effects ++ queued (fst r2) = queued s ++ map agent_message_chunk deltas /\
  (length oks < outstanding (fst r1) ->
   pendingTurn (fst r2) = Some t /\ resolutions effects = []) /\
  (outstanding (fst r1) <= length oks ->
   pendingTurn (fst r2) = None /\
   effects
   = map (SessionUpdateCall (sessionId s)) (queued s ++ map agent_message_chunk deltas)
     ++ [TurnResolved t (if cancelRequested s then cancelled else end_turn)]).
Proof.
  intros Hp Hf Hfeed Hend. cbn zeta.
  destruct (run_feed xs deltas Hfeed s Hf) as (sa & senta & Hra & Hfa & Hsame & Hqa).
  destruct Hsame as (Hsid & Hpa & Hcr).
  rewrite Hp in Hpa.
  destruct (terminal_then_settlements at_turn_end sa t oks Hpa Hfa)
    as (s1 & e1 & s2 & e2 & Hr1 & Hr2 & Hout & Hlt & Hge).
  rewrite run_app, Hra. cbn [Session.run]. unfold Session.react.
  cbn [Session.sync_part]. rewrite (handlePiEvent_turn_end _ _ Hend), Hr1. cbn [app fst snd].
  rewrite app_nil_r, Hr2. cbn [fst snd]. rewrite Hout, Hsid in *.
  destruct (Nat.lt_ge_cases (length oks) (outstanding sa)) as [Hlen|Hlen].
  - destruct (Hlt Hlen) as (Hp2 & sent & Hes & Hq2).
    rewrite <- app_assoc, Hes, <- calls_app.
    split; [|split].
    + rewrite updates_sent_calls, <- app_assoc, Hq2. exact Hqa.
    + intros _. split; [exact Hp2|apply resolutions_calls].
    + intros Hc. lia.
  - destruct (Hge Hlen) as (Hp2 & Hi2 & Hq2 & Hes).
    rewrite <- app_assoc, Hes, app_assoc, <- calls_app, Hqa.
    split; [|split].
    + rewrite updates_sent_app, updates_sent_calls, Hq2. cbn. now rewrite !app_nil_r.
    + intros Hc. lia.
    + intros _. split; [exact Hp2|]. unfold reason_of, calls. now rewrite Hcr.
Qed.

(** ** What no task ever does *)

Lemma run_flushes_effects (fs : list (nat * terminal)) :
  forall s s' e,
    run_flushes fs s = (s', e) ->
    cancelRequested s' = cancelRequested s /\
    Forall never_rejects e /\
    (cancelRequested s = false -> Forall not_cancelled e) /\
    (pendingTurn s = None -> e = [] /\ pendingTurn s' = None).
Proof.
  induction fs as [|[n k] fs IH]; intros s s' e Hr; cbn in Hr.
  - inversion Hr; subst. cbn.
    split; [reflexivity|]. split; [constructor|]. split; [intros; constructor|].
    intros Hp. split; [reflexivity|exact Hp].
  - destruct n as [|n].
    + destruct (run_flushes fs (with_pendingTurn None s)) as [s2 e2] eqn:E2.
      inversion Hr; subst. destruct (IH _ _ _ E2) as (Hc & Hrej & Hcan & Hnone).
      cbn in Hc, Hcan, Hnone. destruct (Hnone eq_refl) as [-> Hp']. rewrite app_nil_r.
      split; [exact Hc|]. split; [|split].
      * destruct (pendingTurn s); repeat constructor.
      * intros Hfalse. rewrite Hfalse. destruct (pendingTurn s); repeat constructor.
        destruct k; exact I.
      * intros Hp. rewrite Hp. split; [reflexivity|exact Hp'].
    + destruct (run_flushes fs s) as [s1 e1] eqn:E1.
      inversion Hr; subst. destruct (IH _ _ _ E1) as (Hc & Hrej & Hcan & Hnone).
      cbn. repeat split; try assumption; apply Hnone; assumption.
Qed.

Lemma run_jobs_effects (s s' : PiAcpSession) (e : list effect) :
  run_jobs s = (s', e) ->
  cancelRequested s' = cancelRequested s /\
  Forall never_rejects e /\
  (cancelRequested s = false -> Forall not_cancelled e) /\
  (pendingTurn s = None -> Forall not_cancelled e /\ pendingTurn s' = None).
Proof.
  unfold run_jobs. intros Hr.
  destruct (start_delivery s) as [s1 e1] eqn:E1.
  destruct (run_flushes (flushes s1) s1) as [s2 e2] eqn:E2.
  inversion Hr; subst.
  assert (H1 : cancelRequested s1 = cancelRequested s /\ pendingTurn s1 = pendingTurn s /\
               Forall never_rejects e1 /\ Forall not_cancelled e1).
  { unfold start_delivery in E1.
    destruct (inFlight s), (queued s); inversion E1; subst; cbn;
      repeat split; repeat constructor. }
  destruct H1 as (Hc1 & Hp1 & Hr1 & Hn1).
  destruct (run_flushes_effects _ _ _ _ E2) as (Hc2 & Hr2 & Hn2 & Hnone).
  rewrite Hc1, Hp1 in *.
  split; [exact Hc2|]. split; [now apply Forall_app|]. split.
  - intros Hfalse. apply Forall_app. auto.
  - intros Hp. destruct (Hnone Hp) as [-> Hp']. rewrite app_nil_r. auto.
Qed.

Lemma handlePiEvent_keeps_flag (ev : value) (s s' : PiAcpSession) (es : list effect) :
  handlePiEvent ev s = (s', es) ->
  cancelRequested s' = cancelRequested s /\ pendingTurn s' = pendingTurn s /\
  (es = [] \/ exists e, es = [Uncaught e]).
Proof.
  unfold Session.handlePiEvent. intros H.
  repeat case_match; simplify_eq; cbn;
    (split; [reflexivity|split; [reflexivity|]]); eauto.
Qed.

Local Abbreviation sync_part := (Session.sync_part randomUUID JSON_stringify).

Lemma react_sync (s : PiAcpSession) (x : stimulus) :
  react s x
  = let '(s1, e1) := sync_part s x in
    let '(s2, e2) := run_jobs s1 in
    (s2, e1 ++ e2).
Proof. reflexivity. Qed.

Lemma sync_part_effects (s s1 : PiAcpSession) (x : stimulus) (e1 : list effect) :
  sync_part s x = (s1, e1) ->
  Forall never_rejects e1 /\ Forall not_cancelled e1 /\
  (x <> CallCancel -> cancelRequested s = false -> cancelRequested s1 = false).
Proof.
  destruct x as [m a| |ev| |ok]; cbn.
  - unfold prompt. destruct (pendingTurn s); intros H; inversion H; subst; cbn;
      repeat split; repeat constructor; auto.
  - intros H; inversion H; subst. repeat split; repeat constructor. congruence.
  - intros H. apply handlePiEvent_keeps_flag in H as (-> & _ & [->|[e ->]]);
      repeat split; repeat constructor; auto.
  - intros H; inversion H; subst. repeat split; auto.
  - intros H; inversion H; subst. repeat split; auto.
    destruct (same_turn_settle s) as (_ & _ & ->). auto.
Qed.

(** No task rejects a turn, and as long as the cancellation flag stays
    clear no turn resolves to [cancelled]. *)
Lemma run_effects (xs : list stimulus) :
  forall s,
    Forall never_rejects (snd (run s xs)) /\
    (cancelRequested s = false -> Forall (fun x => x <> CallCancel) xs ->
     Forall not_cancelled (snd (run s xs))).
Proof.
  induction xs as [|x xs IH]; intros s; cbn [Session.run].
  - split; [constructor|intros; constructor].
  - rewrite react_sync.
    destruct (sync_part s x) as [s1 e1] eqn:E1.
    destruct (run_jobs s1) as [s2 e2] eqn:E2.
    destruct (run s2 xs) as [s3 e3] eqn:E3. cbn [snd].
    destruct (sync_part_effects _ _ _ _ E1) as (Hr1 & Hn1 & Hc1).
    destruct (run_jobs_effects _ _ _ E2) as (Hc2 & Hr2 & Hn2 & _).
    destruct (IH s2) as (Hr3 & Hn3). rewrite E3 in Hr3, Hn3. cbn [snd] in Hr3, Hn3.
    split.
    + repeat (apply Forall_app; split); assumption.
    + intros Hfalse Hxs. apply Forall_cons_iff in Hxs as [Hx Hxs].
      specialize (Hc1 Hx Hfalse).
      repeat (apply Forall_app; split); auto.
      apply Hn3; [congruence|exact Hxs].
Qed.

(** X2.  The turn and the failure of its prompt request, in every session on
    which no continuation of an earlier terminal event is still waiting.
    The session has the open turn [t]; the promise of [proc.prompt]
    rejects, and the settlements [oks] follow.  As long as fewer settlements
    have come than there were updates outstanding at the failure, the turn
    stays open and the session only delivers updates; once that many have
    come the open turn is cleared, and all that the session did is to
    deliver the queued updates in order and then to resolve [t] (a call of
    [resolve], not of [reject]) to [cancelled] if the cancellation flag is
    set and to [error] otherwise.  No sequence of tasks whatever makes the
    session reject a turn. *)
Theorem prompt_failure_resolves_turn (s : PiAcpSession) (t : nat) (oks : list bool) :
  pendingTurn s = Some t -> flushes s = [] ->
  let r1 := react s PromptFailed in
  let r2 := run (fst r1) (map UpdateSettled oks) in
  let effects := snd r1 ++ snd r2 in
  (length oks < outstanding s ->
   pendingTurn (fst r2) = Some t /\
   exists sent, effects = map (SessionUpdateCall (sessionId s)) sent) /\
  (outstanding s <= length oks ->
   pendingTurn (fst r2) = None /\
   effects
   = map (SessionUpdateCall (sessionId s)) (queued s)
     ++ [TurnResolved t (if cancelRequested s then cancelled else error)]) /\
  (forall s' xs, Forall never_rejects (snd (run s' xs))).
Proof.
  intros Hp Hf. cbn zeta.
  destruct (terminal_then_settlements at_prompt_failure s t oks Hp Hf)
    as (s1 & e1 & s2 & e2 & Hr1 & Hr2 & Hout & Hlt & Hge).
  unfold Session.react. cbn [Session.sync_part]. unfold on_prompt_failure.
  rewrite Hr1. cbn [app fst snd]. rewrite Hr2.
  cbn [fst snd]. split; [|split].
  - intros Hlen. destruct (Hlt Hlen) as (Hp2 & sent & Hes & _).
    split; [exact Hp2|]. exists sent. exact Hes.
  - intros Hlen. destruct (Hge Hlen) as (Hp2 & _ & _ & Hes).
    split; [exact Hp2|exact Hes].
  - intros s' xs. apply run_effects.
Qed.

(** C4.  While a turn is open, [prompt] fails with the invalid-request error
    at once: the session is left as it was, field for field, the open turn
    included, and nothing is asked of the backend; the task that made the
    call does no more than the promise jobs that were ready anyway. *)
Theorem prompt_rejected_while_turn_open
    (s : PiAcpSession) (t : nat) (message : string) (attachments : list PiAttachment) :
  pendingTurn s = Some t ->
  prompt message attachments s = (s, [], invalid_request "A prompt is already in progress") /\
  react s (CallPrompt message attachments) = run_jobs s.
Proof.
  intros Hp. assert (H : prompt message attachments s
                         = (s, [], invalid_request "A prompt is already in progress")).
  { unfold prompt. now rewrite Hp. }
  split; [exact H|].
  unfold Session.react. cbn [Session.sync_part]. rewrite H.
  now destruct (run_jobs s).
Qed.

Lemma run_after_prompt (s : PiAcpSession) (message : string)
    (attachments : list PiAttachment) (xs : list stimulus) :
  pendingTurn s = None -> Forall (fun x => x <> CallCancel) xs ->
  Forall not_cancelled (snd (run s (CallPrompt message attachments :: xs))).
Proof.
  intros Hp Hxs. cbn [Session.run]. rewrite react_sync. cbn [Session.sync_part].
  unfold prompt. rewrite Hp.
  match goal with |- context [run_jobs ?s1] => destruct (run_jobs s1) as [s2 e2] eqn:E2 end.
  destruct (run s2 xs) as [s3 e3] eqn:E3. cbn [snd].
  destruct (run_jobs_effects _ _ _ E2) as (Hc2 & _ & Hn2 & _). cbn in Hc2, Hn2.
  pose proof (proj2 (run_effects xs s2) Hc2 Hxs) as H3. rewrite E3 in H3.
  apply Forall_app. split; [|exact H3].
  apply Forall_app. split; [repeat constructor|auto].
Qed.

(** C10.  A call of [prompt] on a session with no open turn clears the
    cancellation flag, opens the turn and asks the backend, in that order of
    the code.  In the tasks that follow, as long as [cancel] is not called,
    no turn resolves to [cancelled]: so it is when [cancel] had been called
    before this [prompt], the earlier turn being resolved. *)
Theorem prompt_resets_cancellation
    (s : PiAcpSession) (message : string) (attachments : list PiAttachment)
    (xs : list stimulus) :
  pendingTurn s = None -> Forall (fun x => x <> CallCancel) xs ->
  (exists s1,
      prompt message attachments s
      = (s1, [PromptRequest (expandSlashCommand message (fileCommands s)) attachments],
         turn_promise (turns s)) /\
      cancelRequested s1 = false /\ pendingTurn s1 = Some (turns s)) /\
  Forall not_cancelled (snd (run s (CallPrompt message attachments :: xs))) /\
  Forall not_cancelled (snd (run s (CallCancel :: CallPrompt message attachments :: xs))).
Proof.
  intros Hp Hxs. split; [|split].
  - unfold prompt. rewrite Hp. eexists. split; [reflexivity|]. split; reflexivity.
  - now apply run_after_prompt.
  - rewrite run_cons, react_sync. cbn [Session.sync_part cancel].
    match goal with |- context [run_jobs ?s1] => destruct (run_jobs s1) as [s2 e2] eqn:E2 end.
    destruct (run_jobs_effects _ _ _ E2) as (_ & _ & _ & Hnone).
    destruct (Hnone Hp) as (Hn2 & Hp2).
    pose proof (run_after_prompt s2 message attachments xs Hp2 Hxs) as H3.
    destruct (run s2 (CallPrompt message attachments :: xs)) as [s3 e3]. cbn [snd] in *.
    apply Forall_app. split; [|exact H3].
    constructor; [exact I|exact Hn2].
Qed.

(** ** What [String] renders *)

Lemma value_nested_ind (P : value -> Prop) :
  P VNull -> (forall b, P (VBool b)) -> (forall n, P (VNum n)) -> (forall t, P (VStr t)) ->
  (forall items, Forall P items -> P (VArr items)) ->
  (forall fields, P (VObj fields)) ->
  forall v, P v.
Proof.
  intros Hnull Hbool Hnum Hstr Harr Hobj. fix IH 1. intros [ |b|n|t|items|fields].
  - exact Hnull.
  - apply Hbool.
  - apply Hnum.
  - apply Hstr.
  - apply Harr. induction items as [|x items IHitems]; constructor; [apply IH|exact IHitems].
  - apply Hobj.
Qed.

(** [String(v)] returns a text when [v] renders, and throws a TypeError
    when it does not. *)
Lemma to_String_renders (v : value) :
  if renders v then exists t, to_String v = Ok t else to_String v = Throw "TypeError".
Proof.
  induction v as [ |b|n|t|items IH|fields] using value_nested_ind;
    try (cbn; eauto; fail).
  - destruct b; cbn; eauto.
  - cbn [renders to_String].
    set (each_ok := fix each (l : list value) : bool :=
           match l with [] => true | x :: rest => renders x && each rest end).
    set (each_string := fix each (l : list value) : res (list string) :=
           match l with
           | [] => Ok []
           | x :: rest =>
               let* part := match x with VNull => Ok "" | _ => to_String x end in
               let* parts := each rest in
               Ok (part :: parts)
           end).
    assert (H : if each_ok items then exists parts, each_string items = Ok parts
                else each_string items = Throw "TypeError").
    { induction IH as [|x items Hx _ IHitems]; [cbn; eauto|].
      cbn [each_ok each_string].
      destruct (renders x).
      - destruct Hx as [t Ht].
        assert (Hpart : exists t', match x with VNull => Ok "" | _ => to_String x end = Ok t')
          by (destruct x; eauto).
        destruct Hpart as [t' ->]. cbn [andb bind].
        destruct (each_ok items).
        + destruct IHitems as [parts ->]. cbn. eauto.
        + rewrite IHitems. reflexivity.
      - assert (Hpart : match x with VNull => Ok "" | _ => to_String x end
                        = Throw "TypeError")
          by (destruct x; try discriminate; exact Hx).
        rewrite Hpart. reflexivity. }
    destruct (each_ok items).
    + destruct H as [parts ->]. cbn. eauto.
    + rewrite H. reflexivity.
  - cbn. destruct (lookup_field "toString" fields); eauto.
Qed.

Lemma to_String_throws (v : value) (e : string) :
  to_String v = Throw e -> e = "TypeError" /\ renders v = false.
Proof.
  intros H. pose proof (to_String_renders v) as Hr.
  destruct (renders v); [destruct Hr as [t Ht]; congruence|].
  split; [congruence|reflexivity].
Qed.

Lemma String_or_throws (v : option value) (d e : string) :
  String_or v d = Throw e -> e = "TypeError" /\ unrendered v = true.
Proof.
  unfold String_or, unrendered. destruct v as [x|]; [|discriminate].
  destruct x; cbn [nullish]; try discriminate;
    intros H; apply to_String_throws in H as [-> Hr]; (split; [reflexivity|]);
    now rewrite Hr.
Qed.

Lemma String_or_returns (v : option value) (d t : string) :
  String_or v d = Ok t -> unrendered v = false.
Proof.
  unfold String_or, unrendered. destruct v as [x|]; [|reflexivity].
  destruct x; try reflexivity; cbn [nullish]; intros H;
    match goal with
    | |- negb (renders ?x) = false =>
        pose proof (to_String_renders x) as Hr; destruct (renders x); [reflexivity|congruence]
    end.
Qed.

Lemma String_or_cases (v : option value) (d : string) :
  if unrendered v then String_or v d = Throw "TypeError"
  else exists t, String_or v d = Ok t.
Proof.
  destruct (unrendered v) eqn:Hu; destruct (String_or v d) as [t|e] eqn:E; eauto.
  - apply String_or_returns in E. congruence.
  - apply String_or_throws in E as [-> _]. reflexivity.
  - apply String_or_throws in E as [_ E]. congruence.
Qed.

Lemma event_type_throws (ev : value) (e : string) :
  event_type ev = Throw e -> e = "TypeError".
Proof.
  unfold event_type. destruct ev; cbn; try discriminate; try congruence.
  intros H. now apply String_or_throws in H.
Qed.

(** C2, as the code has it.  Take an event that the listener handles as a
    [tool_execution_update] or a [tool_execution_end]: one whose type
    [String] renders as this text.  When its [toolCallId] is missing, or is
    rendered by [String] as the empty text (as the empty string, the empty
    array and the array [[null]] are), the event is ignored: the listener
    returns and leaves every field of the session as it was.  When its id is
    rendered as a text that is not empty, the event is handled without a
    look at the live tool-call set: one [tool_call_update] for that text is
    queued, and for [tool_execution_end] the text leaves the set; the
    listener does not throw.  When [String] cannot render its id, the
    listener throws a TypeError, with every field of the session as it was.
    Every id is of one of these kinds: [String] throws on an object with an
    own [toString] member and on an array that holds one, and returns a text
    on every other value. *)
Theorem tool_event_without_id_ignored :
  (forall s ev,
      event_type ev = Ok "tool_execution_update" \/ event_type ev = Ok "tool_execution_end" ->
      String_or (get_opt (Some ev) "toolCallId") "" = Ok "" ->
      handlePiEvent ev s = (s, [])) /\
  (forall ev, toolCallId_missing ev -> String_or (get_opt (Some ev) "toolCallId") "" = Ok "") /\
  (to_String (VStr "") = Ok "" /\ to_String (VArr []) = Ok "" /\
   to_String (VArr [VNull]) = Ok "") /\
  (forall s ev id,
      event_type ev = Ok "tool_execution_update" ->
      String_or (get_opt (Some ev) "toolCallId") "" = Ok id -> id <> "" ->
      handlePiEvent ev s
      = (emit (tool_call_update id in_progress
                 (content_of (toolResultToText JSON_stringify
                                (get_opt (Some ev) "partialResult")))
                 (get_opt (Some ev) "partialResult")) s, [])) /\
  (forall s ev id,
      event_type ev = Ok "tool_execution_end" ->
      String_or (get_opt (Some ev) "toolCallId") "" = Ok id -> id <> "" ->
      handlePiEvent ev s
      = (with_currentToolCalls (currentToolCalls s ∖ {[ id ]})
           (emit (tool_call_update id
                    (if truthy (get_opt (Some ev) "isError") then failed else completed)
                    (content_of (toolResultToText JSON_stringify
                                   (get_opt (Some ev) "result")))
                    (get_opt (Some ev) "result")) s), [])) /\
  (forall s ev,
      event_type ev = Ok "tool_execution_update" \/ event_type ev = Ok "tool_execution_end" ->
      unrendered (get_opt (Some ev) "toolCallId") = true ->
      handlePiEvent ev s = (s, [Uncaught "TypeError"])) /\
  (forall v : value,
      if renders v then exists t, to_String v = Ok t else to_String v = Throw "TypeError") /\
  (forall v : option value,
      if unrendered v then String_or v "" = Throw "TypeError"
      else exists t, String_or v "" = Ok t) /\
  (forall ev ty, event_of_type ev ty -> event_type ev = Ok ty).
Proof.
  split; [|split; [|split; [|split; [|split; [|split; [|split; [|split]]]]]]].
  - intros s ev [Hty|Hty] Hid; unfold Session.handlePiEvent; unfold event_type in Hty;
      rewrite Hty; cbn [String.eqb Ascii.eqb Bool.eqb]; rewrite Hid; reflexivity.
  - intros ev [Hm|Hm]; rewrite Hm; reflexivity.
  - repeat split.
  - intros s ev id Hty Hid Hne.
    unfold Session.handlePiEvent. unfold event_type in Hty. rewrite Hty.
    cbn [String.eqb Ascii.eqb Bool.eqb]. rewrite Hid.
    destruct id; [congruence|reflexivity].
  - intros s ev id Hty Hid Hne.
    unfold Session.handlePiEvent. unfold event_type in Hty. rewrite Hty.
    cbn [String.eqb Ascii.eqb Bool.eqb]. rewrite Hid.
    destruct id; [congruence|reflexivity].
  - intros s ev Hev Hid.
    pose proof (String_or_cases (get_opt (Some ev) "toolCallId") "") as Hthrow.
    rewrite Hid in Hthrow.
    destruct Hev as [Hty|Hty]; unfold Session.handlePiEvent; unfold event_type in Hty;
      rewrite Hty; cbn [String.eqb Ascii.eqb Bool.eqb]; rewrite Hthrow; reflexivity.
  - exact to_String_renders.
  - intros v. apply String_or_cases.
  - intros ev ty (fields & -> & Hty). unfold event_type, String_or. cbn [get bind].
    rewrite Hty. reflexivity.
Qed.

End Host.

(** ** The statements at concrete sessions *)

Local Abbreviation run' := (Session.run test_uuid test_stringify).
Local Abbreviation react' := (Session.react test_uuid test_stringify).
Local Abbreviation handlePiEvent' := (Session.handlePiEvent test_uuid test_stringify).

Lemma text_delta_is_text_delta_event (d : string) : text_delta_event (text_delta d) d.
Proof. eexists _, _. repeat split. Qed.

Lemma turn_end_is_turn_end : event_of_type turn_end "turn_end".
Proof. eexists. split; reflexivity. Qed.

(** The turn of [busy_session] through two more text deltas, a [turn_end]
    and two settlements. *)
Lemma turn_end_after_text_deltas_witness :
  let s := busy_session in
  let xs := [PiEvent (text_delta "b"); UpdateSettled true; PiEvent (text_delta "c")] in
  let oks := [true; false] in
  let r1 := run' s (xs ++ [PiEvent turn_end]) in
  let r2 := run' (fst r1) (map UpdateSettled oks) in
  let effects := snd r1 ++ snd r2 in
  updates_sent effects ++ queued (fst r2) = queued s ++ map agent_message_chunk ["b"; "c"] /\
  (length oks < outstanding (fst r1) ->
   pendingTurn (fst r2) = Some 0 /\ resolutions effects = []) /\
  (outstanding (fst r1) <= length oks ->
   pendingTurn (fst r2) = None /\
   effects
   = map (SessionUpdateCall (sessionId s)) (queued s ++ map agent_message_chunk ["b"; "c"])
     ++ [TurnResolved 0 (if cancelRequested s then cancelled else end_turn)]).
Proof.
  apply (turn_end_after_text_deltas test_uuid test_stringify busy_session 0
           [PiEvent (text_delta "b"); UpdateSettled true; PiEvent (text_delta "c")]
           ["b"; "c"] turn_end [true; false]).
  - reflexivity.
  - reflexivity.
  - repeat constructor; apply text_delta_is_text_delta_event.
  - apply turn_end_is_turn_end.
Defined.

Example busy_session_turn_resolves :
  snd (run' busy_session
         [PiEvent (text_delta "b"); UpdateSettled true; PiEvent (text_delta "c");
          PiEvent turn_end; UpdateSettled true; UpdateSettled false])
  = [SessionUpdateCall "s1" (agent_message_chunk "b");
     SessionUpdateCall "s1" (agent_message_chunk "c");
     TurnResolved 0 end_turn].
Proof. reflexivity. Qed.

(** C1, at an input where the code fails it.  A continuation registered by
    [flushEmits().finally] is not tied to the turn that was open when its
    event was observed: it resolves whatever turn is open when it runs.  In
    [session_with_stale_turn_end] the turn 1 is open and the continuation of
    a [turn_end] observed before its prompt is still waiting.  The session
    observes a text delta [c] and a [turn_end]; two updates are then
    outstanding.  One settlement later that continuation has resolved
    turn 1, while the update carrying [c], queued before the [turn_end] of
    turn 1, is still in flight. *)
Lemma stale_turn_end_resolves_early :
  let s := session_with_stale_turn_end in
  let r1 := run' s [PiEvent (text_delta "c"); PiEvent turn_end] in
  let r2 := run' (fst r1) (map UpdateSettled [true]) in
  pendingTurn s = Some 1 /\
  outstanding (fst r1) = 2 /\
  pendingTurn (fst r2) = None /\
  resolutions (snd r1 ++ snd r2) = [(1, end_turn)] /\
  inFlight (fst r2) = Some (agent_message_chunk "c").
Proof. repeat split. Qed.

(** The failure of the prompt request of [busy_session], whose one update
    in flight then settles. *)
Lemma prompt_failure_resolves_turn_witness :
  let s := busy_session in
  let r1 := react' s PromptFailed in
  (pendingTurn (fst (run' (fst r1) (map UpdateSettled []))) = Some 0 /\
   exists sent,
     snd r1 ++ snd (run' (fst r1) (map UpdateSettled []))
     = map (SessionUpdateCall (sessionId s)) sent) /\
  (pendingTurn (fst (run' (fst r1) (map UpdateSettled [true]))) = None /\
   snd r1 ++ snd (run' (fst r1) (map UpdateSettled [true]))
   = map (SessionUpdateCall (sessionId s)) (queued s) ++ [TurnResolved 0 error]).
Proof.
  split.
  - apply (proj1 (prompt_failure_resolves_turn test_uuid test_stringify busy_session 0 []
                    eq_refl eq_refl)).
    cbn. lia.
  - apply (proj1 (proj2 (prompt_failure_resolves_turn test_uuid test_stringify busy_session 0
                           [true] eq_refl eq_refl))).
    cbn. lia.
Defined.

(** C3, at an input where the code fails it, by the same defect.  In
    [session_with_stale_failure] the turn 1 is open, no [turn_end] has come
    since its prompt, one update is in flight, the update carrying [c] is
    queued, and the continuation of the failure of the previous prompt's
    request is still waiting.  The prompt request of turn 1 fails.  One
    settlement later the earlier continuation has resolved turn 1, while
    the update carrying [c], queued before the failure, is still in
    flight. *)
Lemma stale_failure_resolves_early :
  let s := session_with_stale_failure in
  let r1 := react' s PromptFailed in
  let r2 := run' (fst r1) (map UpdateSettled [true]) in
  pendingTurn s = Some 1 /\
  queued s = [agent_message_chunk "c"] /\
  outstanding s = 2 /\
  pendingTurn (fst r2) = None /\
  resolutions (snd r1 ++ snd r2) = [(1, error)] /\
  inFlight (fst r2) = Some (agent_message_chunk "c").
Proof. repeat split. Qed.

(** A second [prompt] on [busy_session]. *)
Lemma prompt_rejected_while_turn_open_witness :
  prompt "again" [] busy_session
  = (busy_session, [], invalid_request "A prompt is already in progress") /\
  react' busy_session (CallPrompt "again" []) = run_jobs busy_session.
Proof.
  apply (prompt_rejected_while_turn_open test_uuid test_stringify busy_session 0 "again" []).
  reflexivity.
Defined.

(** [cancel] on an idle session, then a prompt whose turn ends: the turn
    is not classified as cancelled. *)
Lemma prompt_resets_cancellation_witness :
  let s := new_session "s1" hello_cmds in
  let xs := [PiEvent (text_delta "a"); PiEvent turn_end; UpdateSettled true] in
  (exists s1,
      prompt "hi" [] s
      = (s1, [PromptRequest (expandSlashCommand "hi" (fileCommands s)) []],
         turn_promise (turns s)) /\
      cancelRequested s1 = false /\ pendingTurn s1 = Some (turns s)) /\
  Forall not_cancelled (snd (run' s (CallPrompt "hi" [] :: xs))) /\
  Forall not_cancelled (snd (run' s (CallCancel :: CallPrompt "hi" [] :: xs))).
Proof.
  apply (prompt_resets_cancellation test_uuid test_stringify
           (new_session "s1" hello_cmds) "hi" []
           [PiEvent (text_delta "a"); PiEvent turn_end; UpdateSettled true]).
  - reflexivity.
  - repeat constructor; discriminate.
Defined.

Example cancel_before_prompt :
  snd (run' (new_session "s1" hello_cmds)
         [CallCancel; CallPrompt "hi" []; PiEvent turn_end])
  = [AbortRequest; PromptRequest "hi" []; TurnResolved 0 end_turn].
Proof. reflexivity. Qed.

Example cancel_during_turn :
  snd (run' (new_session "s1" hello_cmds)
         [CallPrompt "hi" []; CallCancel; PiEvent turn_end])
  = [PromptRequest "hi" []; AbortRequest; TurnResolved 0 cancelled].
Proof. reflexivity. Qed.

(** The test of test/component/session-slash-commands.test.ts. *)
Example prompt_expands_slash_command :
  snd (run' (new_session "s1" expanded_cmds)
         [CallPrompt "/hello world" []; PiEvent turn_end])
  = [PromptRequest "Expanded world" []; TurnResolved 0 end_turn].
Proof. reflexivity. Qed.

(** A tool update without id on [busy_session], one with an id, one whose
    id is the empty array and one whose id is an object with an own
    [toString] member. *)
Lemma tool_event_without_id_ignored_witness :
  handlePiEvent' tool_update_without_id busy_session = (busy_session, []) /\
  handlePiEvent' (tool_update "call-9") busy_session
  = (emit (tool_call_update "call-9" in_progress None None) busy_session, []) /\
  handlePiEvent' (tool_update_with_id (VArr [])) busy_session = (busy_session, []) /\
  handlePiEvent' (tool_update_with_id (VObj [("toString", VNum 1)])) busy_session
  = (busy_session, [Uncaught "TypeError"]).
Proof.
  pose proof (tool_event_without_id_ignored test_uuid test_stringify)
    as (Hignored & Hmissing & _ & Hupdate & _ & Hthrow & _).
  split; [|split; [|split]].
  - apply Hignored.
    + left. reflexivity.
    + apply Hmissing. left. reflexivity.
  - apply (Hupdate busy_session (tool_update "call-9") "call-9").
    + reflexivity.
    + reflexivity.
    + discriminate.
  - apply Hignored.
    + left. reflexivity.
    + reflexivity.
  - apply Hthrow.
    + left. reflexivity.
    + reflexivity.
Defined.

(** C2 as stated fails.  The live tool-call set of [busy_session] is empty,
    so the id [call-9] is not in it; yet the [tool_execution_update] event
    for [call-9] queues a [tool_call_update] notification. *)
Lemma tool_update_for_unknown_id_is_queued :
  currentToolCalls busy_session = ∅ /\
  queued busy_session = [] /\
  exists s',
    handlePiEvent' (tool_update "call-9") busy_session = (s', []) /\
    queued s' = [tool_call_update "call-9" in_progress None None].
Proof. repeat split. eexists. split; reflexivity. Qed.

Section Order.

Variable randomUUID : nat -> string.
Variable JSON_stringify : value -> string.

Local Abbreviation handlePiEvent := (Session.handlePiEvent randomUUID JSON_stringify).
Local Abbreviation sync_part := (Session.sync_part randomUUID JSON_stringify).
Local Abbreviation react := (Session.react randomUUID JSON_stringify).
Local Abbreviation run := (Session.run randomUUID JSON_stringify).

(** ** What the listener leaves alone *)

Local Abbreviation notifications := (Session.notifications randomUUID JSON_stringify).
Local Abbreviation emitted := (Session.emitted randomUUID JSON_stringify).

Lemma handlePiEvent_chain (ev : value) (s s' : PiAcpSession) (es : list effect) :
  handlePiEvent ev s = (s', es) ->
  sessionId s' = sessionId s /\ turns s' = turns s /\ inFlight s' = inFlight s /\
  queued s' = queued s ++ notifications ev (draws s) /\
  draws s' = draws s + identifiers_drawn ev /\
  updates_sent es = [] /\ resolutions es = [].
Proof.
  unfold Session.handlePiEvent, Session.notifications, identifiers_drawn, event_type.
  destruct (let* ty := get ev "type" in String_or ty "") as [ty|e].
  2:{ intros H. simplify_eq. cbn. rewrite app_nil_r. repeat split; (lia || reflexivity). }
  destruct (String.eqb ty "message_update") eqn:E1.
  { apply String.eqb_eq in E1. subst ty. cbn. intros H.
    repeat case_match; simplify_eq; cbn;
      rewrite ?app_nil_r; repeat split; (lia || reflexivity). }
  destruct (String.eqb ty "tool_execution_start") eqn:E2.
  { apply String.eqb_eq in E2. subst ty. unfold String_or.
    destruct (get_opt (Some ev) "toolCallId") as [[ |b|n|t|items|fields]|];
      cbn [nullish];
      try (match goal with |- context [to_String ?v] => destruct (to_String v) end);
      cbn [bind];
      destruct (nullish (get_opt (Some ev) "toolName") (Ok "tool") to_String);
      cbn [bind]; intros H; simplify_eq; cbn;
      rewrite <- ?app_assoc, ?app_nil_r; repeat split; (lia || reflexivity). }
  destruct (String.eqb ty "tool_execution_update") eqn:E3.
  { destruct (String_or (get_opt (Some ev) "toolCallId") "") as [[|c id]|e];
      cbn [negb truthy_string]; intros H; simplify_eq; cbn; rewrite ?app_nil_r; repeat split; (lia || reflexivity). }
  destruct (String.eqb ty "tool_execution_end") eqn:E4.
  { destruct (String_or (get_opt (Some ev) "toolCallId") "") as [[|c id]|e];
      cbn [negb truthy_string]; intros H; simplify_eq; cbn; rewrite ?app_nil_r; repeat split; (lia || reflexivity). }
  destruct (String.eqb ty "turn_end") eqn:E5;
    intros H; simplify_eq; cbn; rewrite ?app_nil_r; repeat split; (lia || reflexivity).
Qed.

Lemma calls_for_calls (sid : string) (us : list SessionUpdate) :
  Forall (calls_for sid) (calls sid us).
Proof. induction us as [|u us IH]; cbn; constructor; [reflexivity|exact IH]. Qed.

(** Effects among which there is no call of [conn.sessionUpdate]. *)
Lemma calls_for_none (sid : string) (es : list effect) :
  updates_sent es = [] -> Forall (calls_for sid) es.
Proof.
  induction es as [|e es IH]; intros H; constructor.
  - destruct e; try exact I. discriminate.
  - apply IH. destruct e; try exact H. discriminate.
Qed.

Lemma sync_part_chain (s s1 : PiAcpSession) (x : stimulus) (e1 : list effect) :
  sync_part s x = (s1, e1) ->
  sessionId s1 = sessionId s /\ updates_sent e1 = [] /\ resolutions e1 = [] /\
  (queued s1 = queued s ++ emitted [x] (draws s) /\
   forall xs, emitted (x :: xs) (draws s) = emitted [x] (draws s) ++ emitted xs (draws s1)) /\
  in_flight s <= settlements [x] + in_flight s1 /\ in_flight s1 <= in_flight s.
Proof.
  unfold in_flight.
  destruct x as [m a| |ev| |ok]; cbn [Session.sync_part Session.emitted].
  - unfold prompt. destruct (pendingTurn s); intros H; inversion H; subst; cbn;
      rewrite ?app_nil_r; repeat split; lia.
  - intros H; inversion H; subst; cbn. rewrite ?app_nil_r. repeat split; lia.
  - intros H. apply handlePiEvent_chain in H as (Hsid & _ & Hi & Hq & Hd & Hu & Hr).
    rewrite Hi, Hd, !app_nil_r. cbn. repeat split; try lia; assumption.
  - intros H; inversion H; subst; cbn. rewrite ?app_nil_r. repeat split; lia.
  - intros H; inversion H; subst. unfold settle.
    destruct s as [sid cmds cr pt ctc [u|] q fl tn dr]; cbn; rewrite ?app_nil_r;
      repeat split; lia.
Qed.

Lemma start_delivery_chain (s s1 : PiAcpSession) (e1 : list effect) :
  start_delivery s = (s1, e1) ->
  sessionId s1 = sessionId s /\ pendingTurn s1 = pendingTurn s /\ turns s1 = turns s /\
  currentToolCalls s1 = currentToolCalls s /\
  e1 = calls (sessionId s) (updates_sent e1) /\
  updates_sent e1 ++ queued s1 = queued s /\
  length (updates_sent e1) + in_flight s = in_flight s1.
Proof.
  unfold start_delivery, in_flight.
  destruct (inFlight s) eqn:Hi, (queued s) eqn:Hq; intros H; inversion H; subst; cbn;
    rewrite ?Hi; repeat split; try assumption; try reflexivity; now rewrite Hq.
Qed.

Lemma run_flushes_chain (fs : list (nat * terminal)) :
  forall s s' e,
    run_flushes fs s = (s', e) ->
    sessionId s' = sessionId s /\ turns s' = turns s /\
    currentToolCalls s' = currentToolCalls s /\
    inFlight s' = inFlight s /\ queued s' = queued s /\
    updates_sent e = [] /\
    ((resolutions e = [] /\ pendingTurn s' = pendingTurn s) \/
     (exists t r, pendingTurn s = Some t /\ resolutions e = [(t, r)] /\
                  pendingTurn s' = None)).
Proof.
  induction fs as [|[n k] fs IH]; intros s s' e Hr; cbn in Hr.
  - inversion Hr; subst. cbn. repeat split. left. split; reflexivity.
  - destruct n as [|n].
    + destruct (run_flushes fs (with_pendingTurn None s)) as [s2 e2] eqn:E2.
      inversion Hr; subst.
      destruct (IH _ _ _ E2) as (Hsid & Htn & Htc & Hi & Hq & Hsent & Hres).
      cbn in Hsid, Htn, Htc, Hi, Hq, Hres.
      assert (Hres2 : resolutions e2 = [] /\ pendingTurn s' = None).
      { destruct Hres as [[H1 H2]|(t & r & H1 & _)]; [now split|discriminate]. }
      destruct Hres2 as [Hres2 Hp2].
      repeat split; try assumption.
      * rewrite updates_sent_app, Hsent. now destruct (pendingTurn s).
      * rewrite resolutions_app, Hres2, app_nil_r.
        destruct (pendingTurn s) as [t|] eqn:Hp; cbn.
        -- right. eexists _, _. repeat split. exact Hp2.
        -- left. now split.
    + destruct (run_flushes fs s) as [s1 e1] eqn:E1.
      inversion Hr; subst.
      destruct (IH _ _ _ E1) as (Hsid & Htn & Htc & Hi & Hq & Hsent & Hres).
      cbn. repeat split; assumption.
Qed.

Lemma run_jobs_chain (s s' : PiAcpSession) (e : list effect) :
  run_jobs s = (s', e) ->
  sessionId s' = sessionId s /\ turns s' = turns s /\
  currentToolCalls s' = currentToolCalls s /\
  updates_sent e ++ queued s' = queued s /\
  length (updates_sent e) + in_flight s = in_flight s' /\
  Forall (calls_for (sessionId s)) e /\
  ((resolutions e = [] /\ pendingTurn s' = pendingTurn s) \/
   (exists t r, pendingTurn s = Some t /\ resolutions e = [(t, r)] /\
                pendingTurn s' = None)).
Proof.
  unfold run_jobs. intros Hr.
  destruct (start_delivery s) as [s1 e1] eqn:E1.
  destruct (run_flushes (flushes s1) s1) as [s2 e2] eqn:E2.
  inversion Hr; subst.
  destruct (start_delivery_chain _ _ _ E1) as (Hsid1 & Hp1 & Htn1 & Htc1 & He1 & Hq1 & Hn1).
  destruct (run_flushes_chain _ _ _ _ E2) as (Hsid2 & Htn2 & Htc2 & Hi2 & Hq2 & Hsent2 & Hres2).
  rewrite updates_sent_app, Hsent2, app_nil_r, resolutions_app.
  assert (Hr1 : resolutions e1 = []).
  { rewrite He1. apply resolutions_calls. }
  rewrite Hr1. cbn [app].
  split; [congruence|]. split; [congruence|]. split; [congruence|].
  split; [now rewrite Hq2|]. split.
  { unfold in_flight in *. now rewrite Hi2. }
  split.
  - apply Forall_app. split.
    + rewrite He1. apply calls_for_calls.
    + now apply calls_for_none.
  - rewrite Hp1 in Hres2. exact Hres2.
Qed.

(** ** Delivery in order, one call at a time *)

Lemma run_flushes_draws (fs : list (nat * terminal)) :
  forall s, draws (fst (run_flushes fs s)) = draws s.
Proof.
  induction fs as [|[[|n] k] fs IH]; intros s; cbn.
  - reflexivity.
  - specialize (IH (with_pendingTurn None s)).
    destruct (run_flushes fs (with_pendingTurn None s)). exact IH.
  - specialize (IH s). destruct (run_flushes fs s). exact IH.
Qed.

Lemma run_jobs_draws (s : PiAcpSession) : draws (fst (run_jobs s)) = draws s.
Proof.
  unfold run_jobs.
  destruct (start_delivery s) as [s1 e1] eqn:E1.
  pose proof (run_flushes_draws (flushes s1) s1) as H.
  destruct (run_flushes (flushes s1) s1) as [s2 e2]. cbn [fst] in *. rewrite H.
  unfold start_delivery in E1.
  destruct (inFlight s), (queued s); inversion E1; reflexivity.
Qed.

Lemma react_chain (s s' : PiAcpSession) (x : stimulus) (es : list effect) :
  react s x = (s', es) ->
  sessionId s' = sessionId s /\
  updates_sent es ++ queued s' = queued s ++ emitted [x] (draws s) /\
  (forall xs, emitted (x :: xs) (draws s) = emitted [x] (draws s) ++ emitted xs (draws s')) /\
  length (updates_sent es) + in_flight s <= settlements [x] + in_flight s' /\
  Forall (calls_for (sessionId s)) es.
Proof.
  rewrite react_sync.
  destruct (sync_part s x) as [s1 e1] eqn:E1.
  destruct (run_jobs s1) as [s2 e2] eqn:E2.
  intros H; inversion H; subst.
  destruct (sync_part_chain _ _ _ _ E1) as (Hsid1 & Hs1 & _ & (Hq1 & Hd1) & Hn1 & _).
  destruct (run_jobs_chain _ _ _ E2) as (Hsid2 & _ & _ & Hq2 & Hn2 & Hc2 & _).
  pose proof (run_jobs_draws s1) as Hd2. rewrite E2 in Hd2. cbn [fst] in Hd2.
  rewrite updates_sent_app, Hs1. cbn [app].
  split; [congruence|]. split; [now rewrite Hq2|].
  split; [now rewrite Hd2|]. split; [lia|].
  apply Forall_app. split.
  - now apply calls_for_none.
  - now rewrite <- Hsid1.
Qed.

Lemma settlements_cons (x : stimulus) (xs : list stimulus) :
  settlements (x :: xs) = settlements [x] + settlements xs.
Proof. unfold settlements. cbn. now destruct x. Qed.

(** X3.  Whatever happens to a session, in whatever order: the calls of
    [conn.sessionUpdate] it makes, followed by the updates it still holds
    back, are the updates it held back at the start followed by the
    notifications the pi events call for, event by event; none is dropped,
    doubled or overtaken, and nothing else is sent.  A call is made only
    when the previous one has settled: the number of calls made is at most
    the number of settlements plus one, and at most the number of
    settlements when a call was in flight at the start.  Every call names
    the session. *)
Theorem updates_delivered_in_order (xs : list stimulus) (s : PiAcpSession) :
  let r := run s xs in
  updates_sent (snd r) ++ queued (fst r) = queued s ++ emitted xs (draws s) /\
  length (updates_sent (snd r)) + in_flight s <= settlements xs + in_flight (fst r) /\
  in_flight (fst r) <= 1 /\
  Forall (calls_for (sessionId s)) (snd r) /\
  sessionId (fst r) = sessionId s.
Proof.
  cbn zeta. revert s. induction xs as [|x xs IH]; intros s.
  - cbn. split; [now rewrite app_nil_r|].
    split; [lia|]. split; [unfold in_flight; destruct (inFlight s); lia|].
    split; [constructor|reflexivity].
  - rewrite run_cons.
    destruct (react s x) as [s1 e1] eqn:E1.
    destruct (run s1 xs) as [s2 e2] eqn:E2. cbn [fst snd].
    destruct (react_chain _ _ _ _ E1) as (Hsid1 & Hq1 & Hd1 & Hn1 & Hc1).
    specialize (IH s1). rewrite E2 in IH. cbn [fst snd] in IH.
    destruct IH as (Hq2 & Hn2 & Hone & Hc2 & Hsid2).
    rewrite updates_sent_app, length_app, settlements_cons.
    split; [|split; [lia|split; [exact Hone|split; [|congruence]]]].
    + rewrite Hd1, <- app_assoc, Hq2, !app_assoc, Hq1. reflexivity.
    + apply Forall_app. split; [exact Hc1|now rewrite <- Hsid1].
Qed.

(** The notifications of a run on [busy_session]: a chunk, the two
    announcements of a tool call that draws its identifier, nothing for an
    event whose type [String] cannot render, and a chunk. *)
Example emitted_example :
  Session.emitted test_uuid test_stringify
    [PiEvent (text_delta "b"); UpdateSettled true;
     PiEvent (VObj [("type", VStr "tool_execution_start"); ("toolName", VStr "bash")]);
     PiEvent (VObj [("type", VObj [("toString", VNull)])]); CallCancel;
     PiEvent (text_delta "c")] 0
  = [ agent_message_chunk "b";
      tool_call "uuid-0" "bash" kind_execute pending None;
      tool_call_update "uuid-0" in_progress None None;
      agent_message_chunk "c" ].
Proof. reflexivity. Qed.

(** ** A turn resolves once *)

Lemma handlePiEvent_turns (ev : value) (s s' : PiAcpSession) (es : list effect) :
  handlePiEvent ev s = (s', es) -> pendingTurn s' = pendingTurn s /\ turns s' = turns s.
Proof.
  intros H. split.
  - now apply handlePiEvent_keeps_flag in H.
  - now apply handlePiEvent_chain in H.
Qed.

Lemma sync_part_turns (s s1 : PiAcpSession) (x : stimulus) (e1 : list effect) :
  sync_part s x = (s1, e1) -> turn_known s ->
  turn_known s1 /\ (forall t, resolvable s1 t -> resolvable s t).
Proof.
  unfold turn_known, resolvable.
  destruct x as [m a| |ev| |ok]; cbn [Session.sync_part].
  - unfold prompt. destruct (pendingTurn s) eqn:Hp; intros H; inversion H; subst; cbn.
    + rewrite Hp. auto.
    + intros _. split; [lia|]. intros t [[= <-]|Ht]; right; lia.
  - intros H; inversion H; subst; cbn. auto.
  - intros H. apply handlePiEvent_turns in H as [-> ->]. auto.
  - intros H; inversion H; subst; cbn. auto.
  - intros H; inversion H; subst.
    destruct (same_turn_settle s) as (_ & -> & _).
    unfold settle. destruct (inFlight s); cbn; auto.
Qed.

Lemma react_turns (s s' : PiAcpSession) (x : stimulus) (es : list effect) :
  react s x = (s', es) -> turn_known s ->
  turn_known s' /\ (forall t, resolvable s' t -> resolvable s t) /\
  List.NoDup (resolved_turns es) /\
  (forall t, In t (resolved_turns es) -> resolvable s t /\ ~ resolvable s' t).
Proof.
  rewrite react_sync.
  destruct (sync_part s x) as [s1 e1] eqn:E1.
  destruct (run_jobs s1) as [s2 e2] eqn:E2.
  intros H Hk; inversion H; subst.
  destruct (sync_part_turns _ _ _ _ E1 Hk) as (Hk1 & Hmono1).
  destruct (sync_part_chain _ _ _ _ E1) as (_ & _ & Hr1 & _).
  destruct (run_jobs_chain _ _ _ E2) as (_ & Htn & _ & _ & _ & _ & Hres).
  unfold resolved_turns. rewrite resolutions_app, Hr1. cbn [app].
  unfold turn_known, resolvable in *. rewrite Htn.
  destruct Hres as [[-> Hp]|(t & r & Hp & -> & Hp')].
  - rewrite Hp. split; [exact Hk1|]. split; [exact Hmono1|].
    split; [constructor|]. intros t [].
  - rewrite Hp'. rewrite Hp in Hk1. cbn [map fst].
    split; [exact I|]. split; [|split].
    + intros t' [Ht'|Ht']; [discriminate|]. apply Hmono1. now right.
    + constructor; [intros []|constructor].
    + intros t' [<-|[]]. split; [apply Hmono1; now left|].
      intros [Ht|Ht]; [discriminate|lia].
Qed.

Lemma run_turns (xs : list stimulus) :
  forall s s' es,
    run s xs = (s', es) -> turn_known s ->
    turn_known s' /\ (forall t, resolvable s' t -> resolvable s t) /\
    List.NoDup (resolved_turns es) /\
    (forall t, In t (resolved_turns es) -> resolvable s t /\ ~ resolvable s' t).
Proof.
  induction xs as [|x xs IH]; intros s s' es Hr Hk.
  - inversion Hr; subst. cbn.
    split; [exact Hk|]. split; [auto|]. split; [constructor|]. intros t [].
  - rewrite run_cons in Hr.
    destruct (react s x) as [s1 e1] eqn:E1.
    destruct (run s1 xs) as [s2 e2] eqn:E2.
    inversion Hr; subst.
    destruct (react_turns _ _ _ _ E1 Hk) as (Hk1 & Hmono1 & Hnd1 & Hin1).
    destruct (IH _ _ _ E2 Hk1) as (Hk2 & Hmono2 & Hnd2 & Hin2).
    split; [exact Hk2|]. split; [auto|].
    unfold resolved_turns in *. rewrite resolutions_app, map_app. split.
    + apply List.NoDup_app; [exact Hnd1|exact Hnd2|].
      intros t Ht1 Ht2.
      destruct (Hin1 t Ht1) as [_ Hn]. destruct (Hin2 t Ht2) as [Hy _]. contradiction.
    + intros t Ht. apply in_app_or in Ht as [Ht|Ht].
      * destruct (Hin1 t Ht) as [Hy Hn]. split; [exact Hy|]. intros Hc. apply Hn. auto.
      * destruct (Hin2 t Ht) as [Hy Hn]. split; [auto|exact Hn].
Qed.

(** X4.  Whatever happens to a session, in whatever order, no turn is
    resolved twice and none is rejected; a turn that is resolved was open
    at the start or was opened since, and is not open afterwards. *)
Theorem turn_resolved_at_most_once (xs : list stimulus) (s : PiAcpSession) :
  turn_known s ->
  let r := run s xs in
  List.NoDup (resolved_turns (snd r)) /\
  Forall never_rejects (snd r) /\
  forall t, In t (resolved_turns (snd r)) ->
    (pendingTurn s = Some t \/ turns s <= t) /\
    t < turns (fst r) /\ pendingTurn (fst r) <> Some t.
Proof.
  intros Hk. cbn zeta.
  destruct (run s xs) as [s' es] eqn:E. cbn [fst snd].
  destruct (run_turns _ _ _ _ E Hk) as (Hk' & _ & Hnd & Hin).
  split; [exact Hnd|]. split.
  - pose proof (proj1 (run_effects randomUUID JSON_stringify xs s)) as H.
    now rewrite E in H.
  - intros t Ht. destruct (Hin t Ht) as [Hy Hn]. unfold resolvable in *.
    split; [exact Hy|]. split; [lia|]. intros Hp. apply Hn. now left.
Qed.

(** ** When the listener throws *)

(** X7.  The listener throws exactly on the events for which a conversion
    by [String] fails: the value [null], whose [type] cannot be read; an
    event whose type cannot be rendered; a [tool_execution_start] whose
    [toolCallId] or [toolName] cannot be rendered; a
    [tool_execution_update] or [tool_execution_end] whose [toolCallId]
    cannot be rendered.  What it throws is a TypeError, and it has then
    queued nothing and left the live tool-call set and the waiting
    continuations as they were.  On every other event it returns.  In both
    cases the open turn and the cancellation flag are as they were, and on
    an event whose type is rendered as none of the five the listener has a
    case for, it changes nothing at all. *)
Theorem handlePiEvent_throws (ev : value) (s : PiAcpSession) :
  let r := handlePiEvent ev s in
  (if listener_throws ev
   then snd r = [Uncaught "TypeError"] /\ queued (fst r) = queued s /\
        inFlight (fst r) = inFlight s /\
        currentToolCalls (fst r) = currentToolCalls s /\ flushes (fst r) = flushes s
   else snd r = []) /\
  pendingTurn (fst r) = pendingTurn s /\ cancelRequested (fst r) = cancelRequested s /\
  (forall ty, event_type ev = Ok ty -> ~ In ty handled_types -> r = (s, [])) /\
  listener_throws VNull = true /\
  listener_throws (VObj [("type", VObj [("toString", VStr "x")])]) = true /\
  listener_throws (tool_update_with_id (VArr [VObj [("toString", VNull)]])) = true.
Proof.
  cbn zeta.
  split; [|split; [|split; [|split; [|repeat split]]]].
  2,3: destruct (handlePiEvent ev s) as [s' es] eqn:E;
       apply handlePiEvent_keeps_flag in E as (Hc & Hp & _); assumption.
  - unfold listener_throws, Session.handlePiEvent, event_type.
    destruct (let* ty := get ev "type" in String_or ty "") as [ty|e] eqn:Ety.
    2:{ apply event_type_throws in Ety. subst e. repeat split. }
    destruct (String.eqb ty "message_update") eqn:E1.
    { apply String.eqb_eq in E1. subst ty. cbn. repeat case_match; reflexivity. }
    destruct (String.eqb ty "tool_execution_start") eqn:E2.
    { pose proof (String_or_cases (get_opt (Some ev) "toolName") "tool") as Hname.
      pose proof (to_String_renders) as Hid.
      unfold unrendered in *.
      destruct (get_opt (Some ev) "toolCallId") as [[ |b|n|t|items|fields]|];
        cbn [nullish negb orb bind];
        try (match goal with
             | |- context [to_String ?v] =>
                 specialize (Hid v); destruct (renders v);
                 [destruct Hid as [id ->]|rewrite Hid]
             end);
        cbn [negb orb bind]; try (repeat split; fail);
        (destruct (nullish (get_opt (Some ev) "toolName") false
                     (fun x => negb (renders x)));
         [rewrite Hname|destruct Hname as [name ->]]);
        cbn [bind]; repeat split. }
    assert (Hupd : forall k : string -> PiAcpSession * list effect,
               (forall id, snd (k id) = []) ->
               if unrendered (get_opt (Some ev) "toolCallId")
               then
                 snd (match String_or (get_opt (Some ev) "toolCallId") "" with
                      | Ok id => k id
                      | Throw e => (s, [Uncaught e])
                      end) = [Uncaught "TypeError"] /\
                 match String_or (get_opt (Some ev) "toolCallId") "" with
                 | Ok id => k id
                 | Throw e => (s, [Uncaught e])
                 end = (s, [Uncaught "TypeError"])
               else
                 snd (match String_or (get_opt (Some ev) "toolCallId") "" with
                      | Ok id => k id
                      | Throw e => (s, [Uncaught e])
                      end) = []).
    { intros k Hk.
      pose proof (String_or_cases (get_opt (Some ev) "toolCallId") "") as Hid.
      destruct (unrendered (get_opt (Some ev) "toolCallId")).
      - rewrite Hid. split; reflexivity.
      - destruct Hid as [id ->]. apply Hk. }
    destruct (String.eqb ty "tool_execution_update") eqn:E3.
    { cbn [orb].
      match goal with
      | |- context [match String_or _ _ with Ok id => @?k id | Throw _ => _ end] =>
          specialize (Hupd k)
      end.
      destruct (unrendered (get_opt (Some ev) "toolCallId")).
      - destruct Hupd as [H1 H2]; [intros id; now destruct id|].
        rewrite H2. repeat split.
      - apply Hupd. intros id; now destruct id. }
    destruct (String.eqb ty "tool_execution_end") eqn:E4.
    { cbn [orb].
      match goal with
      | |- context [match String_or _ _ with Ok id => @?k id | Throw _ => _ end] =>
          specialize (Hupd k)
      end.
      destruct (unrendered (get_opt (Some ev) "toolCallId")).
      - destruct Hupd as [H1 H2]; [intros id; now destruct id|].
        rewrite H2. repeat split.
      - apply Hupd. intros id; now destruct id. }
    cbn [orb]. destruct (String.eqb ty "turn_end"); reflexivity.
  - intros ty Hty Hnone. unfold Session.handlePiEvent.
    unfold event_type in Hty. rewrite Hty.
    unfold handled_types in Hnone.
    repeat match goal with
           | |- context [String.eqb ?a ?b] =>
               destruct (String.eqb_spec a b) as [Heq|_];
               [exfalso; apply Hnone; rewrite Heq; cbn; tauto|cbv iota]
           end.
    reflexivity.
Qed.

(** ** The life of a tool call *)

Lemma handlePiEvent_tool_start (ev : value) (id name : string) (s : PiAcpSession) :
  tool_event ev "tool_execution_start" id ->
  get_opt (Some ev) "toolName" = Some (VStr name) ->
  handlePiEvent ev s
  = (emit (tool_call_update id in_progress None None)
       (emit (tool_call id name (toToolKind name) pending (get_opt (Some ev) "args"))
          (with_currentToolCalls ({[ id ]} ∪ currentToolCalls s) s)), []).
Proof.
  intros [(fields & -> & Hty) Hid] Hname.
  unfold Session.handlePiEvent, String_or. cbn [get bind]. rewrite Hty. cbn.
  cbn in Hid, Hname. rewrite Hid, Hname. reflexivity.
Qed.

Lemma handlePiEvent_tool_update (ev : value) (id : string) (s : PiAcpSession) :
  tool_event ev "tool_execution_update" id -> id <> "" ->
  handlePiEvent ev s
  = (emit (tool_call_update id in_progress
             (content_of (toolResultToText JSON_stringify
                            (get_opt (Some ev) "partialResult")))
             (get_opt (Some ev) "partialResult")) s, []).
Proof.
  intros [(fields & -> & Hty) Hid] Hne.
  unfold Session.handlePiEvent, String_or. cbn [get bind]. rewrite Hty. cbn.
  cbn in Hid. rewrite Hid. cbn.
  destruct id; [congruence|reflexivity].
Qed.

Lemma handlePiEvent_tool_end (ev : value) (id : string) (s : PiAcpSession) :
  tool_event ev "tool_execution_end" id -> id <> "" ->
  handlePiEvent ev s
  = (with_currentToolCalls (currentToolCalls s ∖ {[ id ]})
       (emit (tool_call_update id
                (if truthy (get_opt (Some ev) "isError") then failed else completed)
                (content_of (toolResultToText JSON_stringify
                               (get_opt (Some ev) "result")))
                (get_opt (Some ev) "result")) s), []).
Proof.
  intros [(fields & -> & Hty) Hid] Hne.
  unfold Session.handlePiEvent, String_or. cbn [get bind]. rewrite Hty. cbn.
  cbn in Hid. rewrite Hid. cbn.
  destruct id; [congruence|reflexivity].
Qed.

(** A task whose synchronous part is known: the promise jobs only start
    deliveries of what is queued. *)
Lemma react_event (ev : value) (s s1 : PiAcpSession) :
  handlePiEvent ev s = (s1, []) ->
  exists s' es,
    react s (PiEvent ev) = (s', es) /\
    currentToolCalls s' = currentToolCalls s1 /\
    updates_sent es ++ queued s' = queued s1.
Proof.
  intros Hev. rewrite react_sync. cbn [Session.sync_part]. rewrite Hev.
  destruct (run_jobs s1) as [s2 e2] eqn:E2.
  destruct (run_jobs_chain _ _ _ E2) as (_ & _ & Htc & Hq & _).
  exists s2, ([] ++ e2). split; [reflexivity|]. split; [exact Htc|exact Hq].
Qed.

Lemma react_settled (ok : bool) (s : PiAcpSession) :
  exists s' es,
    react s (UpdateSettled ok) = (s', es) /\
    currentToolCalls s' = currentToolCalls s /\
    updates_sent es ++ queued s' = queued s.
Proof.
  rewrite react_sync. cbn [Session.sync_part].
  destruct (run_jobs (settle s)) as [s2 e2] eqn:E2.
  destruct (run_jobs_chain _ _ _ E2) as (_ & _ & Htc & Hq & _).
  exists s2, ([] ++ e2). split; [reflexivity|]. split.
  - rewrite Htc. unfold settle. now destruct (inFlight s).
  - cbn [app]. now rewrite Hq, queued_settle.
Qed.

Lemma run_tool_feed (id : string) (xs : list stimulus) (partials : list (option value)) :
  id <> "" -> tool_feed id xs partials ->
  forall s,
    exists s' es,
      run s xs = (s', es) /\
      currentToolCalls s' = currentToolCalls s /\
      updates_sent es ++ queued s'
      = queued s
        ++ map (fun p => tool_call_update id in_progress
                           (content_of (toolResultToText JSON_stringify p)) p) partials.
Proof.
  intros Hne. induction 1 as [|ev xs ps Hev _ IH|ok xs ps _ IH]; intros s.
  - exists s, []. cbn. now rewrite app_nil_r.
  - destruct (react_event ev s _ (handlePiEvent_tool_update ev id s Hev Hne))
      as (s1 & e1 & Hr1 & Htc1 & Hq1).
    destruct (IH s1) as (s2 & e2 & Hr2 & Htc2 & Hq2).
    exists s2, (e1 ++ e2). rewrite run_cons, Hr1, Hr2.
    split; [reflexivity|]. split; [now rewrite Htc2, Htc1|].
    rewrite updates_sent_app, <- app_assoc, Hq2, app_assoc, Hq1.
    cbn. now rewrite <- app_assoc.
  - destruct (react_settled ok s) as (s1 & e1 & Hr1 & Htc1 & Hq1).
    destruct (IH s1) as (s2 & e2 & Hr2 & Htc2 & Hq2).
    exists s2, (e1 ++ e2). rewrite run_cons, Hr1, Hr2.
    split; [reflexivity|]. split; [now rewrite Htc2, Htc1|].
    rewrite updates_sent_app, <- app_assoc, Hq2, app_assoc, Hq1. reflexivity.
Qed.

(** X5.  The life of a tool call.  The session observes the start of the
    tool call [id] of the tool [name], then updates for [id] carrying the
    partial results [partials] (among which updates in flight may settle),
    then the end of [id].  Between the start and the end, [id] is in the
    live tool-call set; after the end it is not.  The notifications the
    session queues for it, behind those it held back before, are in this
    order: the announcement with status [pending], kind and raw input; one
    with status [in_progress]; one with status [in_progress] for each
    partial result; and one with status [failed] if the end event reports an
    error and [completed] otherwise. *)
Theorem tool_call_lifecycle
    (s : PiAcpSession) (id name : string) (ev_start ev_end : value)
    (xs : list stimulus) (partials : list (option value)) :
  id <> "" ->
  tool_event ev_start "tool_execution_start" id ->
  get_opt (Some ev_start) "toolName" = Some (VStr name) ->
  tool_feed id xs partials ->
  tool_event ev_end "tool_execution_end" id ->
  let r1 := run s (PiEvent ev_start :: xs) in
  let r2 := run (fst r1) [PiEvent ev_end] in
  let result := get_opt (Some ev_end) "result" in
  (id ∈ currentToolCalls (fst r1)) /\
  (id ∉ currentToolCalls (fst r2)) /\
  currentToolCalls (fst r2) = currentToolCalls s ∖ {[ id ]} /\
  updates_sent (snd r1 ++ snd r2) ++ queued (fst r2)
  = queued s
    ++ [tool_call id name (toToolKind name) pending (get_opt (Some ev_start) "args");
        tool_call_update id in_progress None None]
    ++ map (fun p => tool_call_update id in_progress
                       (content_of (toolResultToText JSON_stringify p)) p) partials
    ++ [tool_call_update id
          (if truthy (get_opt (Some ev_end) "isError") then failed else completed)
          (content_of (toolResultToText JSON_stringify result)) result].
Proof.
  intros Hne Hstart Hname Hfeed Hend. cbn zeta.
  destruct (react_event ev_start s _ (handlePiEvent_tool_start ev_start id name s Hstart Hname))
    as (s1 & e1 & Hr1 & Htc1 & Hq1).
  destruct (run_tool_feed id xs partials Hne Hfeed s1) as (s2 & e2 & Hr2 & Htc2 & Hq2).
  destruct (react_event ev_end s2 _ (handlePiEvent_tool_end ev_end id s2 Hend Hne))
    as (s3 & e3 & Hr3 & Htc3 & Hq3).
  rewrite run_cons, Hr1, Hr2. cbn [fst snd]. rewrite run_cons, Hr3. cbn [Session.run fst snd].
  cbn in Htc1, Hq1, Htc3, Hq3.
  rewrite Htc3, Htc2, Htc1.
  split; [|split; [|split]].
  { apply elem_of_union. left. now apply elem_of_singleton. }
  { intros Hin. apply elem_of_difference in Hin as [_ Hin].
    apply Hin. now apply elem_of_singleton. }
  { apply set_eq. intros x.
    rewrite !elem_of_difference, elem_of_union, elem_of_singleton. tauto. }
  rewrite app_nil_r, !updates_sent_app, <- !app_assoc, Hq3.
  rewrite (app_assoc (updates_sent e2)), Hq2.
  rewrite !app_assoc, Hq1, <- !app_assoc. reflexivity.
Qed.

(** ** Cancellation of the open turn *)

(** X6.  [cancel] while a turn is open.  The session has the open turn [t]
    and no continuation of an earlier terminal event is waiting.  [cancel]
    is called; text deltas carrying [deltas] are observed (among which
    updates in flight may settle); then the turn ends, by a [turn_end]
    event or by the failure of the prompt request, and the settlements
    [oks] follow.  The backend is asked to abort, once and first of all.
    As long as fewer settlements have come than there were updates
    outstanding at the end of the turn, the turn stays open; once that many
    have come, the session has delivered every update, in order, and then
    resolved [t], once, to [cancelled], whichever way the turn ended. *)
Theorem cancel_during_turn_resolves_cancelled
    (s : PiAcpSession) (t : nat) (xs : list stimulus) (deltas : list string)
    (x_end : stimulus) (k : terminal) (oks : list bool) :
  pendingTurn s = Some t -> flushes s = [] ->
  delta_feed xs deltas -> terminal_stimulus x_end k ->
  let r1 := run s (CallCancel :: xs ++ [x_end]) in
  let r2 := run (fst r1) (map UpdateSettled oks) in
  let effects := snd r1 ++ snd r2 in
  (length oks < outstanding (fst r1) ->
   pendingTurn (fst r2) = Some t /\ resolutions effects = []) /\
  (outstanding (fst r1) <= length oks ->
   pendingTurn (fst r2) = None /\
   effects
   = AbortRequest
     :: map (SessionUpdateCall (sessionId s)) (queued s ++ map agent_message_chunk deltas)
     ++ [TurnResolved t cancelled]).
Proof.
  intros Hp Hf Hfeed Hend. cbn zeta.
  rewrite run_cons, react_sync. cbn [Session.sync_part cancel].
  destruct (run_jobs_idle (with_cancelRequested true s))
    as (s0 & sent0 & Hr0 & Hf0 & (Hsid0 & Hp0 & Hcr0) & _ & Hq0 & _); [exact Hf|].
  rewrite Hr0. cbn in Hsid0, Hp0, Hcr0, Hq0.
  destruct (run_feed randomUUID JSON_stringify xs deltas Hfeed s0 Hf0)
    as (sa & senta & Hra & Hfa & (Hsida & Hpa & Hcra) & Hqa).
  rewrite Hp0, Hp in Hpa.
  destruct (terminal_then_settlements randomUUID JSON_stringify k sa t oks Hpa Hfa)
    as (s1 & e1 & s2 & e2 & Hr1 & Hr2 & Hout & Hlt & Hge).
  assert (Hrend : react sa x_end = (s1, e1)).
  { rewrite react_sync. destruct k; cbn in Hend.
    - destruct Hend as (ev & -> & Hev). cbn [Session.sync_part].
      rewrite (handlePiEvent_turn_end randomUUID JSON_stringify _ _ Hev), Hr1. reflexivity.
    - subst x_end. cbn [Session.sync_part]. unfold on_prompt_failure.
      rewrite Hr1. reflexivity. }
  rewrite run_app, Hra, run_cons, Hrend. cbn [Session.run fst snd].
  rewrite Hr2. cbn [fst snd]. rewrite Hout.
  cbn [app]. rewrite app_nil_r.
  assert (Hreason : reason_of k sa = cancelled).
  { unfold reason_of. now rewrite Hcra, Hcr0. }
  rewrite Hsida, Hsid0 in *.
  split.
  - intros Hlen. destruct (Hlt Hlen) as (Hp2 & sent & Hes & _).
    split; [exact Hp2|].
    rewrite <- !app_assoc, Hes. cbn [app sessionId with_cancelRequested].
    rewrite <- !calls_app. exact (resolutions_calls _ _).
  - intros Hlen. destruct (Hge Hlen) as (Hp2 & _ & _ & Hes).
    split; [exact Hp2|].
    rewrite <- !app_assoc, Hes, Hreason. cbn [app]. f_equal.
    rewrite !app_assoc. f_equal.
    rewrite <- !calls_app. unfold calls. f_equal.
    rewrite <- app_assoc, Hqa, app_assoc, Hq0. reflexivity.
Qed.

End Order.

(** ** The statements at concrete sessions *)


Lemma turn_resolved_at_most_once_witness :
  let xs := [PiEvent (text_delta "b"); PiEvent turn_end; CallCancel; PromptFailed;
             UpdateSettled true; UpdateSettled true; PiEvent turn_end] in
  let r := run' busy_session xs in
  List.NoDup (resolved_turns (snd r)) /\
  Forall never_rejects (snd r) /\
  forall t, In t (resolved_turns (snd r)) ->
    (pendingTurn busy_session = Some t \/ turns busy_session <= t) /\
    t < turns (fst r) /\ pendingTurn (fst r) <> Some t.
Proof.
  intros xs. apply (turn_resolved_at_most_once test_uuid test_stringify xs busy_session).
  cbn. lia.
Defined.

Lemma tool_call_lifecycle_witness :
  let s := busy_session in
  let xs := [PiEvent (tool_update_with "call-1" "half"); UpdateSettled true] in
  let r1 := run' s (PiEvent (tool_start "call-1" "bash") :: xs) in
  let r2 := run' (fst r1) [PiEvent (tool_end "call-1" true)] in
  ("call-1" ∈ currentToolCalls (fst r1)) /\
  ("call-1" ∉ currentToolCalls (fst r2)) /\
  currentToolCalls (fst r2) = currentToolCalls s ∖ {[ "call-1" ]} /\
  updates_sent (snd r1 ++ snd r2) ++ queued (fst r2)
  = queued s
    ++ [tool_call "call-1" "bash" kind_execute pending (Some (VObj [("path", VStr "a.ts")]));
        tool_call_update "call-1" in_progress None None]
    ++ [tool_call_update "call-1" in_progress (Some "half") (Some (text_result "half"))]
    ++ [tool_call_update "call-1" failed (Some "done") (Some (text_result "done"))].
Proof.
  intros s xs.
  apply (tool_call_lifecycle test_uuid test_stringify s "call-1" "bash"
           (tool_start "call-1" "bash") (tool_end "call-1" true) xs
           [Some (text_result "half")]).
  - discriminate.
  - split; [eexists; split; reflexivity|reflexivity].
  - reflexivity.
  - apply (tool_feed_update "call-1" (tool_update_with "call-1" "half")).
    + split; [eexists; split; reflexivity|reflexivity].
    + apply tool_feed_settled. apply tool_feed_nil.
  - split; [eexists; split; reflexivity|reflexivity].
Defined.

Lemma cancel_during_turn_resolves_cancelled_witness :
  let s := busy_session in
  let xs := [PiEvent (text_delta "b")] in
  let r1 := run' s (CallCancel :: xs ++ [PromptFailed]) in
  let r2 := run' (fst r1) (map UpdateSettled [true; true]) in
  let effects := snd r1 ++ snd r2 in
  (length [true; true] < outstanding (fst r1) ->
   pendingTurn (fst r2) = Some 0 /\ resolutions effects = []) /\
  (outstanding (fst r1) <= length [true; true] ->
   pendingTurn (fst r2) = None /\
   effects
   = AbortRequest
     :: map (SessionUpdateCall (sessionId s)) (queued s ++ map agent_message_chunk ["b"])
     ++ [TurnResolved 0 cancelled]).
Proof.
  intros s xs.
  apply (cancel_during_turn_resolves_cancelled test_uuid test_stringify s 0 xs ["b"]
           PromptFailed at_prompt_failure [true; true]).
  - reflexivity.
  - reflexivity.
  - apply feed_delta; [apply text_delta_is_text_delta_event|apply feed_nil].
  - reflexivity.
Defined.

End SessionFacts.

(* ===================================================================== *)
(** * Properties of src/pi-rpc/process.ts                                 *)
(* ===================================================================== *)

Module ProcessFacts.
Import JS.
Import Process.
Local Open Scope list_scope.

Section Host.

Variable Listener : Type.
Variable JSON_parse : string -> option value.

Local Abbreviation on_line := (@Process.on_line Listener JSON_parse).
Local Abbreviation on_message := (@Process.on_message Listener).
Local Abbreviation on_exit := (@Process.on_exit Listener).

(** The test of the line handler recognises exactly the response shape. *)
Lemma response_id_shape (msg : value) (id : string) :
  response_id msg = Some id <-> response_shape msg id.
Proof.
  unfold response_id, response_shape. split.
  - destruct msg as [| | | | |fields]; cbn; try discriminate.
    destruct (lookup_field "type" fields) as [[| | |t| |]|] eqn:Ht; try discriminate.
    destruct (String.eqb_spec t "response") as [->|_]; [|discriminate].
    destruct (lookup_field "id" fields) as [[| | |i| |]|] eqn:Hi; try discriminate.
    intros [= ->]. exists fields. repeat split; assumption.
  - intros (fields & -> & Ht & Hi). cbn. rewrite Ht, Hi. reflexivity.
Qed.

Lemma response_id_none (msg : value) :
  (forall id, ~ response_shape msg id) -> response_id msg = None.
Proof.
  intros Hno. destruct (response_id msg) as [id|] eqn:E; [|reflexivity].
  apply response_id_shape in E. now destruct (Hno id).
Qed.

Lemma on_line_parsed (line : string) (msg : value) (t : PiRpcProcess Listener) :
  trim_nonempty line = true -> JSON_parse line = Some msg ->
  on_line line t = on_message msg t.
Proof. intros Hne Hp. unfold Process.on_line. now rewrite Hne, Hp. Qed.

(** C5, as the code has it.  Of the lines that are not blank and parse: one
    that has the response shape and whose id is the id of no pending
    request is dropped (the transport is left as it was, nothing is
    resolved, no listener is called); one that has the response shape and
    whose id is pending resolves that request, retires the id and is given
    to no listener; one that lacks the response shape is given, as parsed,
    to every registered listener in registration order, and leaves the
    transport as it was. *)
Theorem line_handler_dispatch :
  (forall t line msg id,
      trim_nonempty line = true -> JSON_parse line = Some msg ->
      response_shape msg id -> map_get id (pending t) = None ->
      on_line line t = (t, [])) /\
  (forall t line msg id p,
      trim_nonempty line = true -> JSON_parse line = Some msg ->
      response_shape msg id -> map_get id (pending t) = Some p ->
      on_line line t
      = ({| pending := map_delete id (pending t);
            eventHandlers := eventHandlers t;
            requests := requests t |},
         [Resolve p msg])) /\
  (forall t line msg,
      trim_nonempty line = true -> JSON_parse line = Some msg ->
      (forall id, ~ response_shape msg id) ->
      on_line line t = (t, map (fun h => Dispatch h msg) (eventHandlers t))).
Proof.
  split; [|split].
  - intros t line msg id Hne Hp Hshape Hget.
    rewrite (on_line_parsed _ _ _ Hne Hp). unfold Process.on_message.
    apply response_id_shape in Hshape. now rewrite Hshape, Hget.
  - intros t line msg id p Hne Hp Hshape Hget.
    rewrite (on_line_parsed _ _ _ Hne Hp). unfold Process.on_message.
    apply response_id_shape in Hshape. now rewrite Hshape, Hget.
  - intros t line msg Hne Hp Hno.
    rewrite (on_line_parsed _ _ _ Hne Hp). unfold Process.on_message.
    now rewrite (response_id_none _ Hno).
Qed.

(** C6, as the code has it.  When the child process exits, every pending
    request is rejected, once, in the order the requests were made, with
    the error that names the exit code and signal; the pending map is left
    empty and the listeners stay registered.  The transport keeps no mark
    of the exit: a line read afterwards that parses and lacks the response
    shape is given to every listener as before. *)
Theorem exit_rejects_pending :
  (forall t code signal,
      snd (on_exit code signal t)
      = map (fun kp => Reject (snd kp) (process_exited code signal)) (pending t) /\
      pending (fst (on_exit code signal t)) = [] /\
      eventHandlers (fst (on_exit code signal t)) = eventHandlers t) /\
  (forall t code signal line msg,
      trim_nonempty line = true -> JSON_parse line = Some msg ->
      (forall id, ~ response_shape msg id) ->
      snd (on_line line (fst (on_exit code signal t)))
      = map (fun h => Dispatch h msg) (eventHandlers t)).
Proof.
  split.
  - intros t code signal. repeat split.
  - intros t code signal line msg Hne Hp Hno.
    rewrite (on_line_parsed _ _ _ Hne Hp). unfold Process.on_message.
    now rewrite (response_id_none _ Hno).
Qed.

End Host.

(** ** The statements at a concrete transport *)

Lemma turn_end_lacks_response_shape : forall id, ~ response_shape turn_end_event id.
Proof. intros id (fields & [= <-] & Ht & _). discriminate. Qed.

Lemma line_handler_dispatch_witness :
  Process.on_line test_parse "{response r1}" (onEvent "session" new_process)
  = (onEvent "session" new_process, []) /\
  Process.on_line test_parse "{response r1}" test_process
  = (test_process_retired, [Resolve 0 response_r1]) /\
  Process.on_line test_parse "{turn_end}" test_process
  = (test_process, [Dispatch "session" turn_end_event]).
Proof.
  split; [|split].
  - apply (proj1 (line_handler_dispatch string test_parse) _ _ response_r1 "r1");
      try reflexivity.
    eexists. repeat split.
  - apply (proj1 (proj2 (line_handler_dispatch string test_parse))
             test_process _ response_r1 "r1" 0); try reflexivity.
    eexists. repeat split.
  - apply (proj2 (proj2 (line_handler_dispatch string test_parse))
             test_process _ turn_end_event); try reflexivity.
    apply turn_end_lacks_response_shape.
Defined.

(** C5 as stated fails.  The line [{response r1}] parses, and its id [r1]
    is pending in [test_process]: it is one of the other successfully parsed
    lines, and it is given to no listener although one is registered. *)
Lemma matched_response_is_not_dispatched :
  test_parse "{response r1}" = Some response_r1 /\
  map_get "r1" (pending test_process) = Some 0 /\
  eventHandlers test_process = ["session"] /\
  dispatched (snd (Process.on_line test_parse "{response r1}" test_process)) = [].
Proof. repeat split. Qed.

Lemma exit_rejects_pending_witness :
  (snd (Process.on_exit (Some 1%Z) None test_process)
   = [Reject 0 (process_exited (Some 1%Z) None)] /\
   pending (fst (Process.on_exit (Some 1%Z) None test_process)) = [] /\
   eventHandlers (fst (Process.on_exit (Some 1%Z) None test_process)) = ["session"]) /\
  snd (Process.on_line test_parse "{turn_end}"
         (fst (Process.on_exit (Some 1%Z) None test_process)))
  = [Dispatch "session" turn_end_event].
Proof.
  split.
  - exact (proj1 (exit_rejects_pending string test_parse) test_process (Some 1%Z) None).
  - apply (proj2 (exit_rejects_pending string test_parse) test_process (Some 1%Z) None
             "{turn_end}" turn_end_event); try reflexivity.
    apply turn_end_lacks_response_shape.
Defined.

(** C6 as stated fails.  After the exit of the child process the line
    [{turn_end}] is read: the event is dispatched to the listener. *)
Lemma event_dispatched_after_exit :
  snd (handle_all test_parse test_process
         [Exit (Some 1%Z) None; Line "{turn_end}"])
  = [Reject 0 (process_exited (Some 1%Z) None); Dispatch "session" turn_end_event] /\
  dispatched
    (snd (handle test_parse
            (fst (handle test_parse test_process (Exit (Some 1%Z) None)))
            (Line "{turn_end}")))
  = [("session", turn_end_event)].
Proof. repeat split. Qed.

(** ** The pending map *)

Lemma map_set_fresh (id : string) (p : nat) (m : list (string * nat)) :
  map_get id m = None -> map_set id p m = m ++ [(id, p)].
Proof.
  induction m as [|[k q] m IH]; cbn; [reflexivity|].
  destruct (String.eqb k id); [discriminate|]. intros H. now rewrite IH.
Qed.

Lemma map_get_set (id : string) (p : nat) (m : list (string * nat)) :
  map_get id (map_set id p m) = Some p.
Proof.
  induction m as [|[k q] m IH]; cbn.
  - now rewrite String.eqb_refl.
  - destruct (String.eqb k id) eqn:E; cbn; rewrite E; [reflexivity|exact IH].
Qed.

Lemma map_delete_set_fresh (id : string) (p : nat) (m : list (string * nat)) :
  map_get id m = None -> map_delete id (map_set id p m) = m.
Proof.
  induction m as [|[k q] m IH]; cbn.
  - now rewrite String.eqb_refl.
  - destruct (String.eqb k id) eqn:E; [discriminate|]. cbn. rewrite E.
    intros H. now rewrite IH.
Qed.

Lemma map_get_In (id : string) (p : nat) (m : list (string * nat)) :
  map_get id m = Some p -> In (id, p) m.
Proof.
  induction m as [|[k q] m IH]; cbn; [discriminate|].
  destruct (String.eqb_spec k id) as [->|Hne].
  - intros [= ->]. now left.
  - intros H. right. now apply IH.
Qed.

Lemma in_keys (k : string) (v : nat) (m : list (string * nat)) :
  In (k, v) m -> In k (map fst m).
Proof. intros H. now apply (in_map fst) in H. Qed.

Lemma in_vals (v : nat) (m : list (string * nat)) :
  In v (map snd m) <-> exists k, In (k, v) m.
Proof.
  rewrite in_map_iff. split.
  - intros ([k v'] & Hv & Hin). cbn in Hv. subst v'. now exists k.
  - intros (k & Hin). now exists (k, v).
Qed.

(** Under distinct promises, a promise is pending under one id only. *)
Lemma one_id (m : list (string * nat)) (k1 k2 : string) (v : nat) :
  List.NoDup (map snd m) -> In (k1, v) m -> In (k2, v) m -> k1 = k2.
Proof.
  induction m as [|[k q] m IH]; cbn; [tauto|].
  intros Hnd H1 H2. apply List.NoDup_cons_iff in Hnd as [Hq Hnd].
  destruct H1 as [H1|H1], H2 as [H2|H2].
  - congruence.
  - exfalso. apply Hq, in_vals. exists k2. congruence.
  - exfalso. apply Hq, in_vals. exists k1. congruence.
  - now apply IH.
Qed.

Lemma map_delete_spec (id : string) (m : list (string * nat)) (k : string) (v : nat) :
  List.NoDup (map fst m) ->
  In (k, v) (map_delete id m) <-> In (k, v) m /\ k <> id.
Proof.
  induction m as [|[k' q] m IH]; cbn; [tauto|].
  intros Hnd. apply List.NoDup_cons_iff in Hnd as [Hk Hnd].
  destruct (String.eqb_spec k' id) as [->|Hne]; cbn.
  - split.
    + intros H. split; [now right|]. intros ->. apply Hk. now apply in_keys in H.
    + intros [[[= <- <-]|H] Hid]; [congruence|exact H].
  - rewrite (IH Hnd). split.
    + intros [[= <- <-]|[H Hid]]; [split; [now left|exact Hne]|split; [now right|exact Hid]].
    + intros [[[= <- <-]|H] Hid]; [now left|right; now split].
Qed.

Lemma map_set_spec (id : string) (p : nat) (m : list (string * nat)) (k : string) (v : nat) :
  List.NoDup (map fst m) ->
  In (k, v) (map_set id p m) <-> (k, v) = (id, p) \/ (In (k, v) m /\ k <> id).
Proof.
  induction m as [|[k' q] m IH]; cbn.
  - intros _. split; [intros [H|[]]; left; congruence|intros [H|[[] _]]; left; congruence].
  - intros Hnd. apply List.NoDup_cons_iff in Hnd as [Hk Hnd].
    destruct (String.eqb_spec k' id) as [->|Hne]; cbn.
    + split.
      * intros [H|H]; [left; congruence|].
        right. split; [now right|]. intros ->. apply Hk. now apply in_keys in H.
      * intros [H|[[H|H] Hid]]; [left; congruence|congruence|now right].
    + rewrite (IH Hnd). split.
      * intros [[= <- <-]|[H|[H Hid]]];
          [right; split; [now left|exact Hne]|now left|right; split; [now right|exact Hid]].
      * intros [H|[[[= <- <-]|H] Hid]]; [right; now left|now left|right; right; now split].
Qed.

Lemma map_delete_keys (id : string) (m : list (string * nat)) :
  List.NoDup (map fst m) -> List.NoDup (map fst (map_delete id m)).
Proof.
  induction m as [|[k q] m IH]; cbn; [constructor|].
  intros Hnd. apply List.NoDup_cons_iff in Hnd as [Hk Hnd].
  destruct (String.eqb k id); [exact Hnd|]. cbn. constructor; [|now apply IH].
  intros Hin. apply Hk. apply in_map_iff in Hin as ([k' v] & Hk' & Hin). cbn in Hk'. subst k'.
  apply map_delete_spec in Hin as [Hin _]; [|exact Hnd]. now apply in_keys in Hin.
Qed.

Lemma map_delete_vals_In (id : string) (m : list (string * nat)) (v : nat) :
  In v (map snd (map_delete id m)) -> In v (map snd m).
Proof.
  induction m as [|[k q] m IH]; cbn; [tauto|].
  destruct (String.eqb k id); cbn; [now right|].
  intros [<-|H]; [now left|right; now apply IH].
Qed.

Lemma map_delete_vals (id : string) (m : list (string * nat)) :
  List.NoDup (map snd m) -> List.NoDup (map snd (map_delete id m)).
Proof.
  induction m as [|[k q] m IH]; cbn; [constructor|].
  intros Hnd. apply List.NoDup_cons_iff in Hnd as [Hq Hnd].
  destruct (String.eqb k id); [exact Hnd|]. cbn. constructor; [|now apply IH].
  intros Hin. apply Hq. now apply map_delete_vals_In in Hin.
Qed.

Lemma map_set_keys_In (id : string) (p : nat) (m : list (string * nat)) (k : string) :
  In k (map fst (map_set id p m)) -> k = id \/ In k (map fst m).
Proof.
  induction m as [|[k' q] m IH]; cbn.
  - intros [<-|[]]. now left.
  - destruct (String.eqb k' id); cbn.
    + intros [<-|H]; right; [now left|now right].
    + intros [<-|H]; [right; now left|].
      destruct (IH H) as [->|H']; [now left|right; now right].
Qed.

Lemma map_set_keys (id : string) (p : nat) (m : list (string * nat)) :
  List.NoDup (map fst m) -> List.NoDup (map fst (map_set id p m)).
Proof.
  induction m as [|[k q] m IH]; cbn.
  - intros _. constructor; [intros []|constructor].
  - intros Hnd. apply List.NoDup_cons_iff in Hnd as [Hk Hnd].
    destruct (String.eqb_spec k id) as [->|Hne]; cbn.
    + now constructor.
    + constructor; [|now apply IH].
      intros Hin. apply map_set_keys_In in Hin as [->|Hin]; [congruence|contradiction].
Qed.

Lemma map_set_vals_In (id : string) (p : nat) (m : list (string * nat)) (v : nat) :
  In v (map snd (map_set id p m)) -> v = p \/ In v (map snd m).
Proof.
  induction m as [|[k r] m IH]; cbn.
  - intros [<-|[]]. now left.
  - destruct (String.eqb k id); cbn.
    + intros [<-|H]; [now left|right; now right].
    + intros [<-|H]; [right; now left|].
      destruct (IH H) as [->|H']; [now left|right; now right].
Qed.

Lemma map_set_vals (id : string) (p : nat) (m : list (string * nat)) :
  List.NoDup (map snd m) -> ~ In p (map snd m) ->
  List.NoDup (map snd (map_set id p m)).
Proof.
  induction m as [|[k r] m IH]; cbn; intros Hnd Hp.
  - constructor; [intros []|constructor].
  - apply List.NoDup_cons_iff in Hnd as [Hr Hnd].
    destruct (String.eqb k id); cbn.
    + constructor; [tauto|exact Hnd].
    + constructor.
      * intros Hin. apply map_set_vals_In in Hin as [->|Hin]; tauto.
      * apply IH; tauto.
Qed.

(** The promise pending under [id], once [id] is deleted, is pending no
    more. *)
Lemma map_delete_retires (id : string) (p : nat) (m : list (string * nat)) :
  List.NoDup (map fst m) -> List.NoDup (map snd m) -> In (id, p) m ->
  ~ In p (map snd (map_delete id m)).
Proof.
  intros Hk Hv Hin Hp. apply in_vals in Hp as (k & Hp).
  apply map_delete_spec in Hp as [Hp Hne]; [|exact Hk].
  apply Hne. exact (one_id m k id p Hv Hp Hin).
Qed.

(** ** The calls on a promise *)

Section Tasks.

Variable Listener : Type.
Variable JSON_parse : string -> option value.
Variable randomUUID : nat -> string.

Local Abbreviation on_line := (@Process.on_line Listener JSON_parse).
Local Abbreviation on_exit := (@Process.on_exit Listener).
Local Abbreviation on_write_error := (@Process.on_write_error Listener).
Local Abbreviation request := (@Process.request Listener randomUUID).
Local Abbreviation world := (Process.world Listener).
Local Abbreviation op := (Process.op Listener).
Local Abbreviation step := (@Process.step Listener JSON_parse randomUUID).
Local Abbreviation exec := (@Process.exec Listener JSON_parse randomUUID).

(** X21.  A request and what settles it.  [request] is called and draws an
    identifier [id] that no pending request has.  It writes one line, the
    command with this [id], and leaves [id] pending, behind the requests
    made before, with the promise it returns.  Then each of these settles
    that promise, and only it, and leaves the pending requests as they were
    before the call: a line that is a response with this [id] resolves the
    promise with the response; an error of the write rejects it with that
    error.  The exit of the child process rejects it after the promises of
    the requests made before.  A second response with this [id] is
    dropped. *)
Theorem request_settled_by_its_response
    (cmd : PiRpcCommand) (draws : nat) (t : PiRpcProcess Listener)
    (line : string) (msg : value) (err : string) (code : option Z) (signal : option string) :
  map_get (randomUUID draws) (pending t) = None ->
  trim_nonempty line = true -> JSON_parse line = Some msg ->
  response_shape msg (randomUUID draws) ->
  let id := randomUUID draws in
  let r := request cmd draws t in
  let t1 := fst (fst r) in
  let p := snd r in
  let t2 := {| pending := pending t; eventHandlers := eventHandlers t;
               requests := S (requests t) |} in
  snd (fst r) = [WriteLine id cmd] /\
  pending t1 = pending t ++ [(id, p)] /\
  on_line line t1 = (t2, [Resolve p msg]) /\
  on_line line t2 = (t2, []) /\
  on_write_error id p err t1 = (t2, [Reject p (write_failed err)]) /\
  snd (on_exit code signal t1)
  = map (fun kp => Reject (snd kp) (process_exited code signal)) (pending t)
    ++ [Reject p (process_exited code signal)].
Proof.
  intros Hfresh Hne Hparse Hshape. cbn zeta.
  apply response_id_shape in Hshape.
  unfold Process.request. cbn [fst snd].
  split; [reflexivity|]. split; [now apply map_set_fresh|].
  split; [|split; [|split]].
  - rewrite (on_line_parsed _ JSON_parse line msg _ Hne Hparse).
    unfold Process.on_message. rewrite Hshape. cbn [pending eventHandlers requests].
    now rewrite map_get_set, map_delete_set_fresh.
  - rewrite (on_line_parsed _ JSON_parse line msg _ Hne Hparse).
    unfold Process.on_message. rewrite Hshape. cbn [pending]. now rewrite Hfresh.
  - unfold Process.on_write_error. cbn [pending eventHandlers requests].
    now rewrite map_delete_set_fresh.
  - unfold Process.on_exit. cbn [snd pending].
    now rewrite map_set_fresh, map_app.
Qed.

Lemma settled_app (a b : list (effect Listener)) : settled (a ++ b) = settled a ++ settled b.
Proof. apply flat_map_app. Qed.

Lemma settled_dispatch (hs : list Listener) (msg : value) :
  settled (map (fun h => Dispatch h msg) hs) = [].
Proof. induction hs as [|h hs IH]; [reflexivity|exact IH]. Qed.

Lemma settled_reject (m : list (string * nat)) (err : failure) :
  @settled Listener (map (fun kp => Reject (snd kp) err) m) = map snd m.
Proof.
  induction m as [|kp m IH]; [reflexivity|].
  cbn [map]. change (snd kp :: @settled Listener (map (fun kp => Reject (snd kp) err) m)
                     = snd kp :: map snd m).
  now rewrite IH.
Qed.

Lemma first_calls_weaken (es : list (effect Listener)) :
  forall seen seen',
    (forall p, In p seen' -> In p seen) -> first_calls seen es -> first_calls seen' es.
Proof.
  induction es as [|e es IH]; intros seen seen' Hsub; cbn; [trivial|].
  intros [He Hrest]. split.
  - intros p Hp Hin. apply (He p Hp). now apply Hsub.
  - apply (IH (settled [e] ++ seen)); [|exact Hrest].
    intros p Hp. apply in_app_or in Hp as [Hp|Hp]; apply in_or_app; auto.
Qed.

Lemma first_calls_app (a b : list (effect Listener)) :
  forall seen,
    first_calls seen a -> first_calls (settled a ++ seen) b -> first_calls seen (a ++ b).
Proof.
  induction a as [|e a IH]; intros seen Ha Hb; [exact Hb|].
  cbn in Ha. destruct Ha as [He Ha]. cbn [app first_calls]. split; [exact He|].
  apply IH; [exact Ha|].
  apply (first_calls_weaken b (settled (e :: a) ++ seen)); [|exact Hb].
  change (e :: a) with ([e] ++ a). rewrite settled_app.
  intros p Hp. rewrite !List.in_app_iff in *. tauto.
Qed.

Lemma first_calls_split (es1 : list (effect Listener)) :
  forall seen e es2 p,
    first_calls seen (es1 ++ e :: es2) -> answers e p ->
    ~ In p (settled es1) /\ ~ In p seen.
Proof.
  induction es1 as [|e0 es1 IH]; intros seen e es2 p Hfc Hp.
  - cbn in Hfc. destruct Hfc as [He _]. split; [intros []|now apply He].
  - cbn [app first_calls] in Hfc. destruct Hfc as [_ Hfc].
    destruct (IH _ _ _ _ Hfc Hp) as [H1 H2].
    change (e0 :: es1) with ([e0] ++ es1). rewrite settled_app. split.
    + intros Hin. apply in_app_or in Hin as [Hin|Hin]; [|contradiction].
      apply H2. apply in_or_app. now left.
    + intros Hin. apply H2. apply in_or_app. now right.
Qed.

(** The rejections of the exit handler are first calls. *)
Lemma first_calls_exit (err : failure) (m : list (string * nat)) :
  forall seen,
    List.NoDup (map snd m) -> (forall p, In p (map snd m) -> ~ In p seen) ->
    @first_calls Listener seen (map (fun kp => Reject (snd kp) err) m).
Proof.
  induction m as [|[k v] m IH]; intros seen Hnd Hseen; [exact I|].
  cbn in Hnd. apply List.NoDup_cons_iff in Hnd as [Hv Hnd].
  cbn [map first_calls snd]. split.
  - intros p Hp. assert (p = v) as -> by (destruct err; cbn in Hp; congruence || tauto).
    apply Hseen. now left.
  - apply IH; [exact Hnd|].
    intros p Hp [<-|Hin]; [contradiction|]. apply (Hseen p); [now right|exact Hin].
Qed.

(** What the deletion of [id] keeps of a well-formed transport. *)
Lemma delete_well_formed (id : string) (w : world) (ws : list (string * nat)) :
  well_formed w -> (forall c, In c ws -> In c (writes w)) -> List.NoDup (map snd ws) ->
  well_formed {| transport := {| pending := map_delete id (pending (transport w));
                                 eventHandlers := eventHandlers (transport w);
                                 requests := requests (transport w) |};
                 writes := ws |}.
Proof.
  unfold well_formed, promises. cbn [transport writes pending requests].
  intros (Hk & Hv & Hlt & Hwn & Hw) Hsub Hnd.
  split; [now apply map_delete_keys|]. split; [now apply map_delete_vals|].
  split; [intros p Hp; apply Hlt; now apply map_delete_vals_In in Hp|].
  split; [exact Hnd|].
  intros [k v] Hc. destruct (Hw _ (Hsub _ Hc)) as [Hb Hp]. cbn [snd] in *.
  split; [exact Hb|]. intros Hin.
  pose proof (Hp (map_delete_vals_In _ _ _ Hin)) as Hkv.
  apply in_vals in Hin as (k' & Hin).
  pose proof Hin as Hin'. apply map_delete_spec in Hin' as [Hin' Hne]; [|exact Hk].
  assert (k = k') as <- by exact (one_id _ _ _ _ Hv Hkv Hin').
  exact Hin.
Qed.

Lemma retired_delete (id : string) (seen : list nat) (t : PiRpcProcess Listener) (p : nat) :
  retired seen t -> p < requests t ->
  ~ In p (map snd (map_delete id (pending t))) ->
  retired (p :: seen)
    {| pending := map_delete id (pending t); eventHandlers := eventHandlers t;
       requests := requests t |}.
Proof.
  unfold retired, promises. cbn [pending requests].
  intros Hseen Hlt Hp q [<-|Hq]; [now split|].
  destruct (Hseen q Hq) as [H1 H2]. split; [|exact H2].
  intros Hin. apply H1. now apply map_delete_vals_In in Hin.
Qed.

Lemma forget_In (p : nat) (ws : list (string * nat)) (c : string * nat) :
  In c (forget p ws) -> In c ws.
Proof. unfold forget. intros H. now apply filter_In in H. Qed.

Lemma forget_NoDup (p : nat) (ws : list (string * nat)) :
  List.NoDup (map snd ws) -> List.NoDup (map snd (forget p ws)).
Proof.
  induction ws as [|c ws IH]; cbn; [constructor|].
  intros Hnd. apply List.NoDup_cons_iff in Hnd as [Hc Hnd].
  destruct (negb (Nat.eqb (snd c) p)); [|now apply IH].
  cbn. constructor; [|now apply IH].
  intros Hin. apply Hc. apply in_map_iff in Hin as (c' & Heq & Hin).
  apply in_map_iff. exists c'. split; [exact Heq|now apply forget_In in Hin].
Qed.

Lemma step_first_calls (w w1 : world) (o : op) (e1 : list (effect Listener))
    (seen : list nat) :
  step w o = (w1, e1) -> well_formed w -> retired seen (transport w) ->
  well_formed w1 /\ first_calls seen e1 /\ retired (settled e1 ++ seen) (transport w1).
Proof.
  intros Hs Hwf Hseen.
  assert (Hsame : forall hs : list Listener,
             well_formed {| transport := {| pending := pending (transport w);
                                            eventHandlers := hs;
                                            requests := requests (transport w) |};
                            writes := writes w |} /\
             @first_calls Listener seen [] /\
             retired (@settled Listener [] ++ seen)
               {| pending := pending (transport w); eventHandlers := hs;
                  requests := requests (transport w) |}).
  { intros hs. split; [exact Hwf|]. split; [exact I|exact Hseen]. }
  assert (Hanswer : forall id p (e : effect Listener),
             settled [e] = [p] -> (forall q, answers e q -> q = p) ->
             map_get id (pending (transport w)) = Some p ->
             well_formed {| transport := {| pending := map_delete id (pending (transport w));
                                            eventHandlers := eventHandlers (transport w);
                                            requests := requests (transport w) |};
                            writes := writes w |} /\
             first_calls seen [e] /\
             retired (settled [e] ++ seen)
               {| pending := map_delete id (pending (transport w));
                  eventHandlers := eventHandlers (transport w);
                  requests := requests (transport w) |}).
  { intros id p e He Hans Hget. apply map_get_In in Hget.
    pose proof Hwf as (Hk & Hv & Hlt & Hwn & Hw).
    assert (Hp : In p (promises (transport w))) by (apply in_vals; now exists id).
    split; [apply delete_well_formed; auto|]. split.
    - cbn. split; [|exact I]. intros q Hq. rewrite (Hans q Hq).
      intros Hin. now apply (Hseen p Hin).
    - rewrite He. apply retired_delete; [exact Hseen|now apply Hlt|].
      now apply map_delete_retires. }
  destruct w as [[m hs n] ws]. cbn [transport writes pending eventHandlers requests] in *.
  destruct o as [cmd draws|p err|[line|code signal]|h]; cbn in Hs.
  - injection Hs as <- <-.
    destruct Hwf as (Hk & Hv & Hlt & Hwn & Hw). unfold promises in *. cbn in *.
    assert (Hn : ~ In n (map snd m)) by (intros Hin; specialize (Hlt _ Hin); lia).
    split; [|split; [split; [tauto|exact I]|]].
    + unfold well_formed, promises. cbn.
      split; [now apply map_set_keys|]. split; [now apply map_set_vals|].
      split; [intros p Hp; apply map_set_vals_In in Hp as [->|Hp]; [lia|]; specialize (Hlt _ Hp); lia|].
      split.
      * rewrite map_app. apply List.NoDup_app; [exact Hwn|repeat constructor; intros []|].
        intros p Hp [<-|[]]. apply in_map_iff in Hp as (c & Hc & Hin).
        destruct (Hw _ Hin) as [Hb _]. cbn in Hc. lia.
      * intros [k v] Hc. apply in_app_or in Hc as [Hc|[[= <- <-]|[]]].
        -- destruct (Hw _ Hc) as [Hb Hp]. cbn [snd] in *. split; [lia|].
           intros Hin. apply map_set_vals_In in Hin as Hin'.
           destruct Hin' as [->|Hin']; [lia|]. specialize (Hp Hin').
           apply in_vals in Hin as (k' & Hin).
           pose proof Hin as Hin2. apply map_set_spec in Hin2; [|exact Hk].
           destruct Hin2 as [[= -> ->]|[Hin2 Hne]]; [lia|].
           assert (k = k') as <- by exact (one_id _ _ _ _ Hv Hp Hin2).
           exact Hin.
        -- cbn [snd]. split; [lia|]. intros _.
           apply map_set_spec; [exact Hk|]. now left.
    + unfold retired, promises in *. cbn in *. intros p Hp.
      destruct (Hseen p Hp) as [H1 H2]. split; [|lia].
      intros Hin. apply map_set_vals_In in Hin as [->|Hin]; [lia|contradiction].
  - unfold callback_of in Hs.
    destruct (find (fun c => Nat.eqb (snd c) p) ws) as [[id q]|] eqn:Hfind.
    + injection Hs as <- <-.
      apply find_some in Hfind as [Hin Hq]. cbn in Hq. apply Nat.eqb_eq in Hq. subst q.
      pose proof Hwf as (Hk & Hv & Hlt & Hwn & Hw). cbn in Hk, Hv, Hlt, Hwn, Hw.
      destruct (Hw _ Hin) as [Hb Hp]. cbn [snd] in Hb, Hp.
      split; [|split; [split; [intros q []|exact I]|]].
      * apply (delete_well_formed id {| transport := {| pending := m; eventHandlers := hs;
                                                        requests := n |}; writes := ws |});
          [exact Hwf|intros c; apply forget_In|now apply forget_NoDup].
      * apply (retired_delete id seen {| pending := m; eventHandlers := hs; requests := n |});
          [exact Hseen|exact Hb|]. cbn [pending].
        intros Hgone. pose proof (map_delete_vals_In _ _ _ Hgone) as Hold.
        exact (map_delete_retires id p m Hk Hv (Hp Hold) Hgone).
    + injection Hs as <- <-. exact (Hsame hs).
  - unfold Process.on_line in Hs.
    destruct (negb (trim_nonempty line)); [injection Hs as <- <-; exact (Hsame hs)|].
    destruct (JSON_parse line) as [msg|]; [|injection Hs as <- <-; exact (Hsame hs)].
    unfold Process.on_message in Hs. cbn [pending eventHandlers requests] in Hs.
    destruct (response_id msg) as [id|].
    + destruct (map_get id m) as [p|] eqn:Hp; injection Hs as <- <-.
      * apply (Hanswer id p); [reflexivity|intros q Hq; now cbn in Hq|exact Hp].
      * exact (Hsame hs).
    + injection Hs as <- <-. rewrite settled_dispatch.
      split; [exact Hwf|]. split; [|exact Hseen].
      clear. induction hs as [|h hs IH]; cbn; [exact I|]. split; [intros p []|exact IH].
  - injection Hs as <- <-.
    pose proof Hwf as (Hk & Hv & Hlt & Hwn & Hw). cbn in Hk, Hv, Hlt, Hwn, Hw.
    unfold promises in *. cbn in Hv, Hlt, Hw.
    rewrite settled_reject. split; [|split].
    + unfold well_formed, promises. cbn.
      split; [constructor|]. split; [constructor|]. split; [intros p []|].
      split; [exact Hwn|]. intros c Hc. destruct (Hw _ Hc) as [Hb _]. split; [exact Hb|intros []].
    + apply first_calls_exit; [exact Hv|].
      intros p Hp Hin. now apply (Hseen p Hin).
    + unfold retired, promises in *. cbn in *. intros p Hp.
      split; [intros []|]. apply in_app_or in Hp as [Hp|Hp]; [now apply Hlt|now apply Hseen].
  - injection Hs as <- <-. exact (Hsame (hs ++ [h])).
Qed.

Lemma exec_first_calls (ops : list op) :
  forall w w' es seen,
    exec w ops = (w', es) -> well_formed w -> retired seen (transport w) ->
    first_calls seen es.
Proof.
  induction ops as [|o ops IH]; intros w w' es seen He Hwf Hseen.
  - injection He as <- <-. exact I.
  - cbn [Process.exec] in He.
    destruct (step w o) as [w1 e1] eqn:E1.
    destruct (exec w1 ops) as [w2 e2] eqn:E2.
    injection He as <- <-.
    destruct (step_first_calls _ _ _ _ _ E1 Hwf Hseen) as (Hwf1 & Hfc1 & Hseen1).
    apply first_calls_app; [exact Hfc1|].
    exact (IH _ _ _ _ E2 Hwf1 Hseen1).
Qed.

(** X22.  Whatever happens to a transport, in whatever order (requests,
    lines read, write errors, the exit of the child process, listeners
    registered): when the line handler resolves a promise, or the exit
    handler rejects one, neither [resolve] nor [reject] was called on this
    promise before.  So no request is answered twice, and none is answered
    after its write failed or after the exit of the child process. *)
Theorem promise_answered_once
    (ops : list op) (w : world) (es1 es2 : list (effect Listener))
    (e : effect Listener) (p : nat) :
  well_formed w ->
  snd (exec w ops) = es1 ++ e :: es2 -> answers e p ->
  ~ In p (settled es1).
Proof.
  intros Hwf Hes Hp.
  destruct (exec w ops) as [w' es] eqn:E. cbn [snd] in Hes. subst es.
  assert (Hfc : first_calls [] (es1 ++ e :: es2)).
  { apply (exec_first_calls ops w w' _ [] E Hwf). intros q []. }
  exact (proj1 (first_calls_split es1 [] e es2 p Hfc Hp)).
Qed.

End Tasks.

(** ** The statements at a concrete transport *)

Lemma response_r1_shape : response_shape response_r1 "r1".
Proof. eexists. repeat split. Qed.

Lemma request_settled_by_its_response_witness :
  let t := onEvent "session" (@new_process string) in
  let r := Process.request (fun _ => "r1") (cmd_prompt "hi") 0 t in
  let t1 := fst (fst r) in
  let t2 := {| pending := []; eventHandlers := ["session"]; requests := 1 |} in
  snd (fst r) = [WriteLine "r1" (cmd_prompt "hi")] /\
  pending t1 = [("r1", 0)] /\
  Process.on_line test_parse "{response r1}" t1 = (t2, [Resolve 0 response_r1]) /\
  Process.on_line test_parse "{response r1}" t2 = (t2, []) /\
  Process.on_write_error "r1" 0 "EPIPE" t1 = (t2, [Reject 0 (write_failed "EPIPE")]) /\
  snd (Process.on_exit (Some 1%Z) None t1) = [Reject 0 (process_exited (Some 1%Z) None)].
Proof.
  intros t r t1 t2.
  apply (request_settled_by_its_response string test_parse (fun _ => "r1")
           (cmd_prompt "hi") 0 t "{response r1}" response_r1 "EPIPE" (Some 1%Z) None).
  - reflexivity.
  - reflexivity.
  - reflexivity.
  - apply response_r1_shape.
Defined.

(** A transport on which two requests were made, the first answered, and
    which then saw the write of the second fail, the child process exit and
    one more response. *)
Lemma promise_answered_once_witness :
  let w := {| transport := @new_process string; writes := [] |} in
  let ops := [Request (cmd_prompt "hi") 0; Arrives (Line "{response r1}");
              Request cmd_abort 1; WriteFailed 1 "EPIPE";
              Arrives (Exit (Some 1%Z) None); Arrives (Line "{response r1}")] in
  snd (exec test_parse (fun _ => "r1") w ops)
  = [WriteLine "r1" (cmd_prompt "hi"); Resolve 0 response_r1; WriteLine "r1" cmd_abort;
     Reject 1 (write_failed "EPIPE")] /\
  ~ In 0 (@settled string [WriteLine "r1" (cmd_prompt "hi")]).
Proof.
  intros w ops. split; [reflexivity|].
  apply (promise_answered_once string test_parse (fun _ => "r1") ops w
           [WriteLine "r1" (cmd_prompt "hi")]
           [WriteLine "r1" cmd_abort; Reject 1 (write_failed "EPIPE")]
           (Resolve 0 response_r1) 0).
  - unfold well_formed, promises. cbn.
    split; [constructor|]. split; [constructor|]. split; [intros p []|].
    split; [constructor|intros c []].
  - reflexivity.
  - reflexivity.
Defined.

End ProcessFacts.
